(** * neuroanalysis.stimuli: stimulus trees, serialisation, evaluation and
      pulse detection

    A shallow embedding of [neuroanalysis/stimuli.py].

    Conventions of the embedding:
    - Python floats (and numpy scalars) are exact rationals [Q]; Python's
      [==] on numbers is [Qeq_bool].  IEEE rounding, infinities and NaN are
      not represented in the rational part: a statement over [Q] is about
      attributes and samples that are numbers, added without rounding.  The
      chirp formulas, which need [log] and [**], live over [R] with an
      explicit "not a finite number" outcome, and the rounding of the
      additions into the buffer is looked at in Module [Float64], over
      the binary64 numbers of the kernel.
    - A raised Python exception is the [Raise] outcome of the [res] monad.
    - A stimulus tree is an inductive value whose [items] field is what the
      [items] property returns; the object store with identities and
      [parent] back-references is modelled separately (Module [Store]). *)

From stdpp Require Import gmap strings list.
From Stdlib Require Import QArith Qround Qabs Reals Lra Lia Sorted.
From Stdlib Require PrimFloat.

(* ===================================================================== *)
(** * Part I: definitions                                                  *)
(* ===================================================================== *)

(** ** Exceptions *)

Inductive exn :=
| AttributeError | KeyError | TypeError | ValueError | AssertionError
| IndexError | Exception.

Inductive res (A : Type) :=
| Ok (a : A)
| Raise (e : exn).
Arguments Ok {A} a.
Arguments Raise {A} e.

Definition bind {A B} (m : res A) (k : A -> res B) : res B :=
  match m with
  | Ok a => k a
  | Raise e => Raise e
  end.

Notation "'do' x <- m ; k" := (bind m (fun x => k))
  (at level 10, x name, m at level 100, k at level 200).
Notation "'do' ' p <- m ; k" := (bind m (fun p => k))
  (at level 10, p strict pattern, m at level 100, k at level 200).

Fixpoint mapM {A B} (f : A -> res B) (l : list A) : res (list B) :=
  match l with
  | [] => Ok []
  | x :: l' => do y <- f x; do ys <- mapM f l'; Ok (y :: ys)
  end.

(** ** Attribute values *)

(** The values that stimulus attributes and saved [args] take; [VObj] is
    any other object, known by its identity only (a loader, say). *)
Inductive value :=
| VNone
| VStr (s : string)
| VInt (z : Z)
| VNum (q : Q)
| VArr (l : list Q)
| VObj (id : nat).

Fixpoint arr_eqb (l1 l2 : list Q) : bool :=
  match l1, l2 with
  | [], [] => true
  | x :: l1', y :: l2' => Qeq_bool x y && arr_eqb l1' l2'
  | _, _ => false
  end.

(** Equal values: numbers compare by value across int and float, two
    arrays are equal when they hold the same numbers in the same order
    (what [np.array_equal] answers).  This is the answer of Python's [==]
    for every value but an array; for arrays see [value_ne]. *)
Definition value_eqb (v w : value) : bool :=
  match v, w with
  | VNone, VNone => true
  | VStr s, VStr t => String.eqb s t
  | VInt a, VInt b => Z.eqb a b
  | VInt a, VNum q => Qeq_bool (inject_Z a) q
  | VNum q, VInt b => Qeq_bool q (inject_Z b)
  | VNum p, VNum q => Qeq_bool p q
  | VArr l1, VArr l2 => arr_eqb l1 l2
  | VObj a, VObj b => Nat.eqb a b
  | _, _ => false
  end.

(** The condition [v != w] of an [if].  The three sequences of a
    [SquarePulseSeries] are numpy arrays, as its docstring asks ("float
    array"), and on an array [!=] answers element by element, a single
    element on one side standing against every element of the other: the
    answer is an array, and it has a truth value only if it has exactly one
    element; for any other size [if] raises [ValueError].  (So numpy 2.2
    and later; earlier versions give a warning and answer [False] for an
    array without elements, and [True] for arrays whose sizes do not go
    together.  No statement below rests on these two cases.) *)
Definition value_ne (v w : value) : res bool :=
  match v, w with
  | VArr [x], VArr [y] => Ok (negb (Qeq_bool x y))
  | VArr _, VArr _ => Raise ValueError
  | VArr [x], s => Ok (negb (value_eqb (VNum x) s))
  | s, VArr [x] => Ok (negb (value_eqb s (VNum x)))
  | VArr _, _ | _, VArr _ => Raise ValueError
  | _, _ => Ok (negb (value_eqb v w))
  end.

(** Values other than arrays: [!=] compares them by [value_eqb]. *)
Definition scalar (v : value) : Prop :=
  match v with VArr _ => False | _ => True end.

(** A single value, an array of one element counting as its element:
    what the two sides of a [!=] that answers must be. *)
Definition single (v : value) : Prop :=
  match v with
  | VArr [_] => True
  | VArr _ => False
  | _ => True
  end.

Definition element (v : value) : value :=
  match v with
  | VArr [x] => VNum x
  | _ => v
  end.

(** ** Stimulus classes and instances *)

Inductive cls :=
| Stimulus | LazyLoadStimulus | Offset | SquarePulse | SquarePulseTrain
| SquarePulseSeries | Ramp | Sine | Chirp | Psp.

Definition cls_eqb (c d : cls) : bool :=
  match c, d with
  | Stimulus, Stimulus | LazyLoadStimulus, LazyLoadStimulus
  | Offset, Offset | SquarePulse, SquarePulse
  | SquarePulseTrain, SquarePulseTrain
  | SquarePulseSeries, SquarePulseSeries | Ramp, Ramp | Sine, Sine
  | Chirp, Chirp | Psp, Psp => true
  | _, _ => false
  end.

(** [type(self).__name__] *)
Definition cls_name (c : cls) : string :=
  match c with
  | Stimulus => "Stimulus"
  | LazyLoadStimulus => "LazyLoadStimulus"
  | Offset => "Offset"
  | SquarePulse => "SquarePulse"
  | SquarePulseTrain => "SquarePulseTrain"
  | SquarePulseSeries => "SquarePulseSeries"
  | Ramp => "Ramp"
  | Sine => "Sine"
  | Chirp => "Chirp"
  | Psp => "Psp"
  end.

(** The instance attributes each subclass constructor assigns on top of
    the base ones.  [duration] is kept with the base attributes, because
    [Stimulus.__init__] gives every instance one. *)
Inductive fields :=
| F_Stimulus
| F_LazyLoadStimulus (loader source : value)
| F_Offset (amplitude : Q)
| F_SquarePulse (amplitude : Q) (pulse_number : option nat)
| F_SquarePulseTrain (n_pulses : Z) (pulse_duration amplitude interval : Q)
| F_SquarePulseSeries (pulse_times pulse_durations amplitudes : list Q)
| F_Ramp (slope offset : Q)
| F_Sine (frequency amplitude phase offset : Q)
| F_Chirp (start_frequency end_frequency amplitude phase offset : Q)
| F_Psp (rise_time decay_tau amplitude rise_power : Q).

Definition fields_cls (f : fields) : cls :=
  match f with
  | F_Stimulus => Stimulus
  | F_LazyLoadStimulus _ _ => LazyLoadStimulus
  | F_Offset _ => Offset
  | F_SquarePulse _ _ => SquarePulse
  | F_SquarePulseTrain _ _ _ _ => SquarePulseTrain
  | F_SquarePulseSeries _ _ _ => SquarePulseSeries
  | F_Ramp _ _ => Ramp
  | F_Sine _ _ _ _ => Sine
  | F_Chirp _ _ _ _ _ => Chirp
  | F_Psp _ _ _ _ => Psp
  end.

(** The attributes of one instance, children apart.  [own_duration] is the
    instance attribute [duration]: [0] unless the subclass constructor or
    the caller assigned it; [Psp] shadows it with a property. *)
Record attrs := Attrs {
  description : string;
  _start_time : Q;
  units : option string;
  own_duration : Q;
  extra : fields
}.

#[local] Unset Elimination Schemes.
Inductive stim := Node (a : attrs) (its : list stim).
#[local] Set Elimination Schemes.

Definition attrs_of (s : stim) : attrs := let 'Node a _ := s in a.
Definition items (s : stim) : list stim := let 'Node _ its := s in its.
Definition type (s : stim) : cls := fields_cls (extra (attrs_of s)).
Definition start_time (s : stim) : Q := _start_time (attrs_of s).

(** [max(a, b)]: the first argument unless the second is greater. *)
Definition Qmax (a b : Q) : Q := if Qle_bool b a then a else b.

(** [self.duration]: the [Psp] property, else the instance attribute. *)
Definition duration_of (a : attrs) : Q :=
  match extra a with
  | F_Psp rise_time decay_tau _ _ => 15 * Qmax rise_time decay_tau
  | _ => own_duration a
  end.
Definition duration (s : stim) : Q := duration_of (attrs_of s).

(** The class attribute [_attributes]. *)
Definition base_attributes : list string := ["description"; "start_time"; "units"].

Definition _attributes (c : cls) : list string :=
  match c with
  | Stimulus | LazyLoadStimulus => base_attributes
  | Offset => base_attributes ++ ["amplitude"]
  | SquarePulse => base_attributes ++ ["duration"; "amplitude"]
  | SquarePulseTrain =>
      base_attributes ++ ["n_pulses"; "pulse_duration"; "amplitude"; "interval"]
  | SquarePulseSeries =>
      base_attributes ++ ["pulse_times"; "pulse_durations"; "amplitudes"]
  | Ramp => base_attributes ++ ["duration"; "slope"; "initial_amplitude"]
  | Sine => base_attributes ++ ["duration"; "frequency"; "amplitude"; "phase"]
  | Chirp =>
      base_attributes ++
      ["duration"; "start_frequency"; "end_frequency"; "amplitude"; "phase"; "offset"]
  | Psp => base_attributes ++ ["rise_time"; "decay_tau"; "amplitude"; "rise_power"]
  end.

Definition opt_str (o : option string) : value :=
  match o with
  | Some s => VStr s
  | None => VNone
  end.

(** Attributes found on the instance of each class, the base ones apart. *)
Definition getattr_extra (f : fields) (name : string) : res value :=
  match f with
  | F_Stimulus => Raise AttributeError
  | F_LazyLoadStimulus loader source =>
      if String.eqb name "_loader" then Ok loader
      else if String.eqb name "_source" then Ok source
      else Raise AttributeError
  | F_Offset amplitude =>
      if String.eqb name "amplitude" then Ok (VNum amplitude) else Raise AttributeError
  | F_SquarePulse amplitude pulse_number =>
      if String.eqb name "amplitude" then Ok (VNum amplitude)
      else if String.eqb name "pulse_number" then
        match pulse_number with
        | Some i => Ok (VInt (Z.of_nat i))
        | None => Raise AttributeError
        end
      else Raise AttributeError
  | F_SquarePulseTrain n_pulses pulse_duration amplitude interval =>
      if String.eqb name "n_pulses" then Ok (VInt n_pulses)
      else if String.eqb name "pulse_duration" then Ok (VNum pulse_duration)
      else if String.eqb name "amplitude" then Ok (VNum amplitude)
      else if String.eqb name "interval" then Ok (VNum interval)
      else Raise AttributeError
  | F_SquarePulseSeries pulse_times pulse_durations amplitudes =>
      if String.eqb name "pulse_times" then Ok (VArr pulse_times)
      else if String.eqb name "pulse_durations" then Ok (VArr pulse_durations)
      else if String.eqb name "amplitudes" then Ok (VArr amplitudes)
      else Raise AttributeError
  | F_Ramp slope offset =>
      if String.eqb name "slope" then Ok (VNum slope)
      else if String.eqb name "offset" then Ok (VNum offset)
      else Raise AttributeError
  | F_Sine frequency amplitude phase offset =>
      if String.eqb name "frequency" then Ok (VNum frequency)
      else if String.eqb name "amplitude" then Ok (VNum amplitude)
      else if String.eqb name "phase" then Ok (VNum phase)
      else if String.eqb name "offset" then Ok (VNum offset)
      else Raise AttributeError
  | F_Chirp start_frequency end_frequency amplitude phase offset =>
      if String.eqb name "start_frequency" then Ok (VNum start_frequency)
      else if String.eqb name "end_frequency" then Ok (VNum end_frequency)
      else if String.eqb name "amplitude" then Ok (VNum amplitude)
      else if String.eqb name "phase" then Ok (VNum phase)
      else if String.eqb name "offset" then Ok (VNum offset)
      else Raise AttributeError
  | F_Psp rise_time decay_tau amplitude rise_power =>
      if String.eqb name "rise_time" then Ok (VNum rise_time)
      else if String.eqb name "decay_tau" then Ok (VNum decay_tau)
      else if String.eqb name "amplitude" then Ok (VNum amplitude)
      else if String.eqb name "rise_power" then Ok (VNum rise_power)
      else Raise AttributeError
  end.

(** [getattr(self, name)] for the data attributes and properties of a
    stimulus; a name the instance does not have raises [AttributeError]. *)
Definition getattr (a : attrs) (name : string) : res value :=
  if String.eqb name "description" then Ok (VStr (description a))
  else if String.eqb name "start_time" then Ok (VNum (_start_time a))
  else if String.eqb name "units" then Ok (opt_str (units a))
  else if String.eqb name "duration" then Ok (VNum (duration_of a))
  else getattr_extra (extra a) name.

(** ** Equality: [Stimulus.__eq__] *)

(** The loop [for name in self._attributes]: the first differing attribute
    answers [False]; a missing attribute raises, and so does the test of
    an array that has no truth value. *)
Fixpoint attrs_loop (a b : attrs) (names : list string) : res bool :=
  match names with
  | [] => Ok true
  | name :: names' =>
      do v <- getattr a name;
      do w <- getattr b name;
      do differ <- value_ne v w;
      if differ then Ok false else attrs_loop a b names'
  end.

Fixpoint py_eq (s o : stim) {struct s} : res bool :=
  let 'Node a si := s in
  let 'Node b oi := o in
  if negb (cls_eqb (fields_cls (extra a)) (fields_cls (extra b))) then Ok false
  else if negb (Nat.eqb (length si) (length oi)) then Ok false
  else
    do same <- attrs_loop a b (_attributes (fields_cls (extra a)));
    if negb same then Ok false
    else
      (fix items_loop (xs ys : list stim) {struct xs} : res bool :=
         match xs, ys with
         | x :: xs', y :: ys' =>
             do e <- py_eq x y;
             if negb e then Ok false else items_loop xs' ys'
         | _, _ => Ok true
         end) si oi.

(** The children loop of [__eq__], on its own. *)
Fixpoint items_eq (xs ys : list stim) : res bool :=
  match xs, ys with
  | x :: xs', y :: ys' =>
      do e <- py_eq x y;
      if negb e then Ok false else items_eq xs' ys'
  | _, _ => Ok true
  end.

(** [__ne__] *)
Definition py_ne (s o : stim) : res bool := do e <- py_eq s o; Ok (negb e).

(** ** Timing properties *)

(** A node is looked at below its ancestors: [anc] lists the attributes of
    its parent, grandparent, ... up to the root ([[]] for a parentless
    node).  [ancestry] yields the node itself first. *)
Definition ancestry (anc : list attrs) (s : stim) : list attrs := attrs_of s :: anc.

Definition global_start_time (anc : list attrs) (s : stim) : Q :=
  fold_left (fun t item => t + _start_time item) (ancestry anc s) 0.

Definition global_end_time (anc : list attrs) (s : stim) : Q :=
  global_start_time anc s + duration s.

Definition end_time (s : stim) : Q := start_time s + duration s.

Definition total_duration (anc : list attrs) (s : stim) : Q :=
  global_end_time anc s - global_start_time anc s.

(** Python's [max] over a non-empty list given as head and tail. *)
Definition py_max (x : Q) (l : list Q) : Q := fold_left Qmax l x.

Fixpoint total_global_end_time (anc : list attrs) (s : stim) {struct s} : Q :=
  let 'Node a its := s in
  py_max (global_end_time anc (Node a its))
         (map (total_global_end_time (a :: anc)) its).

(** The [global_end_time] of a node and of every node below it, each under
    its own ancestors. *)
Fixpoint subtree_end_times (anc : list attrs) (s : stim) {struct s} : list Q :=
  let 'Node a its := s in
  global_end_time anc (Node a its)
    :: flat_map (subtree_end_times (a :: anc)) its.

(** ** Constructors *)

(** The constructors build trees; their [parent] argument belongs to the
    object store (Module [Store]), where a node is attached to its parent
    by the parent setter.  In a tree the parent is the context of the
    node. *)

Definition Stimulus__init__ (description : string) (start_time : Q)
    (units : option string) (items : list stim) : stim :=
  Node (Attrs description start_time units 0 F_Stimulus) items.

Definition LazyLoadStimulus__init__ (description : string) (start_time : Q)
    (units : option string) (items : list stim) (loader source : value) : res stim :=
  match loader, source with
  | VNone, _ => Raise Exception
  | _, VNone => Raise Exception
  | _, _ =>
      Ok (Node (Attrs description start_time units 0
                  (F_LazyLoadStimulus loader source)) items)
  end.

Definition Offset__init__ (amplitude start_time : Q) (description : string)
    (units : option string) : stim :=
  Node (Attrs description start_time units 0 (F_Offset amplitude)) [].

Definition SquarePulse__init__ (start_time duration amplitude : Q)
    (description : string) (units : option string) : stim :=
  Node (Attrs description start_time units duration (F_SquarePulse amplitude None)) [].

Definition set_pulse_number (i : nat) (s : stim) : stim :=
  let 'Node a its := s in
  match extra a with
  | F_SquarePulse amplitude _ =>
      Node (Attrs (description a) (_start_time a) (units a) (own_duration a)
              (F_SquarePulse amplitude (Some i))) its
  | _ => s
  end.

(** [item in items] for an [item] that is none of the listed objects: the
    identity test fails everywhere and [==] decides. *)
Fixpoint py_in (item : stim) (its : list stim) : res bool :=
  match its with
  | [] => Ok false
  | e :: its' =>
      do same <- py_eq e item;
      if same then Ok true else py_in item its'
  end.

(** A freshly built pulse handed [parent=self]: the parent setter appends
    it unless some child already compares equal; [pulse_number] is assigned
    afterwards, on the same object. *)
Definition adopt_pulse (its : list stim) (i : nat) (pulse : stim) : res (list stim) :=
  do present <- py_in pulse its;
  if present then Ok its else Ok (its ++ [set_pulse_number i pulse]).

Fixpoint adopt_pulses (its : list stim) (i : nat) (pulses : list stim) : res (list stim) :=
  match pulses with
  | [] => Ok its
  | p :: pulses' =>
      do its' <- adopt_pulse its i p;
      adopt_pulses its' (S i) pulses'
  end.

(** [np.arange(n)] *)
Definition arange (n : Z) : list Q := map (fun i => inject_Z (Z.of_nat i)) (seq 0 (Z.to_nat n)).

(** The children a train ends up with: one pulse per entry of
    [np.arange(n_pulses) * interval], each built with [parent=self]. *)
Definition train_items (n_pulses : Z) (pulse_duration amplitude interval : Q)
    (units : option string) : res (list stim) :=
  let pulse_times := map (fun i => i * interval) (arange n_pulses) in
  adopt_pulses [] 0
    (map (fun t => SquarePulse__init__ t pulse_duration amplitude "square pulse" units)
         pulse_times).

Definition SquarePulseTrain__init__ (start_time : Q) (n_pulses : Z)
    (pulse_duration amplitude interval : Q) (description : string)
    (units : option string) : res stim :=
  do its <- train_items n_pulses pulse_duration amplitude interval units;
  Ok (Node (Attrs description start_time units 0
              (F_SquarePulseTrain n_pulses pulse_duration amplitude interval)) its).

(** The properties of [SquarePulseTrain]: [pulse_times], the start times
    of the children, and [global_pulse_times]. *)
Module Train.

Definition pulse_times (s : stim) : list Q := map start_time (items s).

Definition global_pulse_times (anc : list attrs) (s : stim) : list Q :=
  map (fun t => t + global_start_time anc s)%Q (pulse_times s).

End Train.

(** The pulses of a series; [pulse_durations[i]] and [amplitudes[i]] exist
    because the lengths were asserted equal. *)
Fixpoint series_pulses (pulse_times pulse_durations amplitudes : list Q)
    (units : option string) : list stim :=
  match pulse_times, pulse_durations, amplitudes with
  | t :: ts, d :: ds, a :: amps =>
      SquarePulse__init__ t d a "square pulse" units :: series_pulses ts ds amps units
  | _, _, _ => []
  end.

Definition series_items (pulse_times pulse_durations amplitudes : list Q)
    (units : option string) : res (list stim) :=
  adopt_pulses [] 0 (series_pulses pulse_times pulse_durations amplitudes units).

Definition SquarePulseSeries__init__ (start_time : Q)
    (pulse_times pulse_durations amplitudes : list Q) (description : string)
    (units : option string) : res stim :=
  if negb (Nat.eqb (length pulse_times) (length pulse_durations)
           && Nat.eqb (length pulse_durations) (length amplitudes))
  then Raise AssertionError
  else
    do its <- series_items pulse_times pulse_durations amplitudes units;
    Ok (Node (Attrs description start_time units 0
                (F_SquarePulseSeries pulse_times pulse_durations amplitudes)) its).

Definition Ramp__init__ (start_time duration slope offset : Q)
    (description : string) (units : option string) : stim :=
  Node (Attrs description start_time units duration (F_Ramp slope offset)) [].

Definition Sine__init__ (start_time duration frequency amplitude phase offset : Q)
    (description : string) (units : option string) : stim :=
  Node (Attrs description start_time units duration
          (F_Sine frequency amplitude phase offset)) [].

Definition Chirp__init__
    (start_time duration start_frequency end_frequency amplitude phase offset : Q)
    (description : string) (units : option string) : stim :=
  Node (Attrs description start_time units duration
          (F_Chirp start_frequency end_frequency amplitude phase offset)) [].

(** [Psp] defines [duration] as a property, so [Stimulus.__init__] finds the
    attribute and assigns nothing. *)
Definition Psp__init__ (start_time rise_time decay_tau amplitude rise_power : Q)
    (description : string) (units : option string) : stim :=
  Node (Attrs description start_time units 0
          (F_Psp rise_time decay_tau amplitude rise_power)) [].

(** ** Saved records *)

Abbreviation dict := (gmap string value).

#[local] Unset Elimination Schemes.
Inductive state := State (st_type : string) (st_args : dict) (st_items : list state).
#[local] Set Elimination Schemes.

Definition st_type (st : state) : string := let 'State t _ _ := st in t.
Definition st_args (st : state) : dict := let 'State _ a _ := st in a.
Definition st_items (st : state) : list state := let 'State _ _ i := st in i.

(** [_save_value]: numpy scalars become plain numbers, which the value
    model does not tell apart. *)
Definition _save_value (v : value) : value := v.

(** The loop [for name in self._attributes: state['args'][name] = ...]. *)
Fixpoint save_args (a : attrs) (names : list string) (args : dict) : res dict :=
  match names with
  | [] => Ok args
  | name :: names' =>
      do v <- getattr a name;
      save_args a names' (<[name := _save_value v]> args)
  end.

(** [Stimulus.save], with the override of [SquarePulseTrain] and
    [SquarePulseSeries], which runs the base method and then empties
    [items]. *)
Fixpoint save (s : stim) {struct s} : res state :=
  let 'Node a its := s in
  let c := fields_cls (extra a) in
  do args <- save_args a (_attributes c) {["start_time" := VNum (_start_time a)]};
  do sts <- (fix save_items (l : list stim) : res (list state) :=
               match l with
               | [] => Ok []
               | x :: l' => do y <- save x; do ys <- save_items l'; Ok (y :: ys)
               end) its;
  match c with
  | SquarePulseTrain | SquarePulseSeries => Ok (State (cls_name c) args [])
  | _ => Ok (State (cls_name c) args sts)
  end.

(** ** Loading *)

Definition all_classes : list cls :=
  [LazyLoadStimulus; Offset; SquarePulse; SquarePulseTrain; SquarePulseSeries;
   Ramp; Sine; Chirp; Psp].

(** The registry [_subclasses] once built: every direct subclass by name,
    and [Stimulus] itself. *)
Definition _subclasses : gmap string cls :=
  <[cls_name Stimulus := Stimulus]>
    (list_to_map (map (fun c => (cls_name c, c)) all_classes)).

Definition get_stimulus_class (name : string) : res cls :=
  match _subclasses !! name with
  | Some c => Ok c
  | None => Raise KeyError
  end.

(** Keyword-argument binding.  An unexpected keyword or a missing required
    argument is a [TypeError]; so is, in this typed model, a value of a kind
    the attribute cannot hold. *)
Definition check_keywords (allowed : list string) (kw : dict) : res unit :=
  if forallb (fun k => existsb (String.eqb k) allowed) (map fst (map_to_list kw))
  then Ok tt else Raise TypeError.

Definition as_num (v : value) : res Q :=
  match v with
  | VNum q => Ok q
  | VInt z => Ok (inject_Z z)
  | _ => Raise TypeError
  end.

Definition as_int (v : value) : res Z :=
  match v with
  | VInt z => Ok z
  | _ => Raise TypeError
  end.

Definition as_str (v : value) : res string :=
  match v with
  | VStr s => Ok s
  | _ => Raise TypeError
  end.

Definition as_opt_str (v : value) : res (option string) :=
  match v with
  | VNone => Ok None
  | VStr s => Ok (Some s)
  | _ => Raise TypeError
  end.

Definition as_arr (v : value) : res (list Q) :=
  match v with
  | VArr l => Ok l
  | _ => Raise TypeError
  end.

Definition required (kw : dict) (name : string) : res value :=
  match kw !! name with
  | Some v => Ok v
  | None => Raise TypeError
  end.

Definition optional (kw : dict) (name : string) (dflt : value) : value :=
  match kw !! name with
  | Some v => v
  | None => dflt
  end.

(** [parent] is never saved; given as anything but [None] it is not a
    stimulus, and the parent setter fails on its [items]. *)
Definition check_parent (kw : dict) : res unit :=
  match optional kw "parent" VNone with
  | VNone => Ok tt
  | _ => Raise AttributeError
  end.

Definition common_keywords : list string := ["description"; "start_time"; "units"; "parent"].

Definition no_items (its : option (list stim)) : res unit :=
  match its with
  | None => Ok tt
  | Some _ => Raise TypeError
  end.

(** The [items] argument of the two classes that take one: the loaded
    children when the call passes them (a second [items] among the saved
    arguments is then a [TypeError]), else what the saved arguments hold,
    which in this model can only be [None]. *)
Definition items_argument (its : option (list stim)) (kw : dict) : res (list stim) :=
  match its, kw !! "items" with
  | Some l, None => Ok l
  | Some _, Some _ => Raise TypeError
  | None, None | None, Some VNone => Ok []
  | None, Some _ => Raise TypeError
  end.

(** The keyword call of a class with the saved [args], and with
    [items=child_items] as well when [its] is [Some]. *)
Definition construct (c : cls) (its : option (list stim)) (kw : dict) : res stim :=
  match c with
  | Stimulus =>
      do _ <- check_keywords (common_keywords ++ ["items"]) kw;
      do items <- items_argument its kw;
      do description <- as_str (optional kw "description" (VStr "stimulus"));
      do start_time <- as_num (optional kw "start_time" (VInt 0));
      do units <- as_opt_str (optional kw "units" VNone);
      do _ <- check_parent kw;
      Ok (Stimulus__init__ description start_time units items)
  | LazyLoadStimulus =>
      do _ <- check_keywords (common_keywords ++ ["items"; "loader"; "source"]) kw;
      do items <- items_argument its kw;
      do description <- required kw "description";
      do description <- as_str description;
      do start_time <- as_num (optional kw "start_time" (VInt 0));
      do units <- as_opt_str (optional kw "units" VNone);
      do _ <- check_parent kw;
      LazyLoadStimulus__init__ description start_time units items
        (optional kw "loader" VNone) (optional kw "source" VNone)
  | Offset =>
      do _ <- no_items its;
      do _ <- check_keywords (common_keywords ++ ["amplitude"]) kw;
      do amplitude <- required kw "amplitude";
      do amplitude <- as_num amplitude;
      do start_time <- as_num (optional kw "start_time" (VInt 0));
      do description <- as_str (optional kw "description" (VStr "offset"));
      do units <- as_opt_str (optional kw "units" VNone);
      do _ <- check_parent kw;
      Ok (Offset__init__ amplitude start_time description units)
  | SquarePulse =>
      do _ <- no_items its;
      do _ <- check_keywords (common_keywords ++ ["duration"; "amplitude"]) kw;
      do start_time <- required kw "start_time";
      do duration <- required kw "duration";
      do amplitude <- required kw "amplitude";
      do start_time <- as_num start_time;
      do duration <- as_num duration;
      do amplitude <- as_num amplitude;
      do description <- as_str (optional kw "description" (VStr "square pulse"));
      do units <- as_opt_str (optional kw "units" VNone);
      do _ <- check_parent kw;
      Ok (SquarePulse__init__ start_time duration amplitude description units)
  | SquarePulseTrain =>
      do _ <- no_items its;
      do _ <- check_keywords
                (common_keywords ++ ["n_pulses"; "pulse_duration"; "amplitude"; "interval"]) kw;
      do start_time <- required kw "start_time";
      do n_pulses <- required kw "n_pulses";
      do pulse_duration <- required kw "pulse_duration";
      do amplitude <- required kw "amplitude";
      do interval <- required kw "interval";
      do start_time <- as_num start_time;
      do n_pulses <- as_int n_pulses;
      do pulse_duration <- as_num pulse_duration;
      do amplitude <- as_num amplitude;
      do interval <- as_num interval;
      do description <- as_str (optional kw "description" (VStr "square pulse train"));
      do units <- as_opt_str (optional kw "units" VNone);
      do _ <- check_parent kw;
      SquarePulseTrain__init__ start_time n_pulses pulse_duration amplitude interval
        description units
  | SquarePulseSeries =>
      do _ <- no_items its;
      do _ <- check_keywords
                (common_keywords ++ ["pulse_times"; "pulse_durations"; "amplitudes"]) kw;
      do start_time <- required kw "start_time";
      do pulse_times <- required kw "pulse_times";
      do pulse_durations <- required kw "pulse_durations";
      do amplitudes <- required kw "amplitudes";
      do start_time <- as_num start_time;
      do pulse_times <- as_arr pulse_times;
      do pulse_durations <- as_arr pulse_durations;
      do amplitudes <- as_arr amplitudes;
      do description <- as_str (optional kw "description" (VStr "square pulse train"));
      do units <- as_opt_str (optional kw "units" VNone);
      do _ <- check_parent kw;
      SquarePulseSeries__init__ start_time pulse_times pulse_durations amplitudes
        description units
  | Ramp =>
      do _ <- no_items its;
      do _ <- check_keywords (common_keywords ++ ["duration"; "slope"; "offset"]) kw;
      do start_time <- required kw "start_time";
      do duration <- required kw "duration";
      do slope <- required kw "slope";
      do start_time <- as_num start_time;
      do duration <- as_num duration;
      do slope <- as_num slope;
      do offset <- as_num (optional kw "offset" (VInt 0));
      do description <- as_str (optional kw "description" (VStr "linear ramp"));
      do units <- as_opt_str (optional kw "units" VNone);
      do _ <- check_parent kw;
      Ok (Ramp__init__ start_time duration slope offset description units)
  | Sine =>
      do _ <- no_items its;
      do _ <- check_keywords
                (common_keywords ++ ["duration"; "frequency"; "amplitude"; "phase"; "offset"]) kw;
      do start_time <- required kw "start_time";
      do duration <- required kw "duration";
      do frequency <- required kw "frequency";
      do amplitude <- required kw "amplitude";
      do start_time <- as_num start_time;
      do duration <- as_num duration;
      do frequency <- as_num frequency;
      do amplitude <- as_num amplitude;
      do phase <- as_num (optional kw "phase" (VInt 0));
      do offset <- as_num (optional kw "offset" (VInt 0));
      do description <- as_str (optional kw "description" (VStr "sine wave"));
      do units <- as_opt_str (optional kw "units" VNone);
      do _ <- check_parent kw;
      Ok (Sine__init__ start_time duration frequency amplitude phase offset description units)
  | Chirp =>
      do _ <- no_items its;
      do _ <- check_keywords
                (common_keywords ++
                 ["duration"; "start_frequency"; "end_frequency"; "amplitude"; "phase"; "offset"])
                kw;
      do start_time <- required kw "start_time";
      do duration <- required kw "duration";
      do start_frequency <- required kw "start_frequency";
      do end_frequency <- required kw "end_frequency";
      do amplitude <- required kw "amplitude";
      do start_time <- as_num start_time;
      do duration <- as_num duration;
      do start_frequency <- as_num start_frequency;
      do end_frequency <- as_num end_frequency;
      do amplitude <- as_num amplitude;
      do phase <- as_num (optional kw "phase" (VInt 0));
      do offset <- as_num (optional kw "offset" (VInt 0));
      do description <- as_str (optional kw "description" (VStr "frequency chirp"));
      do units <- as_opt_str (optional kw "units" VNone);
      do _ <- check_parent kw;
      Ok (Chirp__init__ start_time duration start_frequency end_frequency amplitude
            phase offset description units)
  | Psp =>
      do _ <- no_items its;
      do _ <- check_keywords
                (common_keywords ++ ["rise_time"; "decay_tau"; "amplitude"; "rise_power"]) kw;
      do start_time <- required kw "start_time";
      do rise_time <- required kw "rise_time";
      do decay_tau <- required kw "decay_tau";
      do amplitude <- required kw "amplitude";
      do start_time <- as_num start_time;
      do rise_time <- as_num rise_time;
      do decay_tau <- as_num decay_tau;
      do amplitude <- as_num amplitude;
      do rise_power <- as_num (optional kw "rise_power" (VInt 2));
      do description <- as_str (optional kw "description" (VStr "frequency chirp"));
      do units <- as_opt_str (optional kw "units" VNone);
      do _ <- check_parent kw;
      Ok (Psp__init__ start_time rise_time decay_tau amplitude rise_power description units)
  end.

(** [Stimulus.load] *)
Fixpoint load (st : state) {struct st} : res stim :=
  let 'State item_type args sts := st in
  do item_class <- get_stimulus_class item_type;
  do child_items <- (fix load_items (l : list state) : res (list stim) :=
                       match l with
                       | [] => Ok []
                       | x :: l' => do y <- load x; do ys <- load_items l'; Ok (y :: ys)
                       end) sts;
  if Nat.ltb 0 (length child_items)
  then construct item_class (Some child_items) args
  else construct item_class None args.

Definition load_stimulus (st : state) : res stim := load st.

(** [load(save(x))] *)
Definition reload (x : stim) : res stim := do st <- save x; load st.

(** Whether [save] of the class drops the children. *)
Definition derived_children (c : cls) : bool :=
  match c with
  | SquarePulseTrain | SquarePulseSeries => true
  | _ => false
  end.

(** The classes whose constructor takes no [items]. *)
Definition takes_items (c : cls) : bool :=
  match c with
  | Stimulus | LazyLoadStimulus => true
  | _ => false
  end.

(** Whether the tree holds a [Ramp]. *)
Fixpoint has_ramp (s : stim) : bool :=
  let 'Node a its := s in
  match extra a with
  | F_Ramp _ _ => true
  | _ => existsb has_ramp its
  end.



(** The declared parameters of [y] equal those of [x]: the two nodes are
    of the same class and have every attribute that [_attributes] names,
    with equal values (arrays with the same numbers in the same order). *)
Definition same_parameters (y x : stim) : Prop :=
  type y = type x /\
  Forall (fun name => exists v w,
            getattr (attrs_of y) name = Ok v /\ getattr (attrs_of x) name = Ok w /\
            value_eqb v w = true)
    (_attributes (type x)).




(** ** Sampled signals *)

(** Modelled from the spec: [TSeries], the sampled-signal container that
    [stimuli.py] imports from [neuroanalysis.data].  The specification
    gives its contract: it is built from an explicit
    time array or from a start time, a sample count and a step or rate;
    it converts a time to a sample index by rounding to nearest, floor or
    ceiling; a time range selects a mutable view of the samples whose
    index lies between the converted bounds; it exposes [data],
    [time_values], [dt] and [units].

    The constructor keeps what it is given.  A series built without a
    start time starts at 0, the default start time of the specification.
    The specification gives no meaning to a conversion on a series that
    has neither a time array nor a step or a rate; the model answers
    [TypeError] there.  Ties of round-to-nearest go to the even index, as
    [np.round] does. *)
Record TSeries := mkTSeries {
  data : list Q;
  t0 : option Q;
  dt : option Q;
  sample_rate : option Q;
  time_values : option (list Q);
  ts_units : option string
}.

Inductive index_mode := Round | Floor | Ceil.

Inductive timing :=
| Regular (t0 dt : Q)
| Explicit (tv : list Q).

(** Modelled from the spec: the timing a [TSeries] was built with, an
    explicit time array or a start time with a step or a rate; a start
    time that was not given is 0. *)
Definition timing_of (tr : TSeries) : res timing :=
  match time_values tr with
  | Some tv => Ok (Explicit tv)
  | None =>
      let t := default 0%Q (t0 tr) in
      match dt tr, sample_rate tr with
      | Some d, _ => Ok (Regular t d)
      | None, Some r => Ok (Regular t (1 / r))
      | None, None => Raise TypeError
      end
  end.

Definition set_data (tr : TSeries) (d : list Q) : TSeries :=
  mkTSeries d (t0 tr) (dt tr) (sample_rate tr) (time_values tr) (ts_units tr).


(** Modelled from the spec: the three policies of the conversion of a
    time to a sample index. *)
Definition round_half_even (x : Q) : Z :=
  let f := Qfloor x in
  match ((x - inject_Z f) ?= (1 # 2))%Q with
  | Lt => f
  | Gt => (f + 1)%Z
  | Eq => if Z.even f then f else (f + 1)%Z
  end.

Definition to_index (mode : index_mode) (x : Q) : Z :=
  match mode with
  | Round => round_half_even x
  | Floor => Qfloor x
  | Ceil => Qceiling x
  end.

(** Python slice bounds: a negative bound counts from the end, and both
    are cut to the length. *)
Definition py_bound (n : nat) (i : Z) : nat :=
  if (i <? 0)%Z then Z.to_nat (Z.max 0 (Z.of_nat n + i))
  else Z.to_nat (Z.min i (Z.of_nat n)).

(** [region.data[:] += f(k)] for the samples [lo <= k < hi] of the
    underlying buffer; [f] receives the index within the region.  The sums
    are exact here; the program rounds each of them to float64 (Module
    [Float64]). *)
Definition add_region (lo hi : nat) (f : nat -> Q) (d : list Q) : list Q :=
  imap (fun k x => if Nat.leb lo k && Nat.ltb k hi then x + f (k - lo)%nat else x) d.

(** [region.data[:] = True] on a float buffer. *)
Definition mark_region (lo hi : nat) (d : list Q) : list Q :=
  imap (fun k x => if Nat.leb lo k && Nat.ltb k hi then 1 else x) d.

Section Evaluation.

(** The numeric library and the collaborators of the waveform formulas:
    [np.sin], [np.log], [**], [np.pi], the PSP shape [psp.Psp.psp_func]
    (arguments: x, xoffset, yoffset, rise_time, decay_tau, amp, rise_power)
    and the index search of a [TSeries] with explicit time points. *)
Variable np_sin : Q -> Q.
Variable np_log : Q -> Q.
Variable np_power : Q -> Q -> Q.
Variable np_pi : Q.
Variable psp_func : Q -> Q -> Q -> Q -> Q -> Q -> Q -> Q.
Variable search_index : list Q -> Q -> index_mode -> Z.

(** Modelled from the spec: [TSeries.index_at(t, index_mode)]; no
    [index_mode] means rounding. *)
Definition index_at (tr : TSeries) (t : Q) (mode : option index_mode) : res Z :=
  do tm <- timing_of tr;
  match tm with
  | Regular t0 dt => Ok (to_index (default Round mode) ((t - t0) / dt))
  | Explicit tv => Ok (search_index tv t (default Round mode))
  end.

(** The time of sample [i] and the step of a series whose timing is known. *)
Definition sample_time (tm : timing) (i : nat) : Q :=
  match tm with
  | Regular t0 dt => t0 + inject_Z (Z.of_nat i) * dt
  | Explicit tv => nth i tv 0
  end.

Definition timing_step (tm : timing) : Q :=
  match tm with
  | Regular _ dt => dt
  | Explicit tv => nth 1 tv 0 - nth 0 tv 0
  end.

(** Modelled from the spec: [TSeries.time_at(i)]. *)
Definition time_at (tr : TSeries) (i : nat) : res Q :=
  do tm <- timing_of tr; Ok (sample_time tm i).

(** Modelled from the spec: [TSeries.dt]. *)
Definition ts_dt (tr : TSeries) : res Q :=
  do tm <- timing_of tr; Ok (timing_step tm).

(** Modelled from the spec: [TSeries.time_slice(start, stop, index_mode)],
    as the bounds of the view, cut to the buffer. *)
Definition time_slice (tr : TSeries) (start stop : Q) (mode : option index_mode)
    : res (nat * nat) :=
  do i1 <- index_at tr start mode;
  do i2 <- index_at tr stop mode;
  let n := Z.of_nat (length (data tr)) in
  Ok (Z.to_nat (Z.max 0 (Z.min i1 n)), Z.to_nat (Z.max 0 (Z.min i2 n))).

(** *** The waveform formulas of [Sine] and [Chirp] *)

Definition Sine_phase_at (phase frequency t : Q) : Q :=
  phase + t * (2 * np_pi * frequency).

Definition Chirp_kr (duration f0 f1 : Q) : Q * Q :=
  let r := if Qeq_bool f0 0 then 0 else f1 / f0 in
  let k := 2 * np_pi * duration * f0 / np_log r in
  (k, r).

Definition Chirp_phase_at (duration f0 f1 phase t : Q) : Q :=
  let '(k, r) := Chirp_kr duration f0 f1 in
  let w := k * np_power r (t / duration) in
  phase - k + w.

(** *** Keyword arguments of [eval] and [mask] *)

Record kwds := Kwds {
  kw_time_values : option (list Q);
  kw_n_pts : option nat;
  kw_dt : option Q;
  kw_sample_rate : option Q;
  kw_t0 : option Q;
  kw_trace : option TSeries;
  kw_index_mode : option index_mode
}.

(** The call [item.eval(trace=trace, index_mode=index_mode)]. *)
Definition child_kwds (trace : TSeries) (mode : index_mode) : kwds :=
  Kwds None None None None None (Some trace) (Some mode).

(** The keyword arguments of a call that passes a trace and, may be, an
    index mode. *)
Definition trace_kwds (trace : TSeries) (mode : option index_mode) : kwds :=
  Kwds None None None None None (Some trace) mode.

Definition zeros (n : nat) : list Q := repeat 0 n.

Definition _make_eval_trace (self : attrs) (trace : option TSeries) (t0 : option Q)
    (n_pts : option nat) (dt sample_rate : option Q) (time_values : option (list Q))
    : res TSeries :=
  match trace with
  | Some tr => Ok tr
  | None =>
      do d <- match time_values with
              | Some tv => Ok (zeros (length tv))
              | None =>
                  match n_pts with
                  | Some n => Ok (zeros n)
                  | None => Raise AssertionError
                  end
              end;
      Ok (mkTSeries d t0 dt sample_rate time_values (units self))
  end.

(** *** What each class adds after [Stimulus.eval] has run *)

Definition eval_own (anc : list attrs) (self : attrs) (trace : TSeries)
    (mode : option index_mode) : res TSeries :=
  let start := global_start_time anc (Node self []) in
  let n := length (data trace) in
  match extra self with
  | F_Stimulus | F_LazyLoadStimulus _ _ | F_SquarePulseTrain _ _ _ _
  | F_SquarePulseSeries _ _ _ => Ok trace
  | F_Offset amplitude =>
      do start_ind <- index_at trace start mode;
      Ok (set_data trace (add_region (py_bound n start_ind) n (fun _ => amplitude) (data trace)))
  | F_SquarePulse amplitude _ =>
      do '(lo, hi) <- time_slice trace start (start + duration_of self) mode;
      Ok (set_data trace (add_region lo hi (fun _ => amplitude) (data trace)))
  | F_Ramp slope offset =>
      do '(lo, hi) <- time_slice trace start (start + duration_of self) mode;
      Ok (set_data trace
            (add_region lo hi (fun k => inject_Z (Z.of_nat k) * slope + offset) (data trace)))
  | F_Sine frequency amplitude phase offset =>
      do '(lo, hi) <- time_slice trace start (start + duration_of self) mode;
      do tm <- timing_of trace;
      let d1 := add_region lo hi (fun _ => offset) (data trace) in
      let t k := sample_time tm (lo + k) - start in
      Ok (set_data trace
            (add_region lo hi (fun k => amplitude * np_sin (Sine_phase_at phase frequency (t k))) d1))
  | F_Chirp f0 f1 amplitude phase offset =>
      do '(lo, hi) <- time_slice trace start (start + duration_of self) mode;
      do tm <- timing_of trace;
      let d1 := add_region lo hi (fun _ => offset) (data trace) in
      let t k := sample_time tm (lo + k) - start in
      Ok (set_data trace
            (add_region lo hi
               (fun k => amplitude * np_sin (Chirp_phase_at (duration_of self) f0 f1 phase (t k)))
               d1))
  | F_Psp rise_time decay_tau amplitude rise_power =>
      do '(lo, hi) <- time_slice trace start (start + duration_of self) mode;
      do tm <- timing_of trace;
      Ok (set_data trace
            (add_region lo hi
               (fun k => psp_func (sample_time tm (lo + k)) start 0 rise_time decay_tau
                           amplitude rise_power)
               (data trace)))
  end.

(** [eval]: [Stimulus.eval] (default start time, trace, children in
    order), then the part of the node's own class. *)
Fixpoint eval (anc : list attrs) (s : stim) (kw : kwds) {struct s} : res TSeries :=
  let 'Node self its := s in
  let index_mode := default Round (kw_index_mode kw) in
  let t0 := match kw_time_values kw, kw_t0 kw with
            | None, None => Some 0
            | _, t => t
            end in
  do trace <- _make_eval_trace self (kw_trace kw) t0 (kw_n_pts kw) (kw_dt kw)
                (kw_sample_rate kw) (kw_time_values kw);
  do trace <- (fix children (l : list stim) (trace : TSeries) : res TSeries :=
                 match l with
                 | [] => Ok trace
                 | item :: l' =>
                     do trace' <- eval (self :: anc) item (child_kwds trace index_mode);
                     children l' trace'
                 end) its trace;
  eval_own anc self trace (kw_index_mode kw).

(** *** Masks *)

Definition mask_own (anc : list attrs) (self : attrs) (trace : TSeries)
    (mode : option index_mode) : res TSeries :=
  let start := global_start_time anc (Node self []) in
  let n := length (data trace) in
  match extra self with
  | F_Stimulus | F_LazyLoadStimulus _ _ | F_SquarePulseTrain _ _ _ _
  | F_SquarePulseSeries _ _ _ => Ok trace
  | F_Offset _ =>
      do start_ind <- index_at trace start mode;
      Ok (set_data trace (mark_region (py_bound n start_ind) n (data trace)))
  | F_SquarePulse _ _ | F_Ramp _ _ | F_Sine _ _ _ _ | F_Chirp _ _ _ _ _
  | F_Psp _ _ _ _ =>
      do '(lo, hi) <- time_slice trace start (start + duration_of self) mode;
      Ok (set_data trace (mark_region lo hi (data trace)))
  end.

Fixpoint mask (anc : list attrs) (s : stim) (kw : kwds) {struct s} : res TSeries :=
  let 'Node self its := s in
  let index_mode := default Round (kw_index_mode kw) in
  do trace <- _make_eval_trace self (kw_trace kw) (kw_t0 kw) (kw_n_pts kw) (kw_dt kw)
                (kw_sample_rate kw) (kw_time_values kw);
  do trace <- (fix children (l : list stim) (trace : TSeries) : res TSeries :=
                 match l with
                 | [] => Ok trace
                 | item :: l' =>
                     do trace' <- mask (self :: anc) item (child_kwds trace index_mode);
                     children l' trace'
                 end) its trace;
  mask_own anc self trace (kw_index_mode kw).

(** The children loops, on their own. *)
Fixpoint eval_children (anc : list attrs) (l : list stim) (mode : index_mode)
    (trace : TSeries) : res TSeries :=
  match l with
  | [] => Ok trace
  | item :: l' =>
      do trace' <- eval anc item (child_kwds trace mode);
      eval_children anc l' mode trace'
  end.

Fixpoint mask_children (anc : list attrs) (l : list stim) (mode : index_mode)
    (trace : TSeries) : res TSeries :=
  match l with
  | [] => Ok trace
  | item :: l' =>
      do trace' <- mask anc item (child_kwds trace mode);
      mask_children anc l' mode trace'
  end.

End Evaluation.

(** ** The buffer in float64 *)

(** The buffer of the program holds float64 numbers ([np.zeros]) and
    [+=] adds in float64, every sum rounded to the nearest float, whereas
    [add_region] adds exact rationals.  Here is the float64 buffer for
    the square pulses of a plain stimulus without parent, the times being
    exact as above. *)
Module Float64.
Import PrimFloat.

(** A [SquarePulse] by its start time, its duration and its float64
    amplitude. *)
Record pulse := Pulse {
  p_start_time : Q;
  p_duration : Q;
  p_amplitude : float
}.

(** [chunk.data[:] += self.amplitude] on a float64 buffer. *)
Definition add_amplitude (lo hi : nat) (amplitude : float) (d : list float) : list float :=
  imap (fun k x => if Nat.leb lo k && Nat.ltb k hi then (x + amplitude)%float else x) d.

(** [SquarePulse.eval(trace=trace, index_mode=index_mode)] under a parent
    without parent that starts at [start_time]; [frame] has the timing and
    the length of the trace (a regularly sampled one: the index search of
    an explicit time array is not called). *)
Definition eval_pulse (frame : TSeries) (start_time : Q) (mode : index_mode)
    (p : pulse) (d : list float) : res (list float) :=
  let start := (0 + p_start_time p + start_time)%Q in
  do '(lo, hi) <- time_slice (fun _ _ _ => 0%Z) frame
                    start (start + p_duration p)%Q (Some mode);
  Ok (add_amplitude lo hi (p_amplitude p) d).

(** [Stimulus(start_time=start_time, items=pulses).eval(n_pts=n_pts, dt=dt)]:
    the trace is made of [n_pts] float64 zeros and starts at 0; the pulses
    add their amplitudes one after the other, in the order of [items]. *)
Definition eval_pulses (start_time : Q) (pulses : list pulse) (n_pts : nat) (dt : Q)
    : res (list float) :=
  let frame := mkTSeries (zeros n_pts) (Some 0%Q) (Some dt) None None None in
  fold_left (fun r p => do d <- r; eval_pulse frame start_time Round p d)
    pulses (Ok (repeat 0%float n_pts)).

End Float64.

(** ** Pulse detection *)

(** [np.diff] *)
Fixpoint np_diff (d : list Q) : list Q :=
  match d with
  | x :: (y :: _) as d' => (y - x) :: np_diff d'
  | _ => []
  end.

(** [np.argwhere(cond)[:, 0]] for a one-dimensional array, counting from
    index [i]. *)
Fixpoint argwhere (cond : Q -> bool) (i : nat) (l : list Q) : list nat :=
  match l with
  | [] => []
  | x :: l' => if cond x then i :: argwhere cond (S i) l' else argwhere cond (S i) l'
  end.

(** [enumerate] *)
Definition enumerate {A} (l : list A) : list (nat * A) := combine (seq 0 (length l)) l.

(** [changes = np.argwhere(sdiff != 0)[:, 0] + 1] *)
Definition boundaries (d : list Q) : list nat :=
  map S (argwhere (fun x => negb (Qeq_bool x 0)) 0 (np_diff d)).

(** The body of the loop of [find_square_pulses] for one boundary: the
    pulses it appends. *)
Definition square_pulse_at (trace : TSeries) (baseline : Q) (changes : list nat)
    (i start : nat) : res (list stim) :=
  let amp := nth start (data trace) 0 - baseline in
  if negb (Qeq_bool amp 0) then
    let stop := if Nat.ltb (i + 1) (length changes) then nth (i + 1) changes 0%nat
                else length (data trace) in
    do t_start <- time_at trace start;
    do dt <- ts_dt trace;
    let duration := inject_Z (Z.of_nat stop - Z.of_nat start) * dt in
    Ok [set_pulse_number i
          (SquarePulse__init__ t_start duration amp "square pulse" (ts_units trace))]
  else Ok [].

Fixpoint square_pulse_loop (trace : TSeries) (baseline : Q) (changes : list nat)
    (todo : list (nat * nat)) : res (list stim) :=
  match todo with
  | [] => Ok []
  | (i, start) :: todo' =>
      do found <- square_pulse_at trace baseline changes i start;
      do pulses <- square_pulse_loop trace baseline changes todo';
      Ok (found ++ pulses)
  end.

(** [find_square_pulses]; the argument is a [TSeries] by its type, so the
    [isinstance] test passes. *)
Definition find_square_pulses (trace : TSeries) (baseline : option Q) : res (list stim) :=
  do baseline <- match baseline with
                 | Some b => Ok b
                 | None =>
                     match data trace with
                     | x :: _ => Ok x
                     | [] => Raise IndexError
                     end
                 end;
  let changes := boundaries (data trace) in
  square_pulse_loop trace baseline changes (enumerate changes).

Definition pulse_number_of (s : stim) : option nat :=
  match extra (attrs_of s) with
  | F_SquarePulse _ n => n
  | _ => None
  end.

Definition amplitude_of (s : stim) : option Q :=
  match extra (attrs_of s) with
  | F_SquarePulse a _ => Some a
  | _ => None
  end.

(** What the loop of [find_square_pulses] appends at boundary number [i],
    for a trace whose timing is [tm]. *)
Definition detected_at (trace : TSeries) (tm : timing) (baseline : Q)
    (changes : list nat) (i start : nat) : list stim :=
  let amp := nth start (data trace) 0 - baseline in
  if negb (Qeq_bool amp 0) then
    let stop := if Nat.ltb (i + 1) (length changes) then nth (i + 1) changes 0%nat
                else length (data trace) in
    [set_pulse_number i
       (SquarePulse__init__ (sample_time tm start)
          (inject_Z (Z.of_nat stop - Z.of_nat start) * timing_step tm) amp
          "square pulse" (ts_units trace))]
  else [].

(** The returned pulses carry the numbers 0, 1, 2, ... in order. *)
Definition numbered_consecutively (pulses : list stim) : Prop :=
  map pulse_number_of pulses = map Some (seq 0 (length pulses)).

(** A detected pulse matches an evaluated one: same start time, duration
    and amplitude. *)
Definition pulse_matches (p found : stim) : Prop :=
  type found = SquarePulse /\
  (start_time found == start_time p)%Q /\
  (duration found == duration p)%Q /\
  exists a b, amplitude_of p = Some a /\ amplitude_of found = Some b /\ (b == a)%Q.

(** Detection recovers the evaluated pulses one for one. *)
Definition recovers (pulses found : list stim) : Prop := Forall2 pulse_matches pulses found.

(** A square pulse that sits on the grid of a regularly sampled trace: it
    starts at sample [first], lasts [count] samples and has the given
    amplitude. *)
Definition on_grid (origin step : Q) (spec : nat * nat * Q) (p : stim) : Prop :=
  let '(first, count, amplitude) := spec in
  exists st dur desc u,
    p = SquarePulse__init__ st dur amplitude desc u /\
    (st == origin + inject_Z (Z.of_nat first) * step)%Q /\
    (dur == inject_Z (Z.of_nat count) * step)%Q.

(** Pulses in increasing order that lie within [n] samples, each at least
    one sample long and of non-zero amplitude, starting after sample
    [from] and apart from one another by at least one sample. *)
Fixpoint separated (from n : nat) (specs : list (nat * nat * Q)) : Prop :=
  match specs with
  | [] => True
  | (first, count, amplitude) :: specs' =>
      (from < first)%nat /\ (1 <= count)%nat /\ (first + count <= n)%nat /\
      ~ (amplitude == 0)%Q /\ separated (first + count) n specs'
  end.

(** The buffer that evaluating separated pulses leaves, from sample
    [from] on. *)
Fixpoint layout (from n : nat) (specs : list (nat * nat * Q)) : list Q :=
  match specs with
  | [] => zeros (n - from)
  | (first, count, amplitude) :: specs' =>
      zeros (first - from) ++ repeat (0 + amplitude) count ++ layout (first + count) n specs'
  end.

(** The condition on the first pulse that is left, seen from sample [c]. *)
Definition ahead (c n : nat) (specs : list (nat * nat * Q)) : Prop :=
  match specs with
  | [] => True
  | (first, count, a) :: rest =>
      (c <= first)%nat /\ (1 <= count)%nat /\ (first + count <= n)%nat /\
      ~ (a == 0)%Q /\ separated (first + count) n rest
  end.

(** The boundaries that separated pulses leave: the first sample of each
    pulse and, unless the pulse runs to the end of the trace, the first
    sample after it. *)
Fixpoint edges (n : nat) (specs : list (nat * nat * Q)) : list nat :=
  match specs with
  | [] => []
  | (first, count, _) :: specs' =>
      first :: (if Nat.ltb (first + count) n then [(first + count)%nat] else [])
        ++ edges n specs'
  end.

(** The boundaries of a buffer, found sample by sample: [prev] is the
    sample before index [i]. *)
Fixpoint changes_from (prev : Q) (i : nat) (l : list Q) : list nat :=
  match l with
  | [] => []
  | x :: l' =>
      if negb (Qeq_bool (x - prev) 0) then i :: changes_from x (S i) l'
      else changes_from x (S i) l'
  end.

(** Evaluating the pulses as the children of a plain stimulus and running
    exact detection on the result (no baseline given) recovers them. *)
Definition detection_inverts (np_sin np_log : Q -> Q) (np_power : Q -> Q -> Q) (np_pi : Q)
    (psp_func : Q -> Q -> Q -> Q -> Q -> Q -> Q -> Q)
    (search_index : list Q -> Q -> index_mode -> Z)
    (units : option string) (pulses : list stim) (kw : kwds) : Prop :=
  exists trace found,
    eval np_sin np_log np_power np_pi psp_func search_index []
      (Stimulus__init__ "stimulus" 0 units pulses) kw = Ok trace /\
    find_square_pulses trace None = Ok found /\
    recovers pulses found.

(** ** Detection in noise *)

Definition Qlt_bool (a b : Q) : bool := negb (Qle_bool b a).

(** [array.mean()] *)
Definition np_mean (l : list Q) : Q :=
  fold_left Qplus l 0 / inject_Z (Z.of_nat (length l)).

(** [a[i]] for an integer that may be negative. *)
Definition py_index (l : list Q) (i : Z) : Q :=
  if (i <? 0)%Z then nth (Z.to_nat (Z.of_nat (length l) + i)) l 0
  else nth (Z.to_nat i) l 0.

(** [a[start:stop]] for non-negative bounds. *)
Definition py_slice (l : list Q) (start stop : nat) : list Q :=
  firstn (stop - start) (skipn start l).

Section Noisy.

(** [array.std()], the standard deviation of numpy, which needs a square
    root. *)
Variable np_std : list Q -> Q.

(** The first loop: a difference counts if it is above the threshold and
    the one before it is below. *)
Fixpoint real_changes (sdiff : list Q) (threshold : Q) (changes : list nat) : list nat :=
  match changes with
  | [] => []
  | c :: changes' =>
      if Qlt_bool (Qabs (py_index sdiff (Z.of_nat c - 1))) threshold
         && Qlt_bool threshold (Qabs (nth c sdiff 0))
      then (c + 1)%nat :: real_changes sdiff threshold changes'
      else real_changes sdiff threshold changes'
  end.

(** One round of the second loop; the state is [pulses] and [stop]. *)
Definition noisy_step (trace : TSeries) (baseline_mean min_duration min_amplitude : Q)
    (changes : list nat) (state : list stim * nat) (i start : nat)
    : res (list stim * nat) :=
  let '(pulses, stop) := state in
  if Nat.ltb 0 (length pulses) && Nat.leb start stop then Ok (pulses, stop)
  else
    let stop := if Nat.ltb (i + 1) (length changes) then nth (i + 1) changes 0%nat
                else length (data trace) in
    do t_start <- time_at trace start;
    do dt <- ts_dt trace;
    let duration := inject_Z (Z.of_nat stop - Z.of_nat start) * dt in
    let amplitude := np_mean (py_slice (data trace) start stop) - baseline_mean in
    if Qlt_bool min_duration duration && Qlt_bool min_amplitude (Qabs amplitude)
    then Ok (pulses ++ [SquarePulse__init__ t_start duration amplitude "square pulse"
                          (ts_units trace)], stop)
    else Ok (pulses, stop).

Fixpoint noisy_loop (trace : TSeries) (baseline_mean min_duration min_amplitude : Q)
    (changes : list nat) (state : list stim * nat) (todo : list (nat * nat))
    : res (list stim * nat) :=
  match todo with
  | [] => Ok state
  | (i, start) :: todo' =>
      do state' <- noisy_step trace baseline_mean min_duration min_amplitude changes
                     state i start;
      noisy_loop trace baseline_mean min_duration min_amplitude changes state' todo'
  end.

Definition find_noisy_square_pulses (trace : TSeries) (baseline : option (list Q))
    (std_threshold min_duration min_amplitude : Q) : res (list stim) :=
  let baseline := match baseline with
                  | Some b => b
                  | None => firstn 200 (data trace)
                  end in
  let threshold := np_std baseline * std_threshold in
  let sdiff := np_diff (map (fun x => x - np_mean baseline) (data trace)) in
  let changes := argwhere (fun x => Qlt_bool threshold (Qabs x)) 0 sdiff in
  let changes := real_changes sdiff threshold changes in
  do '(pulses, _) <- noisy_loop trace (np_mean baseline) min_duration min_amplitude
                       changes ([], 0%nat) (enumerate changes);
  Ok pulses.

End Noisy.

(** What [find_noisy_square_pulses] keeps is strictly longer than
    [min_duration] and strictly larger than [min_amplitude]. *)
Definition kept (min_duration min_amplitude : Q) (p : stim) : Prop :=
  (min_duration < duration p)%Q /\
  exists a, amplitude_of p = Some a /\ (min_amplitude < Qabs a)%Q.

(** ** The chirp formulas over the reals *)

(** [Chirp._kr] and [Chirp.frequency_at] need [log] and [**], and their
    degenerate cases are decided by what floating point does at a division
    by zero or a logarithm of zero.  Here a float is a real number, an
    infinity or NaN; finite arithmetic is exact, zeros carry no sign, and
    the special values follow IEEE 754 as numpy applies it.  [t / d] is
    taken with numpy's rules as well (for two plain Python floats a zero
    [d] raises instead). *)
Module RChirp.

Local Open Scope R_scope.

Inductive fl :=
| Fin (x : R)
| PInf
| NInf
| NaN.

(** The infinity of the sign of [x], NaN for zero. *)
Definition signed_inf (x : R) : fl :=
  if Rlt_dec 0 x then PInf else if Rlt_dec x 0 then NInf else NaN.

Definition fl_neg (a : fl) : fl :=
  match a with
  | Fin x => Fin (- x)
  | PInf => NInf
  | NInf => PInf
  | NaN => NaN
  end.

Definition fl_mul (a b : fl) : fl :=
  match a, b with
  | NaN, _ | _, NaN => NaN
  | Fin x, Fin y => Fin (x * y)
  | Fin x, PInf | PInf, Fin x => signed_inf x
  | Fin x, NInf | NInf, Fin x => fl_neg (signed_inf x)
  | PInf, PInf | NInf, NInf => PInf
  | PInf, NInf | NInf, PInf => NInf
  end.

Definition fl_div (a b : fl) : fl :=
  match a, b with
  | NaN, _ | _, NaN => NaN
  | Fin x, Fin y => if Req_dec_T y 0 then signed_inf x else Fin (x / y)
  | Fin _, PInf | Fin _, NInf => Fin 0
  | PInf, Fin y => if Rlt_dec y 0 then NInf else PInf
  | NInf, Fin y => if Rlt_dec y 0 then PInf else NInf
  | _, _ => NaN
  end.

(** [np.log] of a finite number. *)
Definition fl_log (x : R) : fl :=
  if Rlt_dec 0 x then Fin (ln x) else if Rlt_dec x 0 then NaN else NInf.

(** [r ** e] for a finite base.  A negative base has a real power for
    whole exponents only; it never meets a finite [k] in the formulas
    below (its logarithm is NaN), and its power is left NaN here. *)
Definition fl_pow (r : R) (e : fl) : fl :=
  match e with
  | Fin y =>
      if Rlt_dec 0 r then Fin (Rpower r y)
      else if Rlt_dec r 0 then NaN
      else if Rlt_dec 0 y then Fin 0
      else if Rlt_dec y 0 then PInf
      else Fin 1
  | PInf =>
      if Rlt_dec 1 (Rabs r) then PInf
      else if Rlt_dec (Rabs r) 1 then Fin 0 else Fin 1
  | NInf =>
      if Rlt_dec 1 (Rabs r) then Fin 0
      else if Rlt_dec (Rabs r) 1 then PInf else Fin 1
  | NaN => if Req_dec_T r 1 then Fin 1 else NaN
  end.

Definition _kr (duration start_frequency end_frequency : R) : fl * R :=
  let f0 := start_frequency in
  let f1 := end_frequency in
  let r := if Req_dec_T f0 0 then 0 else f1 / f0 in
  let k := fl_div (Fin (2 * PI * duration * f0)) (fl_log r) in
  (k, r).

Definition frequency_at (duration start_frequency end_frequency t : R) : fl :=
  let '(k, r) := _kr duration start_frequency end_frequency in
  let d := duration in
  fl_div (fl_mul (fl_mul k (fl_log r)) (fl_pow r (fl_div (Fin t) (Fin d))))
         (Fin (2 * PI * d)).

(** [Chirp.phase_at]: [self.phase - k + w] with [w = k * r ** (t / d)];
    sums and differences of floats follow IEEE 754 as the products do. *)
Definition fl_add (a b : fl) : fl :=
  match a, b with
  | NaN, _ | _, NaN => NaN
  | Fin x, Fin y => Fin (x + y)
  | PInf, NInf | NInf, PInf => NaN
  | PInf, _ | _, PInf => PInf
  | NInf, _ | _, NInf => NInf
  end.

Definition fl_sub (a b : fl) : fl := fl_add a (fl_neg b).

Definition phase_at (duration start_frequency end_frequency phase t : R) : fl :=
  let '(k, r) := _kr duration start_frequency end_frequency in
  let w := fl_mul k (fl_pow r (fl_div (Fin t) (Fin duration))) in
  fl_add (fl_sub (Fin phase) k) w.

End RChirp.

(** ** The object store: parents and children *)

(** Objects with identity.  A stimulus object holds its attributes, the
    reference [_parent] (a weak reference in the source; objects are never
    collected here, so it always resolves) and the list [_items] of the
    references of its children. *)
Module Store.

Definition ref := nat.

Record obj := Obj {
  o_attrs : attrs;
  _parent : option ref;
  _items : list ref
}.

Abbreviation store := (gmap ref obj).

(** The outcome of a call that may change the store: it returns, it
    raises (the store keeps what was done before), or the model runs out
    of fuel. *)
Inductive outcome :=
| Done (s : store)
| Raised (e : exn) (s : store)
| OutOfFuel.

(** [self.parent] *)
Definition parent (s : store) (self : ref) : option ref :=
  match s !! self with
  | Some o => _parent o
  | None => None
  end.

(** [self.items] (of the base class) *)
Definition items (s : store) (self : ref) : list ref :=
  match s !! self with
  | Some o => _items o
  | None => []
  end.

Definition set__parent (s : store) (self : ref) (p : option ref) : store :=
  alter (fun o => Obj (o_attrs o) p (_items o)) self s.

Definition set__items (s : store) (self : ref) (l : list ref) : store :=
  alter (fun o => Obj (o_attrs o) (_parent o) l) self s.

(** [Stimulus.__eq__] on objects: [None] when the fuel runs out (the
    recursion of the source has no bound on a cyclic structure). *)
Fixpoint eq (fuel : nat) (s : store) (self other : ref) {struct fuel} : option (res bool) :=
  match fuel with
  | O => None
  | S fuel =>
      match s !! self, s !! other with
      | Some a, Some b =>
          let c := fields_cls (extra (o_attrs a)) in
          if negb (cls_eqb c (fields_cls (extra (o_attrs b)))) then Some (Ok false)
          else if negb (Nat.eqb (length (_items a)) (length (_items b))) then Some (Ok false)
          else
            match attrs_loop (o_attrs a) (o_attrs b) (_attributes c) with
            | Raise e => Some (Raise e)
            | Ok false => Some (Ok false)
            | Ok true =>
                (fix items_loop (xs ys : list ref) : option (res bool) :=
                   match xs, ys with
                   | x :: xs', y :: ys' =>
                       match eq fuel s x y with
                       | Some (Ok true) => items_loop xs' ys'
                       | r => r
                       end
                   | _, _ => Some (Ok true)
                   end) (_items a) (_items b)
            end
      | _, _ => Some (Raise AttributeError)
      end
  end.

(** [item in l]: identity first, then [==], element by element. *)
Fixpoint contains (fuel : nat) (s : store) (item : ref) (l : list ref)
    : option (res bool) :=
  match l with
  | [] => Some (Ok false)
  | e :: l' =>
      if Nat.eqb e item then Some (Ok true)
      else
        match eq fuel s e item with
        | Some (Ok false) => contains fuel s item l'
        | r => r
        end
  end.

(** [l.remove(item)]: the first element that is [item] or equals it goes;
    [ValueError] if there is none. *)
Fixpoint list_remove (fuel : nat) (s : store) (item : ref) (l : list ref)
    : option (res (list ref)) :=
  match l with
  | [] => Some (Raise ValueError)
  | e :: l' =>
      if Nat.eqb e item then Some (Ok l')
      else
        match eq fuel s e item with
        | Some (Ok true) => Some (Ok l')
        | Some (Ok false) =>
            match list_remove fuel s item l' with
            | Some (Ok l'') => Some (Ok (e :: l''))
            | r => r
            end
        | Some (Raise e') => Some (Raise e')
        | None => None
        end
  end.

(** The [parent] setter, [append_item] and [remove_item], which call one
    another. *)
Fixpoint set_parent (fuel : nat) (self : ref) (new_parent : option ref) (s : store)
    {struct fuel} : outcome :=
  match fuel with
  | O => OutOfFuel
  | S fuel =>
      let old_parent := parent s self in
      if decide (old_parent = new_parent) then Done s
      else
        let s := set__parent s self new_parent in
        let removed :=
          match old_parent with
          | Some op =>
              match remove_item fuel op self s with
              | Raised ValueError s' => Done s'
              | r => r
              end
          | None => Done s
          end in
        match removed with
        | Done s =>
            match new_parent with
            | Some np =>
                match contains fuel s self (items s np) with
                | None => OutOfFuel
                | Some (Raise e) => Raised e s
                | Some (Ok true) => Done s
                | Some (Ok false) => append_item fuel np self s
                end
            | None => Done s
            end
        | r => r
        end
  end
with append_item (fuel : nat) (self item : ref) (s : store) {struct fuel} : outcome :=
  match fuel with
  | O => OutOfFuel
  | S fuel =>
      let s := set__items s self (items s self ++ [item]) in
      set_parent fuel item (Some self) s
  end
with remove_item (fuel : nat) (self item : ref) (s : store) {struct fuel} : outcome :=
  match fuel with
  | O => OutOfFuel
  | S fuel =>
      match list_remove fuel s item (items s self) with
      | None => OutOfFuel
      | Some (Raise e) => Raised e s
      | Some (Ok l) => set_parent fuel item None (set__items s self l)
      end
  end.

(** [list.insert(index, item)]: the index is cut to the list, and counts
    from the end when negative. *)
Definition list_insert (index : Z) (item : ref) (l : list ref) : list ref :=
  let n := Z.of_nat (length l) in
  let i := if (index <? 0)%Z then Z.max 0 (n + index) else Z.min index n in
  firstn (Z.to_nat i) l ++ item :: skipn (Z.to_nat i) l.

Definition insert_item (fuel : nat) (self : ref) (index : Z) (item : ref) (s : store)
    : outcome :=
  let s := set__items s self (list_insert index item (items s self)) in
  set_parent fuel item (Some self) s.

(** A new object: [Stimulus.__init__] with the given attributes, no items
    and [parent=new_parent].  (The subclass constructors set their own
    attributes and call it.) *)
Definition create (fuel : nat) (self : ref) (a : attrs) (new_parent : option ref)
    (s : store) : outcome :=
  set_parent fuel self new_parent (<[self := Obj a None []]> s).

(** Running calls one after the other. *)
Definition andthen (o : outcome) (k : store -> outcome) : outcome :=
  match o with
  | Done s => k s
  | r => r
  end.

(** The relation between parents and children that the specification
    asks for: every child of a node has that node as parent; the parent
    of a node lists it exactly once; a node without parent is in no list
    of items. *)
Definition count (r : ref) (l : list ref) : nat := length (filter (Nat.eqb r) l).

Definition consistent_at (s : store) (r : ref) (o : obj) : bool :=
  forallb (fun c => bool_decide (parent s c = Some r)) (_items o)
  && match _parent o with
     | Some p => Nat.eqb (count r (items s p)) 1
     | None => forallb (fun '(_, o') => Nat.eqb (count r (_items o')) 0) (map_to_list s)
     end.

Definition consistent (s : store) : bool :=
  forallb (fun '(r, o) => consistent_at s r o) (map_to_list s).

(** Four objects without parent or children, for the examples: two plain
    stimuli (0 and 3) and two square pulses with the same attributes (1
    and 2). *)
Definition four_objects_plain : attrs := Attrs "stimulus" 0 None 0 F_Stimulus.
Definition four_objects_pulse : attrs :=
  Attrs "square pulse" 0 None 1 (F_SquarePulse 1 None).
Definition four_objects : store :=
  <[0%nat := Obj four_objects_plain None []]>
    (<[1%nat := Obj four_objects_pulse None []]>
       (<[2%nat := Obj four_objects_pulse None []]>
          (<[3%nat := Obj four_objects_plain None []]> ∅))).

End Store.

(** Another object than [item], and of another class: it is not [item]
    and does not compare equal to it. *)
Definition other_class (s : Store.store) (item e : Store.ref) : Prop :=
  e <> item /\
  exists a b, s !! e = Some a /\ s !! item = Some b /\
    cls_eqb (fields_cls (extra (Store.o_attrs a)))
            (fields_cls (extra (Store.o_attrs b))) = false.

(** A plain stimulus (0) that holds a pulse (1), and a plain stimulus (3)
    without parent. *)
Definition parent_of_one : Store.store :=
  <[0%nat := Store.Obj Store.four_objects_plain None [1%nat]]>
    (<[1%nat := Store.Obj Store.four_objects_pulse (Some 0%nat) []]>
       (<[3%nat := Store.Obj Store.four_objects_plain None []]> ∅)).

(** The same tree with the children of any of its nodes in another order. *)
#[warnings="-register-all"]
Inductive reordered : stim -> stim -> Prop :=
| reordered_node a its its' its'' :
    Forall2 reordered its its' ->
    Permutation its' its'' ->
    reordered (Node a its) (Node a its'').

(** Two calls agree: both raise, or both return the same signal. *)
Definition same_outcome (r r' : res TSeries) : Prop :=
  match r, r' with
  | Ok tr, Ok tr' => tr = tr'
  | Raise _, Raise _ => True
  | _, _ => False
  end.

(** [F] either raises on every buffer of the trace's length, or updates
    every such buffer sample by sample with an update of the family [C],
    fixed by the timing of the trace. *)
Definition uniform (C : (nat -> Q -> Q) -> Prop) (F : TSeries -> res TSeries) : Prop :=
  forall tr,
    (exists e, forall d, length d = length (data tr) -> F (set_data tr d) = Raise e) \/
    (exists u, C u /\
       forall d, length d = length (data tr) ->
                 F (set_data tr d) = Ok (set_data tr (imap u d))).

(** Per-sample updates that add a sequence of terms. *)
Definition additive (u : nat -> Q -> Q) : Prop :=
  exists ds : nat -> list Q, forall k x, u k x = fold_left Qplus (ds k) x.

(** Per-sample updates that set some samples to [True]. *)
Definition marking (u : nat -> Q -> Q) : Prop :=
  exists w : nat -> bool, forall k x, u k x = if w k then 1%Q else x.

(** A node with no children that is a square pulse. *)
Definition pulse_leaf (s : stim) : Prop :=
  exists desc st u d amplitude pulse_number,
    s = Node (Attrs desc st u d (F_SquarePulse amplitude pulse_number)) [].

(** Pulses that start at pairwise different times. *)
Fixpoint distinct_starts (l : list stim) : Prop :=
  match l with
  | [] => True
  | p :: l' => Forall (fun q => ~ (start_time p == start_time q)%Q) l' /\ distinct_starts l'
  end.

(** Classes that add nothing of their own to a trace. *)
Definition container (f : fields) : bool :=
  match f with
  | F_Stimulus | F_LazyLoadStimulus _ _ | F_SquarePulseTrain _ _ _ _
  | F_SquarePulseSeries _ _ _ => true
  | _ => false
  end.

(** An evaluation [F] and a mask [G] fail together on the buffers of a
    trace, or both update every buffer sample by sample, [F] leaving alone
    the samples that [G] does not mark. *)
Definition together (F G : TSeries -> res TSeries) : Prop :=
  forall tr,
    (exists e, forall d, length d = length (data tr) ->
        F (set_data tr d) = Raise e /\ G (set_data tr d) = Raise e) \/
    (exists (u : nat -> Q -> Q) (w : nat -> bool),
        (forall k x, w k = false -> u k x = x) /\
        forall d, length d = length (data tr) ->
          F (set_data tr d) = Ok (set_data tr (imap u d)) /\
          G (set_data tr d) = Ok (set_data tr (imap (fun k x => if w k then 1%Q else x) d))).

(** The buffer agrees with the samples less the baseline up to index [c],
    and is zero from there on. *)
Definition filled_to (d : list Q) (b : Q) (c : nat) (buf : list Q) : Prop :=
  length buf = length d /\
  (forall k, (k < c)%nat -> (nth k buf 0 == nth k d 0 - b)%Q) /\
  (forall k, (c <= k)%nat -> nth k buf 0%Q = 0%Q).

(* ===================================================================== *)
(** * Part II: properties                                                  *)
(* ===================================================================== *)

Lemma py_eq_unfold a si b oi :
  py_eq (Node a si) (Node b oi) =
  if negb (cls_eqb (fields_cls (extra a)) (fields_cls (extra b))) then Ok false
  else if negb (Nat.eqb (length si) (length oi)) then Ok false
  else
    do same <- attrs_loop a b (_attributes (fields_cls (extra a)));
    if negb same then Ok false else items_eq si oi.
Proof.
  cbn [py_eq].
  destruct (negb (cls_eqb _ _)); [reflexivity|].
  destruct (negb (Nat.eqb _ _)); [reflexivity|].
  destruct (attrs_loop _ _ _) as [[|]|]; cbn; reflexivity.
Qed.

(** ** Induction over stimulus trees *)

Lemma stim_ind (P : stim -> Prop) :
  (forall a its, Forall P its -> P (Node a its)) -> forall s, P s.
Proof.
  intros H. fix IH 1. intros [a its]. apply H.
  induction its as [|x its IHits]; constructor; auto.
Qed.

Lemma state_ind (P : state -> Prop) :
  (forall t args sts, Forall P sts -> P (State t args sts)) -> forall st, P st.
Proof.
  intros H. fix IH 1. intros [t args sts]. apply H.
  induction sts as [|x sts IHsts]; constructor; auto.
Qed.

(** ** Equality *)

Lemma Qeq_bool_refl' (q : Q) : Qeq_bool q q = true.
Proof. apply Qeq_bool_iff. reflexivity. Qed.

Lemma arr_eqb_refl (l : list Q) : arr_eqb l l = true.
Proof. induction l as [|x l IH]; cbn; [reflexivity|]. now rewrite Qeq_bool_refl', IH. Qed.

Lemma value_eqb_refl (v : value) : value_eqb v v = true.
Proof.
  destruct v; cbn;
    auto using String.eqb_refl, Z.eqb_refl, Qeq_bool_refl', arr_eqb_refl, Nat.eqb_refl.
Qed.

Lemma value_ne_scalar (v w : value) :
  scalar v -> scalar w -> value_ne v w = Ok (negb (value_eqb v w)).
Proof. destruct v, w; cbn; intros; try contradiction; reflexivity. Qed.

Lemma value_ne_refl (v : value) : scalar v -> value_ne v v = Ok false.
Proof. intros H. now rewrite value_ne_scalar, value_eqb_refl. Qed.

Lemma scalar_opt_str (o : option string) : scalar (opt_str o).
Proof. destruct o; exact I. Qed.





(** ** Timing *)

Lemma Qmax_cases (a b : Q) : Qmax a b = a \/ Qmax a b = b.
Proof. unfold Qmax. destruct (Qle_bool b a); auto. Qed.

Lemma Qmax_ub_l (a b : Q) : (a <= Qmax a b)%Q.
Proof.
  unfold Qmax. destruct (Qle_bool b a) eqn:E.
  - apply Qle_refl.
  - apply Qlt_le_weak, Qnot_le_lt. intros H. apply Qle_bool_iff in H. congruence.
Qed.

Lemma Qmax_ub_r (a b : Q) : (b <= Qmax a b)%Q.
Proof.
  unfold Qmax. destruct (Qle_bool b a) eqn:E.
  - now apply Qle_bool_iff.
  - apply Qle_refl.
Qed.

Lemma py_max_In (x : Q) (l : list Q) : In (py_max x l) (x :: l).
Proof.
  revert x. induction l as [|y l IH]; intros x; cbn; [auto|].
  destruct (IH (Qmax x y)) as [H|H]; fold (py_max (Qmax x y) l) in *.
  - rewrite <- H. destruct (Qmax_cases x y) as [E|E]; rewrite E; auto.
  - auto.
Qed.

Lemma py_max_ge_head (x : Q) (l : list Q) : (x <= py_max x l)%Q.
Proof.
  revert x. induction l as [|y l IH]; intros x; cbn; [apply Qle_refl|].
  eapply Qle_trans; [apply (Qmax_ub_l x y)|apply IH].
Qed.

Lemma py_max_ge (x : Q) (l : list Q) (e : Q) : In e (x :: l) -> (e <= py_max x l)%Q.
Proof.
  revert x. induction l as [|y l IH]; intros x [H|H]; cbn.
  - subst. apply Qle_refl.
  - destruct H.
  - subst. apply (py_max_ge_head e (y :: l)).
  - destruct H as [H|H].
    + subst. eapply Qle_trans; [apply (Qmax_ub_r x e)|apply py_max_ge_head].
    + apply IH. right. exact H.
Qed.

(** [total_global_end_time] is the greatest [global_end_time] found on the
    node and on the nodes below it. *)
Lemma total_global_end_time_is_max (s : stim) : forall anc,
  In (total_global_end_time anc s) (subtree_end_times anc s) /\
  forall e, In e (subtree_end_times anc s) -> (e <= total_global_end_time anc s)%Q.
Proof.
  induction s as [a its IH] using stim_ind. intros anc.
  cbn [total_global_end_time subtree_end_times]. split.
  - destruct (py_max_In (global_end_time anc (Node a its))
                (map (total_global_end_time (a :: anc)) its)) as [H|H].
    + left. exact H.
    + right. apply in_map_iff in H as (c & Hc & Hin).
      apply in_flat_map. exists c. split; [exact Hin|].
      rewrite <- Hc. rewrite Forall_forall in IH.
      apply IH. now apply list_elem_of_In.
  - intros e [He|He].
    + subst e. apply py_max_ge_head.
    + apply in_flat_map in He as (c & Hin & He).
      rewrite Forall_forall in IH.
      apply Qle_trans with (total_global_end_time (a :: anc) c).
      * apply IH; [now apply list_elem_of_In|exact He].
      * apply py_max_ge. right. apply in_map. exact Hin.
Qed.

(** [total_duration] is the node's own [duration]: the start time cancels
    and no child is looked at. *)
Lemma total_duration_own (anc : list attrs) (s : stim) :
  (total_duration anc s == duration s)%Q.
Proof. unfold total_duration, global_end_time. ring. Qed.

(** C4.  For a composite of nominal duration 0 holding one pulse that ends
    at time 1, [total_global_end_time] is 1, the end of the child, while
    [total_duration] is 0: it is the node's own duration for every node,
    not the span of the subtree. *)
Theorem total_duration_misses_children :
  let child := SquarePulse__init__ 0 1 1 "square pulse" None in
  let composite := Stimulus__init__ "stimulus" 0 None [child] in
  (total_global_end_time [] composite == 1)%Q /\
  (global_start_time [] composite == 0)%Q /\
  (total_duration [] composite == 0)%Q /\
  (forall anc s, total_duration anc s == duration s)%Q.
Proof.
  cbn zeta. repeat split; try reflexivity.
  intros anc s. apply total_duration_own.
Qed.

(** ** Saving and loading *)

Lemma save_unfold a its :
  save (Node a its) =
  let c := fields_cls (extra a) in
  do args <- save_args a (_attributes c) {["start_time" := VNum (_start_time a)]};
  do sts <- mapM save its;
  match c with
  | SquarePulseTrain | SquarePulseSeries => Ok (State (cls_name c) args [])
  | _ => Ok (State (cls_name c) args sts)
  end.
Proof.
  cbn [save]. cbv zeta.
  destruct (save_args _ _ _) as [args|]; cbn [bind]; [|reflexivity].
  match goal with |- bind ?m _ = bind ?m' _ => assert (E : m = m') end.
  { induction its as [|x its IH]; cbn; [reflexivity|].
    destruct (save x); cbn; [|reflexivity]. now rewrite IH. }
  now rewrite E.
Qed.

Lemma load_unfold t args sts :
  load (State t args sts) =
  do item_class <- get_stimulus_class t;
  do child_items <- mapM load sts;
  if Nat.ltb 0 (length child_items)
  then construct item_class (Some child_items) args
  else construct item_class None args.
Proof.
  cbn [load].
  destruct (get_stimulus_class t) as [c|]; cbn [bind]; [|reflexivity].
  match goal with |- bind ?m _ = bind ?m' _ => assert (E : m = m') end.
  { induction sts as [|x sts IH]; cbn; [reflexivity|].
    destruct (load x); cbn; [|reflexivity]. now rewrite IH. }
  now rewrite E.
Qed.

Lemma attrs_loop_same (a b : attrs) (names : list string) :
  Forall (fun n => exists v, getattr a n = Ok v /\ getattr b n = Ok v /\ scalar v) names ->
  attrs_loop a b names = Ok true.
Proof.
  induction 1 as [|n names (v & Ha & Hb & Hv) _ IH]; cbn; [reflexivity|].
  rewrite Ha, Hb. cbn. now rewrite value_ne_refl.
Qed.

Ltac same_attrs :=
  apply attrs_loop_same; repeat constructor; eexists;
  (split; [reflexivity|split; [reflexivity|first [exact I|apply scalar_opt_str]]]).

Lemma same_parameters_same (y x : stim) :
  type y = type x ->
  Forall (fun n => exists v, getattr (attrs_of y) n = Ok v /\ getattr (attrs_of x) n = Ok v)
    (_attributes (type x)) ->
  same_parameters y x.
Proof.
  intros Ht H. split; [exact Ht|].
  eapply Forall_impl; [exact H|]. cbn. intros n (v & Hy & Hx).
  exists v, v. auto using value_eqb_refl.
Qed.

Ltac same_params :=
  apply same_parameters_same; [reflexivity|];
  repeat constructor; eexists; split; reflexivity.


Ltac vm_sub t := let v := eval vm_compute in t in change t with v.

(** *** Pulses generated by trains and series *)

Lemma pulse_leaf_init t d a desc u : pulse_leaf (SquarePulse__init__ t d a desc u).
Proof. unfold pulse_leaf, SquarePulse__init__. eauto 10. Qed.

Lemma pulse_leaf_numbered i s : pulse_leaf s -> pulse_leaf (set_pulse_number i s).
Proof. intros (desc & st & u & d & a & pn & ->). cbn. unfold pulse_leaf. eauto 10. Qed.

Lemma pulse_leaf_eq_total e p : pulse_leaf e -> pulse_leaf p -> exists b, py_eq e p = Ok b.
Proof.
  intros (d1 & s1 & u1 & o1 & a1 & n1 & ->) (d2 & s2 & u2 & o2 & a2 & n2 & ->).
  rewrite py_eq_unfold. destruct u1, u2; cbn.
  all: repeat match goal with
         | |- context [negb ?b] => destruct b; cbn; eauto
         end.
Qed.

Lemma pulse_leaf_eq_refl p : pulse_leaf p -> py_eq p p = Ok true.
Proof.
  intros (d1 & s1 & u1 & o1 & a1 & n1 & ->).
  rewrite py_eq_unfold. cbn [extra fields_cls cls_eqb negb length Nat.eqb _attributes].
  replace (attrs_loop _ _ _) with (Ok (A:=bool) true) by (symmetry; same_attrs).
  reflexivity.
Qed.

Lemma pulse_leaf_save p : pulse_leaf p -> exists st, save p = Ok st.
Proof.
  intros (d1 & s1 & u1 & o1 & a1 & n1 & ->).
  rewrite save_unfold. cbn. eauto.
Qed.

Lemma py_in_leaves p its :
  pulse_leaf p -> Forall pulse_leaf its -> exists b, py_in p its = Ok b.
Proof.
  intros Hp. induction 1 as [|e its He _ (b & IH)]; cbn; [eauto|].
  destruct (pulse_leaf_eq_total e p He Hp) as (b' & ->). cbn.
  destruct b'; eauto.
Qed.

Lemma adopt_pulses_leaves pulses : forall its i,
  Forall pulse_leaf its -> Forall pulse_leaf pulses ->
  exists its', adopt_pulses its i pulses = Ok its' /\ Forall pulse_leaf its'.
Proof.
  induction pulses as [|p pulses IH]; intros its i Hits Hps; cbn; [eauto|].
  inversion Hps as [|? ? Hp Hps']; subst.
  unfold adopt_pulse.
  destruct (py_in_leaves p its Hp Hits) as (b & ->). cbn.
  destruct b; cbn; apply IH; auto.
  apply Forall_app. split; [exact Hits|].
  constructor; [|constructor]. now apply pulse_leaf_numbered.
Qed.

Lemma train_items_leaves n pd amp int u :
  exists its, train_items n pd amp int u = Ok its /\ Forall pulse_leaf its.
Proof.
  unfold train_items. apply adopt_pulses_leaves; [constructor|].
  apply Forall_forall. intros x Hx. apply list_elem_of_In, in_map_iff in Hx as (t & <- & _).
  apply pulse_leaf_init.
Qed.

Lemma series_pulses_leaves ts : forall ds amps u,
  Forall pulse_leaf (series_pulses ts ds amps u).
Proof.
  induction ts as [|t ts IH]; intros [|d ds] [|a amps] u; cbn; constructor; auto.
  apply pulse_leaf_init.
Qed.

Lemma series_items_leaves ts ds amps u :
  exists its, series_items ts ds amps u = Ok its /\ Forall pulse_leaf its.
Proof.
  unfold series_items. apply adopt_pulses_leaves; [constructor|].
  apply series_pulses_leaves.
Qed.

Lemma leaves_save its : Forall pulse_leaf its -> exists sts, mapM save its = Ok sts.
Proof.
  induction 1 as [|p its Hp _ (sts & IH)]; cbn; [eauto|].
  destruct (pulse_leaf_save p Hp) as (st & ->). cbn. rewrite IH. cbn. eauto.
Qed.

Lemma leaves_eq_refl its : Forall pulse_leaf its -> items_eq its its = Ok true.
Proof.
  induction 1 as [|p its Hp _ IH]; cbn; [reflexivity|].
  rewrite pulse_leaf_eq_refl by exact Hp. cbn. exact IH.
Qed.

(** *** What [load(save(x))] computes, class by class *)

Lemma reload_Stimulus desc st u d its :
  reload (Node (Attrs desc st u d F_Stimulus) its) =
  do sts <- mapM save its;
  do ys <- mapM load sts;
  Ok (Node (Attrs desc st u 0 F_Stimulus) ys).
Proof.
  unfold reload. rewrite save_unfold. cbv zeta.
  destruct (mapM save its) as [sts|e].
  2:{ destruct u; vm_compute; reflexivity. }
  assert (E : forall args, (do st0 <- Ok (State "Stimulus" args sts); load st0)
                = load (State "Stimulus" args sts)) by reflexivity.
  destruct u as [u|].
  - match goal with |- context [save_args ?a ?n ?m] => vm_sub (save_args a n m) end.
    cbn [bind extra fields_cls cls_name]. rewrite load_unfold.
    vm_sub (get_stimulus_class "Stimulus"). cbn [bind].
    destruct (mapM load sts) as [[|y ys]|]; cbn [bind]; vm_compute; reflexivity.
  - match goal with |- context [save_args ?a ?n ?m] => vm_sub (save_args a n m) end.
    cbn [bind extra fields_cls cls_name]. rewrite load_unfold.
    vm_sub (get_stimulus_class "Stimulus"). cbn [bind].
    destruct (mapM load sts) as [[|y ys]|]; cbn [bind]; vm_compute; reflexivity.
Qed.

Lemma reload_SquarePulseTrain desc st u d n pd amp int its sts :
  mapM save its = Ok sts ->
  reload (Node (Attrs desc st u d (F_SquarePulseTrain n pd amp int)) its) =
  SquarePulseTrain__init__ st n pd amp int desc u.
Proof.
  intros Hs. unfold reload. rewrite save_unfold, Hs. cbv zeta.
  destruct u as [u|].
  - match goal with |- context [save_args ?a ?n ?m] => vm_sub (save_args a n m) end.
    cbn [bind extra fields_cls cls_name]. vm_compute. reflexivity.
  - match goal with |- context [save_args ?a ?n ?m] => vm_sub (save_args a n m) end.
    cbn [bind extra fields_cls cls_name]. vm_compute. reflexivity.
Qed.

Lemma reload_SquarePulseSeries desc st u d ts ds amps its sts :
  mapM save its = Ok sts ->
  reload (Node (Attrs desc st u d (F_SquarePulseSeries ts ds amps)) its) =
  SquarePulseSeries__init__ st ts ds amps desc u.
Proof.
  intros Hs. unfold reload. rewrite save_unfold, Hs. cbv zeta.
  destruct u as [u|].
  - match goal with |- context [save_args ?a ?n ?m] => vm_sub (save_args a n m) end.
    cbn [bind extra fields_cls cls_name]. vm_compute. reflexivity.
  - match goal with |- context [save_args ?a ?n ?m] => vm_sub (save_args a n m) end.
    cbn [bind extra fields_cls cls_name]. vm_compute. reflexivity.
Qed.









(** A [LazyLoadStimulus] saves, but its record holds no loader, which the
    constructor insists on. *)
Lemma lazy_load_does_not_reload (desc : string) (st : Q) (u : option string) (d : Q)
    (loader source : value) (its : list stim) :
  exists e, reload (Node (Attrs desc st u d (F_LazyLoadStimulus loader source)) its) = Raise e.
Proof.
  unfold reload. rewrite save_unfold. cbv zeta.
  destruct (mapM save its) as [sts|e].
  2:{ destruct u; vm_compute; eauto. }
  destruct u as [u|].
  - match goal with |- context [save_args ?a ?n ?m] => vm_sub (save_args a n m) end.
    cbn [bind extra fields_cls cls_name]. rewrite load_unfold.
    vm_sub (get_stimulus_class "LazyLoadStimulus"). cbn [bind].
    destruct (mapM load sts) as [[|y ys]|]; cbn [bind]; vm_compute; eauto.
  - match goal with |- context [save_args ?a ?n ?m] => vm_sub (save_args a n m) end.
    cbn [bind extra fields_cls cls_name]. rewrite load_unfold.
    vm_sub (get_stimulus_class "LazyLoadStimulus"). cbn [bind].
    destruct (mapM load sts) as [[|y ys]|]; cbn [bind]; vm_compute; eauto.
Qed.

(** [Ramp] names the attribute [initial_amplitude], which no instance has:
    saving a ramp raises, wherever the ramp sits in the tree it is saved
    from. *)
Lemma ramp_save_raises (desc : string) (st : Q) (u : option string) (d slope offset : Q)
    (its : list stim) :
  save (Node (Attrs desc st u d (F_Ramp slope offset)) its) = Raise AttributeError.
Proof. rewrite save_unfold. destruct u; vm_compute; reflexivity. Qed.

(** A train or series whose children were changed after construction
    still reloads to a node with the same declared parameters. *)
Lemma changed_train_keeps_parameters desc st u d n pd amp int its sts :
  mapM save its = Ok sts ->
  exists y, reload (Node (Attrs desc st u d (F_SquarePulseTrain n pd amp int)) its) = Ok y /\
            same_parameters y (Node (Attrs desc st u d (F_SquarePulseTrain n pd amp int)) its).
Proof.
  intros Hs. rewrite (reload_SquarePulseTrain _ _ _ _ _ _ _ _ _ _ Hs).
  destruct (train_items_leaves n pd amp int u) as (its' & Hits & _).
  unfold SquarePulseTrain__init__. rewrite Hits. cbn [bind].
  eexists. split; [reflexivity|]. same_params.
Qed.

Lemma changed_series_keeps_parameters desc st u d ts ds amps its sts :
  length ts = length ds -> length ds = length amps ->
  mapM save its = Ok sts ->
  exists y, reload (Node (Attrs desc st u d (F_SquarePulseSeries ts ds amps)) its) = Ok y /\
            same_parameters y (Node (Attrs desc st u d (F_SquarePulseSeries ts ds amps)) its).
Proof.
  intros H1 H2 Hs. rewrite (reload_SquarePulseSeries _ _ _ _ _ _ _ _ _ Hs).
  destruct (series_items_leaves ts ds amps u) as (its' & Hits & _).
  unfold SquarePulseSeries__init__.
  rewrite H1, H2, !Nat.eqb_refl. cbn [andb negb]. rewrite Hits. cbn [bind].
  eexists. split; [reflexivity|]. same_params.
Qed.

(** ** Evaluation and masks do not depend on the order of the children *)

Lemma same_outcome_refl r : same_outcome r r.
Proof. destruct r; cbn; auto. Qed.

Lemma same_outcome_sym r r' : same_outcome r r' -> same_outcome r' r.
Proof. destruct r, r'; cbn; auto. Qed.

Lemma same_outcome_trans r1 r2 r3 :
  same_outcome r1 r2 -> same_outcome r2 r3 -> same_outcome r1 r3.
Proof. destruct r1, r2, r3; cbn; intros; subst; auto; contradiction. Qed.

Lemma same_outcome_bind r r' (K : TSeries -> res TSeries) :
  same_outcome r r' -> same_outcome (bind r K) (bind r' K).
Proof.
  destruct r, r'; cbn; intros H; subst; auto using same_outcome_refl; contradiction.
Qed.

Lemma bind_assoc {A B D} (m : res A) (f : A -> res B) (g : B -> res D) :
  bind (bind m f) g = bind m (fun x => bind (f x) g).
Proof. destruct m; reflexivity. Qed.

Lemma set_data_id tr : set_data tr (data tr) = tr.
Proof. destruct tr; reflexivity. Qed.

Lemma set_data_set_data tr d d' : set_data (set_data tr d) d' = set_data tr d'.
Proof. reflexivity. Qed.

Lemma imap_compose (u v : nat -> Q -> Q) (d : list Q) :
  imap v (imap u d) = imap (fun k x => v k (u k x)) d.
Proof.
  revert u v. induction d as [|x d IH]; intros u v; cbn; [reflexivity|].
  f_equal. rewrite IH. reflexivity.
Qed.

Lemma imap_pointwise (u v : nat -> Q -> Q) (d : list Q) :
  (forall k x, u k x = v k x) -> imap u d = imap v d.
Proof.
  intros H. apply imap_ext. intros k x _. apply H.
Qed.

Section Uniform.

(** A family of per-sample updates that is closed under composition and
    whose members commute: additions for [eval], markings for [mask]. *)
Variable C : (nat -> Q -> Q) -> Prop.
Hypothesis C_id : C (fun _ x => x).
Hypothesis C_compose : forall u v, C u -> C v -> C (fun k x => v k (u k x)).
Hypothesis C_commute : forall u v, C u -> C v -> forall k x, u k (v k x) = v k (u k x).

Lemma uniform_ret : uniform C (fun tr => Ok tr).
Proof.
  intros tr. right. exists (fun _ x => x). split; [exact C_id|].
  intros d _. f_equal. f_equal. clear.
  induction d as [|x d IH]; cbn; [reflexivity|]. f_equal. exact IH.
Qed.

Lemma uniform_bind F G :
  uniform C F -> uniform C G -> uniform C (fun tr => do tr' <- F tr; G tr').
Proof.
  intros HF HG tr.
  destruct (HF tr) as [(e & He)|(u & Cu & Hu)].
  - left. exists e. intros d Hd. now rewrite He.
  - destruct (HG tr) as [(e & He)|(v & Cv & Hv)].
    + left. exists e. intros d Hd. rewrite Hu by exact Hd. cbn.
      apply He. now rewrite length_imap.
    + right. exists (fun k x => v k (u k x)). split; [now apply C_compose|].
      intros d Hd. rewrite Hu by exact Hd. cbn.
      rewrite Hv by now rewrite length_imap.
      now rewrite imap_compose.
Qed.

Lemma uniform_swap F G (K : TSeries -> res TSeries) tr :
  uniform C F -> uniform C G ->
  same_outcome (do t <- (do t' <- F tr; G t'); K t) (do t <- (do t' <- G tr; F t'); K t).
Proof.
  intros HF HG. apply same_outcome_bind.
  rewrite <- (set_data_id tr).
  destruct (HF tr) as [(e & He)|(u & Cu & Hu)];
    destruct (HG tr) as [(e' & He')|(v & Cv & Hv)].
  - rewrite He, He' by reflexivity. exact I.
  - rewrite He, Hv by reflexivity. cbn. rewrite He by now rewrite length_imap. exact I.
  - rewrite Hu, He' by reflexivity. cbn. rewrite He' by now rewrite length_imap. exact I.
  - rewrite Hu, Hv by reflexivity. cbn.
    rewrite Hu, Hv by now rewrite length_imap. cbn.
    rewrite !imap_compose. f_equal. apply imap_pointwise.
    intros k x. symmetry. now apply C_commute.
Qed.

End Uniform.

(** Sums, in the order they are added, commute exactly on [Q] as
    represented (no normalisation takes place). *)
Lemma Qplus_swap (x a b : Q) : (x + a + b = x + b + a)%Q.
Proof.
  destruct x as [nx dx], a as [na da], b as [nb db]. unfold Qplus. cbn.
  f_equal; [|lia]. rewrite !Pos2Z.inj_mul. ring.
Qed.

Lemma fold_plus_swap (l : list Q) : forall x a,
  fold_left Qplus l (x + a)%Q = (fold_left Qplus l x + a)%Q.
Proof.
  induction l as [|b l IH]; intros x a; cbn; [reflexivity|].
  rewrite Qplus_swap. apply IH.
Qed.

Lemma fold_plus_commute (l1 l2 : list Q) (x : Q) :
  fold_left Qplus l1 (fold_left Qplus l2 x) = fold_left Qplus l2 (fold_left Qplus l1 x).
Proof.
  revert x. induction l1 as [|a l1 IH]; intros x; cbn; [reflexivity|].
  rewrite !fold_plus_swap, IH. reflexivity.
Qed.

Lemma additive_id : additive (fun _ x => x).
Proof. exists (fun _ => []). reflexivity. Qed.

Lemma additive_compose u v : additive u -> additive v -> additive (fun k x => v k (u k x)).
Proof.
  intros (du & Hu) (dv & Hv). exists (fun k => du k ++ dv k).
  intros k x. rewrite Hv, Hu, fold_left_app. reflexivity.
Qed.

Lemma additive_commute u v :
  additive u -> additive v -> forall k x, u k (v k x) = v k (u k x).
Proof.
  intros (du & Hu) (dv & Hv) k x. rewrite !Hu, !Hv. apply fold_plus_commute.
Qed.

Lemma marking_id : marking (fun _ x => x).
Proof. exists (fun _ => false). reflexivity. Qed.

Lemma marking_compose u v : marking u -> marking v -> marking (fun k x => v k (u k x)).
Proof.
  intros (wu & Hu) (wv & Hv). exists (fun k => wu k || wv k).
  intros k x. rewrite Hv, Hu. destruct (wu k), (wv k); reflexivity.
Qed.

Lemma marking_commute u v :
  marking u -> marking v -> forall k x, u k (v k x) = v k (u k x).
Proof.
  intros (wu & Hu) (wv & Hv) k x. rewrite !Hu, !Hv.
  destruct (wu k), (wv k); reflexivity.
Qed.

Lemma add_region_additive lo hi f :
  additive (fun k x => if Nat.leb lo k && Nat.ltb k hi then (x + f (k - lo)%nat)%Q else x).
Proof.
  exists (fun k => if Nat.leb lo k && Nat.ltb k hi then [f (k - lo)%nat] else []).
  intros k x. destruct (Nat.leb lo k && Nat.ltb k hi); reflexivity.
Qed.

Lemma mark_region_marking lo hi :
  marking (fun k x => if Nat.leb lo k && Nat.ltb k hi then 1%Q else x).
Proof. exists (fun k => Nat.leb lo k && Nat.ltb k hi). reflexivity. Qed.

Section Traversal.

Variable np_sin : Q -> Q.
Variable np_log : Q -> Q.
Variable np_power : Q -> Q -> Q.
Variable np_pi : Q.
Variable psp_func : Q -> Q -> Q -> Q -> Q -> Q -> Q -> Q.
Variable search_index : list Q -> Q -> index_mode -> Z.

#[local] Abbreviation eval' := (eval np_sin np_log np_power np_pi psp_func search_index).
#[local] Abbreviation eval_own' := (eval_own np_sin np_log np_power np_pi psp_func search_index).
#[local] Abbreviation eval_children' :=
  (eval_children np_sin np_log np_power np_pi psp_func search_index).
#[local] Abbreviation mask' := (mask search_index).
#[local] Abbreviation mask_own' := (mask_own search_index).
#[local] Abbreviation mask_children' := (mask_children search_index).
#[local] Abbreviation index_at' := (index_at search_index).
#[local] Abbreviation time_slice' := (time_slice search_index).

Lemma eval_unfold anc self its kw :
  eval' anc (Node self its) kw =
  let index_mode := default Round (kw_index_mode kw) in
  let t0 := match kw_time_values kw, kw_t0 kw with
            | None, None => Some 0%Q
            | _, t => t
            end in
  do trace <- _make_eval_trace self (kw_trace kw) t0 (kw_n_pts kw) (kw_dt kw)
                (kw_sample_rate kw) (kw_time_values kw);
  do trace <- eval_children' (self :: anc) its index_mode trace;
  eval_own' anc self trace (kw_index_mode kw).
Proof.
  cbn [eval]. cbv zeta.
  destruct (_make_eval_trace _ _ _ _ _ _ _) as [trace|]; cbn [bind]; [|reflexivity].
  match goal with |- bind ?m _ = bind ?m' _ => assert (E : m = m') end.
  { generalize trace. induction its as [|x its IH]; intros tr; cbn; [reflexivity|].
    destruct (eval' _ x _); cbn; [|reflexivity]. apply IH. }
  now rewrite E.
Qed.

Lemma mask_unfold anc self its kw :
  mask' anc (Node self its) kw =
  let index_mode := default Round (kw_index_mode kw) in
  do trace <- _make_eval_trace self (kw_trace kw) (kw_t0 kw) (kw_n_pts kw) (kw_dt kw)
                (kw_sample_rate kw) (kw_time_values kw);
  do trace <- mask_children' (self :: anc) its index_mode trace;
  mask_own' anc self trace (kw_index_mode kw).
Proof.
  cbn [mask]. cbv zeta.
  destruct (_make_eval_trace _ _ _ _ _ _ _) as [trace|]; cbn [bind]; [|reflexivity].
  match goal with |- bind ?m _ = bind ?m' _ => assert (E : m = m') end.
  { generalize trace. induction its as [|x its IH]; intros tr; cbn; [reflexivity|].
    destruct (mask' _ x _); cbn; [|reflexivity]. apply IH. }
  now rewrite E.
Qed.

Lemma timing_of_set_data tr d : timing_of (set_data tr d) = timing_of tr.
Proof. reflexivity. Qed.

Lemma index_at_set_data tr d t mode : index_at' (set_data tr d) t mode = index_at' tr t mode.
Proof. reflexivity. Qed.

Lemma time_slice_set_data tr d start stop mode :
  length d = length (data tr) ->
  time_slice' (set_data tr d) start stop mode = time_slice' tr start stop mode.
Proof. intros H. unfold time_slice. cbn [data set_data]. now rewrite H. Qed.

Ltac slice_cases anc self mode tr lo hi e Hs :=
  destruct (time_slice' tr (global_start_time anc (Node self []))
              (global_start_time anc (Node self []) + duration_of self) mode)
    as [[lo hi]|e] eqn:Hs;
  [| left; exists e; intros d Hd; rewrite time_slice_set_data, Hs by exact Hd;
     reflexivity ].

Ltac timing_cases tr tm e Hs Ht :=
  destruct (timing_of tr) as [tm|e] eqn:Ht;
  [| left; exists e; intros d Hd; rewrite time_slice_set_data, Hs by exact Hd;
     cbn [bind]; rewrite timing_of_set_data, Ht; reflexivity ].

Lemma uniform_nothing C tr :
  C (fun (_ : nat) (x : Q) => x) ->
  exists u, C u /\
    forall d, length d = length (data tr) ->
              Ok (set_data tr d) = Ok (set_data tr (imap u d)).
Proof.
  intros HC. exists (fun _ x => x). split; [exact HC|].
  intros d _. f_equal. f_equal. clear.
  induction d as [|x d IH]; cbn; [reflexivity|]. f_equal. exact IH.
Qed.

Lemma eval_own_uniform anc self mode :
  uniform additive (fun tr => eval_own' anc self tr mode).
Proof.
  intros tr. unfold eval_own.
  destruct (extra self) eqn:E;
    try (right; apply uniform_nothing, additive_id).
  - (* Offset *)
    destruct (index_at' tr (global_start_time anc (Node self [])) mode) as [i|e] eqn:Hi.
    + right.
      exists (fun k x => if Nat.leb (py_bound (length (data tr)) i) k
                            && Nat.ltb k (length (data tr))
                         then (x + amplitude)%Q else x).
      split; [apply (add_region_additive _ _ (fun _ => amplitude))|].
      intros d Hd. rewrite index_at_set_data, Hi. cbn [bind data set_data].
      rewrite Hd. reflexivity.
    + left. exists e. intros d Hd. rewrite index_at_set_data, Hi. reflexivity.
  - (* SquarePulse *)
    slice_cases anc self mode tr lo hi e Hs.
    right. eexists. split; [apply (add_region_additive lo hi (fun _ => amplitude))|].
    intros d Hd. rewrite time_slice_set_data, Hs by exact Hd. reflexivity.
  - (* Ramp *)
    slice_cases anc self mode tr lo hi e Hs.
    right. eexists.
    split; [apply (add_region_additive lo hi
                     (fun k => inject_Z (Z.of_nat k) * slope + offset)%Q)|].
    intros d Hd. rewrite time_slice_set_data, Hs by exact Hd. reflexivity.
  - (* Sine *)
    slice_cases anc self mode tr lo hi e Hs.
    timing_cases tr tm e Hs Ht.
    right. eexists.
    split; [apply (additive_compose _ _
                     (add_region_additive lo hi (fun _ => offset))
                     (add_region_additive lo hi
                        (fun k => amplitude *
                           np_sin (Sine_phase_at np_pi phase frequency
                                     (sample_time tm (lo + k) -
                                      global_start_time anc (Node self []))))%Q))|].
    intros d Hd. rewrite time_slice_set_data, Hs by exact Hd. cbn [bind].
    rewrite timing_of_set_data, Ht. cbn [bind data set_data].
    unfold add_region. rewrite imap_compose. reflexivity.
  - (* Chirp *)
    slice_cases anc self mode tr lo hi e Hs.
    timing_cases tr tm e Hs Ht.
    right. eexists.
    split; [apply (additive_compose _ _
                     (add_region_additive lo hi (fun _ => offset))
                     (add_region_additive lo hi
                        (fun k => amplitude *
                           np_sin (Chirp_phase_at np_log np_power np_pi (duration_of self)
                                     start_frequency end_frequency phase
                                     (sample_time tm (lo + k) -
                                      global_start_time anc (Node self []))))%Q))|].
    intros d Hd. rewrite time_slice_set_data, Hs by exact Hd. cbn [bind].
    rewrite timing_of_set_data, Ht. cbn [bind data set_data].
    unfold add_region. rewrite imap_compose. reflexivity.
  - (* Psp *)
    slice_cases anc self mode tr lo hi e Hs.
    timing_cases tr tm e Hs Ht.
    right. eexists.
    split; [apply (add_region_additive lo hi
                     (fun k => psp_func (sample_time tm (lo + k))
                                 (global_start_time anc (Node self []))
                                 0 rise_time decay_tau amplitude rise_power))|].
    intros d Hd. rewrite time_slice_set_data, Hs by exact Hd. cbn [bind].
    rewrite timing_of_set_data, Ht. reflexivity.
Qed.

Lemma mask_own_uniform anc self mode :
  uniform marking (fun tr => mask_own' anc self tr mode).
Proof.
  intros tr. unfold mask_own.
  destruct (extra self) eqn:E;
    try (right; apply uniform_nothing, marking_id);
    try (slice_cases anc self mode tr lo hi e Hs;
         right; eexists; split; [apply (mark_region_marking lo hi)|];
         intros d Hd; rewrite time_slice_set_data, Hs by exact Hd; reflexivity).
  destruct (index_at' tr (global_start_time anc (Node self [])) mode) as [i|e] eqn:Hi.
  - right.
    exists (fun k x => if Nat.leb (py_bound (length (data tr)) i) k
                          && Nat.ltb k (length (data tr))
                       then 1%Q else x).
    split; [apply mark_region_marking|].
    intros d Hd. rewrite index_at_set_data, Hi. cbn [bind data set_data].
    rewrite Hd. reflexivity.
  - left. exists e. intros d Hd. rewrite index_at_set_data, Hi. reflexivity.
Qed.

Lemma eval_child_unfold anc self its tr mode :
  eval' anc (Node self its) (child_kwds tr mode) =
  do trace <- eval_children' (self :: anc) its mode tr;
  eval_own' anc self trace (Some mode).
Proof. rewrite eval_unfold. reflexivity. Qed.

Lemma mask_child_unfold anc self its tr mode :
  mask' anc (Node self its) (child_kwds tr mode) =
  do trace <- mask_children' (self :: anc) its mode tr;
  mask_own' anc self trace (Some mode).
Proof. rewrite mask_unfold. reflexivity. Qed.

Lemma uniform_ext C F G : (forall tr, F tr = G tr) -> uniform C F -> uniform C G.
Proof.
  intros H HF tr. destruct (HF tr) as [(e & He)|(u & Cu & Hu)].
  - left. exists e. intros d Hd. rewrite <- H. now apply He.
  - right. exists u. split; [exact Cu|]. intros d Hd. rewrite <- H. now apply Hu.
Qed.

Lemma eval_uniform s : forall anc mode,
  uniform additive (fun tr => eval' anc s (child_kwds tr mode)).
Proof.
  induction s as [self its IH] using stim_ind. intros anc mode.
  eapply uniform_ext; [intros tr; symmetry; apply eval_child_unfold|].
  apply (uniform_bind additive additive_compose); [|apply eval_own_uniform].
  induction IH as [|x its Hx _ IHits]; cbn [eval_children].
  - apply uniform_ret, additive_id.
  - apply (uniform_bind additive additive_compose); [apply Hx | exact IHits].
Qed.

Lemma mask_uniform s : forall anc mode,
  uniform marking (fun tr => mask' anc s (child_kwds tr mode)).
Proof.
  induction s as [self its IH] using stim_ind. intros anc mode.
  eapply uniform_ext; [intros tr; symmetry; apply mask_child_unfold|].
  apply (uniform_bind marking marking_compose); [|apply mask_own_uniform].
  induction IH as [|x its Hx _ IHits]; cbn [mask_children].
  - apply uniform_ret, marking_id.
  - apply (uniform_bind marking marking_compose); [apply Hx | exact IHits].
Qed.

(** The children loop gives the same outcome on any permutation of the
    children. *)
Lemma eval_children_perm anc mode l l' :
  Permutation l l' ->
  forall tr, same_outcome (eval_children' anc l mode tr) (eval_children' anc l' mode tr).
Proof.
  induction 1 as [|x l l' _ IH|x y l|l1 l2 l3 _ IH1 _ IH2]; intros tr.
  - apply same_outcome_refl.
  - cbn [eval_children]. destruct (eval' anc x _); cbn [bind]; [apply IH|exact I].
  - cbn [eval_children].
    pose proof (uniform_swap additive additive_commute
                  (fun t => eval' anc y (child_kwds t mode))
                  (fun t => eval' anc x (child_kwds t mode))
                  (eval_children' anc l mode) tr
                  (eval_uniform y anc mode) (eval_uniform x anc mode)) as H.
    rewrite !bind_assoc in H. exact H.
  - eapply same_outcome_trans; [apply IH1|apply IH2].
Qed.

Lemma mask_children_perm anc mode l l' :
  Permutation l l' ->
  forall tr, same_outcome (mask_children' anc l mode tr) (mask_children' anc l' mode tr).
Proof.
  induction 1 as [|x l l' _ IH|x y l|l1 l2 l3 _ IH1 _ IH2]; intros tr.
  - apply same_outcome_refl.
  - cbn [mask_children]. destruct (mask' anc x _); cbn [bind]; [apply IH|exact I].
  - cbn [mask_children].
    pose proof (uniform_swap marking marking_commute
                  (fun t => mask' anc y (child_kwds t mode))
                  (fun t => mask' anc x (child_kwds t mode))
                  (mask_children' anc l mode) tr
                  (mask_uniform y anc mode) (mask_uniform x anc mode)) as H.
    rewrite !bind_assoc in H. exact H.
  - eapply same_outcome_trans; [apply IH1|apply IH2].
Qed.

(** C5 (as amended).  With samples that are numbers added without
    rounding, as the rationals of the model are: for every tree, every
    keyword arguments (timing specification) and every reordering of the
    children of any of its nodes, [eval] gives the same outcome on both
    trees: the same signal, or an exception in both; and so does [mask],
    whose marking is an assignment and rounds nothing. *)
Theorem eval_mask_order_independent (s s' : stim) :
  reordered s s' ->
  forall anc kw,
    same_outcome (eval' anc s kw) (eval' anc s' kw) /\
    same_outcome (mask' anc s kw) (mask' anc s' kw).
Proof.
  revert s'. induction s as [self its IH] using stim_ind.
  intros s' Hr. inversion Hr as [a l l' l'' HF HP]; subst. clear Hr.
  assert (Hch : forall anc mode tr,
             same_outcome (eval_children' anc its mode tr) (eval_children' anc l' mode tr) /\
             same_outcome (mask_children' anc its mode tr) (mask_children' anc l' mode tr)).
  { clear HP. intros anc mode.
    induction HF as [|x x' its its' Hx _ IHF]; intros tr.
    - split; apply same_outcome_refl.
    - inversion IH as [|? ? IHx IHits]; subst.
      destruct (IHx x' Hx anc (child_kwds tr mode)) as [He Hm].
      cbn [eval_children mask_children]. split.
      + destruct (eval' anc x _), (eval' anc x' _); cbn in He |- *;
          try contradiction; try exact I. subst. apply IHF, IHits.
      + destruct (mask' anc x _), (mask' anc x' _); cbn in Hm |- *;
          try contradiction; try exact I. subst. apply IHF, IHits. }
  intros anc kw. rewrite !eval_unfold, !mask_unfold. cbv zeta. split.
  - destruct (_make_eval_trace _ _ _ _ _ _ _) as [tr|]; cbn [bind]; [|exact I].
    apply same_outcome_bind.
    eapply same_outcome_trans; [apply Hch|]. now apply eval_children_perm.
  - destruct (_make_eval_trace _ _ _ _ _ _ _) as [tr|]; cbn [bind]; [|exact I].
    apply same_outcome_bind.
    eapply same_outcome_trans; [apply Hch|]. now apply mask_children_perm.
Qed.

End Traversal.

Lemma eval_mask_order_independent_witness :
  let p1 := SquarePulse__init__ 1 2 5 "square pulse" None in
  let p2 := Offset__init__ 3 2 "offset" None in
  let kw := Kwds None (Some 6%nat) (Some 1%Q) None None None None in
  let sin_ := fun x : Q => x in
  let psp_ := fun x _ _ _ _ _ _ : Q => x in
  let search_ := fun (_ : list Q) (_ : Q) (_ : index_mode) => 0%Z in
  reordered (Stimulus__init__ "stimulus" 0 None [p1; p2])
            (Stimulus__init__ "stimulus" 0 None [p2; p1]) /\
  same_outcome
    (eval sin_ sin_ Qmult 3 psp_ search_ [] (Stimulus__init__ "stimulus" 0 None [p1; p2]) kw)
    (eval sin_ sin_ Qmult 3 psp_ search_ [] (Stimulus__init__ "stimulus" 0 None [p2; p1]) kw) /\
  same_outcome
    (mask search_ [] (Stimulus__init__ "stimulus" 0 None [p1; p2]) kw)
    (mask search_ [] (Stimulus__init__ "stimulus" 0 None [p2; p1]) kw).
Proof.
  cbv zeta.
  assert (Hr : reordered
                 (Stimulus__init__ "stimulus" 0 None
                    [SquarePulse__init__ 1 2 5 "square pulse" None;
                     Offset__init__ 3 2 "offset" None])
                 (Stimulus__init__ "stimulus" 0 None
                    [Offset__init__ 3 2 "offset" None;
                     SquarePulse__init__ 1 2 5 "square pulse" None])).
  { apply reordered_node
      with (its' := [SquarePulse__init__ 1 2 5 "square pulse" None;
                     Offset__init__ 3 2 "offset" None]).
    - repeat constructor;
        (apply reordered_node with (its' := []); [constructor | constructor]).
    - apply perm_swap. }
  split; [exact Hr|].
  apply (eval_mask_order_independent (fun x => x) (fun x => x) Qmult 3
           (fun x _ _ _ _ _ _ => x) (fun _ _ _ => 0%Z) _ _ Hr []).
Defined.

(** *** The order of the children in float64 *)

Section FloatOrder.
Import PrimFloat.
Local Set Warnings "-inexact-float".

(** In float64 the order of the children shows in the samples: on three
    samples at step 1, three square pulses of amplitudes 0.1, 0.2 and 0.3
    over the middle sample add up to 0.6000000000000001 in this order and
    to 0.6 in the opposite order, since the sums are rounded one after the
    other. *)
Theorem float64_sums_depend_on_order :
  let a := Float64.Pulse 1 1 0.1%float in
  let b := Float64.Pulse 1 1 0.2%float in
  let c := Float64.Pulse 1 1 0.3%float in
  Float64.eval_pulses 0 [a; b; c] 3 1 = Ok [0%float; 0.6000000000000001%float; 0%float] /\
  Float64.eval_pulses 0 [c; b; a] 3 1 = Ok [0%float; 0.6%float; 0%float] /\
  PrimFloat.eqb 0.6000000000000001%float 0.6%float = false.
Proof. cbv zeta. repeat split; vm_compute; reflexivity. Qed.

End FloatOrder.

(** ** Exact pulse detection *)

Lemma square_pulse_at_timed trace tm baseline changes i start :
  timing_of trace = Ok tm ->
  square_pulse_at trace baseline changes i start =
  Ok (detected_at trace tm baseline changes i start).
Proof.
  intros Ht. unfold square_pulse_at, detected_at, time_at, ts_dt.
  destruct (negb _); [|reflexivity]. rewrite Ht. reflexivity.
Qed.

Lemma square_pulse_loop_timed trace tm baseline changes todo :
  timing_of trace = Ok tm ->
  square_pulse_loop trace baseline changes todo =
  Ok (flat_map (fun '(i, start) => detected_at trace tm baseline changes i start) todo).
Proof.
  intros Ht. induction todo as [|[i start] todo IH]; cbn; [reflexivity|].
  rewrite (square_pulse_at_timed _ _ _ _ _ _ Ht), IH. reflexivity.
Qed.

Lemma in_enumerate {A} (l : list A) i x :
  In (i, x) (enumerate l) <-> l !! i = Some x.
Proof.
  unfold enumerate.
  assert (H : forall a, In (i, x) (combine (seq a (length l)) l) <->
                        (a <= i)%nat /\ l !! (i - a)%nat = Some x).
  { induction l as [|y l IH]; intros a; cbn.
    - split; [tauto|]. intros [_ H]. discriminate.
    - rewrite IH. split.
      + intros [H|[H1 H2]].
        * inversion H; subst. rewrite Nat.sub_diag. auto.
        * split; [lia|]. replace (i - a)%nat with (S (i - S a)) by lia. exact H2.
      + intros [H1 H2]. destruct (decide (i = a)) as [->|Hne].
        * rewrite Nat.sub_diag in H2. cbn in H2. left. congruence.
        * right. split; [lia|].
          replace (i - a)%nat with (S (i - S a)) in H2 by lia. exact H2. }
  rewrite H, Nat.sub_0_r. intuition lia.
Qed.

Lemma np_diff_lookup (d : list Q) (j : nat) :
  np_diff d !! j =
  match d !! j, d !! S j with
  | Some x, Some y => Some (y - x)%Q
  | _, _ => None
  end.
Proof.
  revert j. induction d as [|x d IH]; intros j; [reflexivity|].
  destruct d as [|y d].
  - destruct j; reflexivity.
  - destruct j as [|j]; [reflexivity|].
    change (np_diff (x :: y :: d) !! S j) with (np_diff (y :: d) !! j).
    rewrite (IH j). reflexivity.
Qed.

Lemma in_argwhere cond (l : list Q) : forall i j,
  In j (argwhere cond i l) <->
  (i <= j)%nat /\ exists x, l !! (j - i)%nat = Some x /\ cond x = true.
Proof.
  induction l as [|x l IH]; intros i j; cbn.
  - split; [tauto|]. intros (_ & y & H & _). discriminate.
  - assert (Hrest : In j (argwhere cond (S i) l) <->
                    (i < j)%nat /\ exists y, (x :: l) !! (j - i)%nat = Some y /\ cond y = true).
    { rewrite IH. split.
      - intros (H1 & y & H2 & H3). split; [lia|]. exists y. split; [|exact H3].
        replace (j - i)%nat with (S (j - S i)) by lia. exact H2.
      - intros (H1 & y & H2 & H3). split; [lia|]. exists y. split; [|exact H3].
        replace (j - i)%nat with (S (j - S i)) in H2 by lia. exact H2. }
    destruct (cond x) eqn:Hc; cbn [In]; rewrite Hrest; split.
    + intros [->|(H1 & H2)].
      * split; [lia|]. exists x. rewrite Nat.sub_diag. auto.
      * split; [lia|exact H2].
    + intros (H1 & y & H2 & H3). destruct (decide (i = j)) as [->|Hne]; [auto|].
      right. split; [lia|eauto].
    + intros (H1 & H2). split; [lia|exact H2].
    + intros (H1 & y & H2 & H3). split; [|eauto].
      destruct (decide (i = j)) as [->|Hne]; [|lia].
      rewrite Nat.sub_diag in H2. cbn in H2. congruence.
Qed.

Lemma nth_lookup_Q (d : list Q) (k : nat) (x : Q) : d !! k = Some x -> nth k d 0%Q = x.
Proof.
  revert k. induction d as [|y d IH]; intros [|k] H; try discriminate; cbn in *.
  - congruence.
  - now apply IH.
Qed.

(** The boundaries are the indices whose sample differs from the one
    before. *)
Lemma in_boundaries (d : list Q) (k : nat) :
  In k (boundaries d) <->
  (1 <= k < length d)%nat /\ ~ (nth k d 0 == nth (k - 1) d 0)%Q.
Proof.
  unfold boundaries. rewrite in_map_iff. split.
  - intros (j & <- & Hj). apply in_argwhere in Hj as (_ & x & Hx & Hc).
    rewrite Nat.sub_0_r, np_diff_lookup in Hx.
    destruct (d !! j) as [a|] eqn:Ha; [|discriminate].
    destruct (d !! S j) as [b|] eqn:Hb; [|discriminate].
    inversion Hx; subst x.
    apply lookup_lt_Some in Hb as Hlen. split; [lia|].
    replace (S j - 1)%nat with j by lia.
    rewrite (nth_lookup_Q _ _ _ Ha), (nth_lookup_Q _ _ _ Hb).
    intros Heq. apply negb_true_iff in Hc.
    assert (Qeq_bool (b - a) 0 = true); [|congruence].
    apply Qeq_bool_iff. rewrite Heq. ring.
  - intros ((H1 & H2) & Hne). exists (k - 1)%nat. split; [lia|].
    apply in_argwhere. split; [lia|]. rewrite Nat.sub_0_r, np_diff_lookup.
    destruct (lookup_lt_is_Some_2 d (k - 1)) as (a & Ha); [lia|].
    destruct (lookup_lt_is_Some_2 d (S (k - 1))) as (b & Hb); [lia|].
    rewrite Ha, Hb. eexists. split; [reflexivity|].
    apply negb_true_iff. destruct (Qeq_bool (b - a) 0) eqn:E; [|reflexivity].
    exfalso. apply Hne. apply Qeq_bool_iff in E.
    replace k with (S (k - 1)) at 1 by lia.
    rewrite (nth_lookup_Q _ _ _ Ha), (nth_lookup_Q _ _ _ Hb).
    assert (Hb' : (b == (b - a) + a)%Q) by ring.
    rewrite Hb', E. ring.
Qed.

Lemma pulse_number_detected trace tm baseline changes i start p :
  In p (detected_at trace tm baseline changes i start) -> pulse_number_of p = Some i.
Proof.
  unfold detected_at. destruct (negb _); [|contradiction].
  intros [<-|[]]. reflexivity.
Qed.

Lemma detected_numbers trace tm baseline changes (l : list nat) : forall a,
  exists ns,
    map pulse_number_of
      (flat_map (fun '(i, start) => detected_at trace tm baseline changes i start)
         (combine (seq a (length l)) l)) = map Some ns /\
    StronglySorted lt ns /\ Forall (fun n => (a <= n < a + length l)%nat) ns.
Proof.
  induction l as [|start l IH]; intros a; cbn [length seq combine flat_map].
  - exists []. repeat constructor.
  - destruct (IH (S a)) as (ns & Hmap & Hsort & Hbound).
    rewrite map_app, Hmap.
    unfold detected_at at 1. destruct (negb _).
    + exists (a :: ns). split; [reflexivity|]. split.
      * constructor; [exact Hsort|]. eapply Forall_impl; [exact Hbound|].
        cbn. intros; lia.
      * constructor; [cbn; lia|]. eapply Forall_impl; [exact Hbound|]. cbn. intros; lia.
    + exists ns. split; [reflexivity|]. split; [exact Hsort|].
      eapply Forall_impl; [exact Hbound|]. cbn. intros; lia.
Qed.

Lemma find_square_pulses_timed trace tm given baseline :
  timing_of trace = Ok tm ->
  (given = Some baseline \/ given = None /\ head (data trace) = Some baseline) ->
  find_square_pulses trace given =
  Ok (flat_map (fun '(i, start) =>
                  detected_at trace tm baseline (boundaries (data trace)) i start)
        (enumerate (boundaries (data trace)))).
Proof.
  intros Ht [->|[-> Hh]]; unfold find_square_pulses.
  - cbn [bind]. now apply square_pulse_loop_timed.
  - destruct (data trace) as [|x d] eqn:Hd; [discriminate|].
    cbn in Hh. inversion Hh; subst x. cbn [bind].
    now apply square_pulse_loop_timed.
Qed.

(** C8 (as amended).  On a trace with timing, [find_square_pulses] returns:
    its boundaries are the indices whose sample differs from the previous
    one; every boundary whose sample differs from the baseline gives
    exactly one pulse, with amplitude the sample minus the baseline,
    duration (next boundary, or the length of the trace, minus the
    boundary) times the step, and [pulse_number] the index of the boundary
    among all the boundaries; the pulses come in the order of detection,
    so that their numbers increase strictly (they need not be
    consecutive). *)
Theorem find_square_pulses_spec (trace : TSeries) (tm : timing)
    (given : option Q) (baseline : Q) :
  timing_of trace = Ok tm ->
  (given = Some baseline \/ given = None /\ head (data trace) = Some baseline) ->
  let changes := boundaries (data trace) in
  exists pulses,
    find_square_pulses trace given = Ok pulses /\
    (forall k, In k changes <->
       (1 <= k < length (data trace))%nat /\
       ~ (nth k (data trace) 0 == nth (k - 1) (data trace) 0)%Q) /\
    (forall p, In p pulses <->
       exists i start,
         changes !! i = Some start /\
         ~ (nth start (data trace) 0 - baseline == 0)%Q /\
         p = set_pulse_number i
               (SquarePulse__init__ (sample_time tm start)
                  (inject_Z (Z.of_nat (default (length (data trace)) (changes !! (i + 1)%nat))
                             - Z.of_nat start) * timing_step tm)
                  (nth start (data trace) 0 - baseline)
                  "square pulse" (ts_units trace))) /\
    exists numbers,
      map pulse_number_of pulses = map Some numbers /\
      StronglySorted lt numbers /\
      Forall (fun n => (n < length changes)%nat) numbers.
Proof.
  intros Ht Hb changes.
  pose proof (find_square_pulses_timed trace tm given baseline Ht Hb) as Hfind.
  fold changes in Hfind.
  eexists. split; [exact Hfind|]. split; [|split].
  - intros k. apply in_boundaries.
  - intros p. rewrite in_flat_map. split.
    + intros ([i start] & Hin & Hp). apply in_enumerate in Hin.
      exists i, start. split; [exact Hin|].
      unfold detected_at in Hp.
      destruct (Qeq_bool _ 0) eqn:E; cbn [negb] in Hp; [contradiction|].
      destruct Hp as [<-|[]]. split.
      * intros H. apply Qeq_bool_iff in H. congruence.
      * do 3 f_equal. destruct (Nat.ltb_spec (i + 1) (length changes)) as [Hlt|Hge].
        -- destruct (lookup_lt_is_Some_2 changes (i + 1)) as (y & Hy); [exact Hlt|].
           rewrite Hy. cbn. f_equal. f_equal. f_equal.
           revert Hy. generalize (i + 1)%nat. clear.
           induction changes as [|c cs IH]; intros [|n] H; try discriminate; cbn in *.
           ++ congruence.
           ++ now apply IH.
        -- rewrite (lookup_ge_None_2 changes (i + 1)) by exact Hge. reflexivity.
    + intros (i & start & Hin & Hne & ->). exists (i, start). split.
      * now apply in_enumerate.
      * unfold detected_at.
        destruct (Qeq_bool _ 0) eqn:E; cbn [negb].
        { exfalso. apply Hne. now apply Qeq_bool_iff. }
        left. do 3 f_equal. destruct (Nat.ltb_spec (i + 1) (length changes)) as [Hlt|Hge].
        -- destruct (lookup_lt_is_Some_2 changes (i + 1)) as (y & Hy); [exact Hlt|].
           rewrite Hy. cbn. f_equal. f_equal. f_equal.
           revert Hy. generalize (i + 1)%nat. clear.
           induction changes as [|c cs IH]; intros [|n] H; try discriminate; cbn in *.
           ++ congruence.
           ++ now apply IH.
        -- rewrite (lookup_ge_None_2 changes (i + 1)) by exact Hge. reflexivity.
  - destruct (detected_numbers trace tm baseline changes changes 0) as (ns & H1 & H2 & H3).
    exists ns. split; [exact H1|]. split; [exact H2|].
    eapply Forall_impl; [exact H3|]. cbn. intros; lia.
Qed.

Lemma find_square_pulses_spec_witness :
  let trace := mkTSeries [0; 1; 0; 1; 0]%Q (Some 0%Q) (Some 1%Q) None None None in
  timing_of trace = Ok (Regular 0 1) /\
  exists pulses numbers,
    find_square_pulses trace None = Ok pulses /\
    map pulse_number_of pulses = map Some numbers /\
    StronglySorted lt numbers.
Proof.
  cbv zeta. split; [reflexivity|].
  destruct (find_square_pulses_spec
              (mkTSeries [0; 1; 0; 1; 0]%Q (Some 0%Q) (Some 1%Q) None None None)
              (Regular 0 1) None 0%Q eq_refl (or_intror (conj eq_refl eq_refl)))
    as (pulses & Hfind & _ & _ & numbers & Hn & Hs & _).
  exists pulses, numbers. auto.
Defined.

(** Two one-sample pulses apart by one sample: the boundaries are 1, 2, 3
    and 4, the pulses start at boundaries number 0 and 2, and these are
    the numbers they get. *)
Lemma detected_numbers_skip :
  exists pulses,
    find_square_pulses
      (mkTSeries [0; 1; 0; 1; 0]%Q (Some 0%Q) (Some 1%Q) None None None) None = Ok pulses /\
    map pulse_number_of pulses = [Some 0%nat; Some 2%nat] /\
    ~ numbered_consecutively pulses.
Proof.
  eexists. split; [reflexivity|]. split; [reflexivity|].
  unfold numbered_consecutively. cbn. discriminate.
Qed.
(** ** Detection inverts evaluation for separated pulses *)

Section Recovery.
Local Open Scope Q_scope.

Lemma round_half_even_integer (x : Q) (z : Z) : x == inject_Z z -> round_half_even x = z.
Proof.
  intros Hx. unfold round_half_even.
  assert (Hf : Qfloor x = z) by (rewrite Hx; apply Qfloor_Z).
  rewrite Hf.
  assert (Hc : (x - inject_Z z ?= 1 # 2) = Lt).
  { rewrite Hx. setoid_replace (inject_Z z - inject_Z z) with 0 using relation Qeq by ring. reflexivity. }
  rewrite Hc. reflexivity.
Qed.

Lemma to_index_integer mode (x : Q) (z : Z) : x == inject_Z z -> to_index mode x = z.
Proof.
  intros Hx. destruct mode; cbn.
  - now apply round_half_even_integer.
  - rewrite Hx. apply Qfloor_Z.
  - rewrite Hx. apply Qceiling_Z.
Qed.

Lemma grid_index (t0 dt t : Q) (k : nat) mode :
  ~ dt == 0 -> t == t0 + inject_Z (Z.of_nat k) * dt ->
  to_index mode ((t - t0) / dt) = Z.of_nat k.
Proof.
  intros Hdt Ht. apply to_index_integer. rewrite Ht. field. exact Hdt.
Qed.


Variable np_sin : Q -> Q.
Variable np_log : Q -> Q.
Variable np_power : Q -> Q -> Q.
Variable np_pi : Q.
Variable psp_func : Q -> Q -> Q -> Q -> Q -> Q -> Q -> Q.
Variable search_index : list Q -> Q -> index_mode -> Z.

#[local] Abbreviation eval'' := (eval np_sin np_log np_power np_pi psp_func search_index).
#[local] Abbreviation eval_children'' :=
  (eval_children np_sin np_log np_power np_pi psp_func search_index).

Lemma time_slice_grid tr origin step start stop (first last : nat) mode :
  timing_of tr = Ok (Regular origin step) -> ~ step == 0 ->
  start == origin + inject_Z (Z.of_nat first) * step ->
  stop == origin + inject_Z (Z.of_nat last) * step ->
  (first <= length (data tr))%nat -> (last <= length (data tr))%nat ->
  time_slice search_index tr start stop mode = Ok (first, last).
Proof.
  intros Ht Hdt Hs He Hf Hl. unfold time_slice, index_at. rewrite Ht. cbn [bind].
  rewrite (grid_index origin step start first _ Hdt Hs), (grid_index origin step stop last _ Hdt He).
  f_equal. f_equal; lia.
Qed.

Lemma eval_grid_pulse (root : attrs) tr origin step first count amplitude p :
  _start_time root == 0 ->
  timing_of tr = Ok (Regular origin step) -> ~ step == 0 ->
  on_grid origin step (first, count, amplitude) p ->
  (first + count <= length (data tr))%nat ->
  eval'' [root] p (child_kwds tr Round) =
  Ok (set_data tr (add_region first (first + count) (fun _ => amplitude) (data tr))).
Proof.
  intros Hroot Ht Hdt (st & dur & desc & u & -> & Hst & Hdur) Hlen.
  unfold SquarePulse__init__.
  rewrite eval_child_unfold. cbn [eval_children bind].
  unfold eval_own. cbn [extra duration_of own_duration].
  rewrite (time_slice_grid tr origin step _ _ first (first + count) (Some Round) Ht Hdt);
    [reflexivity| | |lia|lia].
  - unfold global_start_time, ancestry. cbn. rewrite Hroot, Hst. ring.
  - unfold global_start_time, ancestry. cbn. rewrite Hroot, Hst, Hdur.
    rewrite Nat2Z.inj_add, inject_Z_plus. ring.
Qed.

(** *** The buffer after evaluation *)

Lemma imap_repeat (g : nat -> Q -> Q) (x : Q) (k : nat) :
  imap g (repeat x k) = map (fun i => g i x) (seq 0 k).
Proof.
  revert g. induction k as [|k IH]; intros g; cbn; [reflexivity|].
  f_equal. rewrite IH, <- seq_shift, map_map. reflexivity.
Qed.

Lemma map_seq_const {A} (g : nat -> A) (v : A) (a k : nat) :
  (forall i, (a <= i < a + k)%nat -> g i = v) -> map g (seq a k) = repeat v k.
Proof.
  revert a. induction k as [|k IH]; intros a H; cbn; [reflexivity|].
  rewrite H by lia. f_equal. apply IH. intros i Hi. apply H. lia.
Qed.

Lemma add_region_skip lo hi f (l1 l2 : list Q) :
  (length l1 <= lo)%nat ->
  add_region lo hi f (l1 ++ l2) =
  l1 ++ add_region (lo - length l1) (hi - length l1) f l2.
Proof.
  intros Hlo. unfold add_region. rewrite imap_app. f_equal.
  - transitivity (imap (fun _ x => x) l1).
    + apply imap_ext. intros i x Hi. apply lookup_lt_Some in Hi.
      destruct (Nat.leb_spec lo i); [lia|reflexivity].
    + clear. induction l1 as [|x l IH]; cbn; [reflexivity|]. f_equal. exact IH.
  - apply imap_ext. intros i x _.
    destruct (Nat.leb_spec lo (length l1 + i)), (Nat.leb_spec (lo - length l1) i);
      try lia; cbn [andb]; [|reflexivity].
    destruct (Nat.ltb_spec (length l1 + i) hi), (Nat.ltb_spec i (hi - length l1));
      try lia; [|reflexivity].
    do 2 f_equal. lia.
Qed.

Lemma add_region_zeros lo hi (a : Q) (k : nat) :
  (lo <= hi)%nat -> (hi <= k)%nat ->
  add_region lo hi (fun _ => a) (zeros k) =
  zeros lo ++ repeat (0 + a) (hi - lo) ++ zeros (k - hi).
Proof.
  intros H1 H2. unfold add_region, zeros. rewrite imap_repeat.
  replace k with (lo + ((hi - lo) + (k - hi)))%nat at 1 by lia.
  rewrite !seq_app, !map_app. f_equal; [|f_equal].
  - apply map_seq_const. intros i Hi.
    destruct (Nat.leb_spec lo i); [lia|reflexivity].
  - apply map_seq_const. intros i Hi.
    destruct (Nat.leb_spec lo i); [|lia].
    destruct (Nat.ltb_spec i hi); [|lia]. reflexivity.
  - apply map_seq_const. intros i Hi.
    destruct (Nat.leb_spec lo i); [|lia].
    destruct (Nat.ltb_spec i hi); [lia|]. reflexivity.
Qed.

Lemma separated_ahead c n specs : separated c n specs -> ahead (S c) n specs.
Proof.
  destruct specs as [|[[first count] a] rest]; [auto|].
  cbn. intros (? & ? & ? & ? & ?). repeat split; auto.
Qed.

Lemma ahead_weaken c c' n specs : (c' <= c)%nat -> ahead c n specs -> ahead c' n specs.
Proof.
  destruct specs as [|[[first count] a] rest]; [auto|].
  cbn. intros ? (? & ? & ? & ? & ?). repeat split; auto. lia.
Qed.

Lemma length_zeros k : length (zeros k) = k.
Proof. apply repeat_length. Qed.

Lemma length_layout n specs : forall c,
  ahead c n specs -> (c <= n)%nat -> length (layout c n specs) = (n - c)%nat.
Proof.
  induction specs as [|[[first count] a] rest IH]; intros c H Hc; cbn [layout].
  - apply length_zeros.
  - destruct H as (H1 & H2 & H3 & H4 & H5).
    rewrite !length_app, length_zeros, repeat_length, IH; [lia| |lia].
    apply ahead_weaken with (S (first + count)); [lia|]. now apply separated_ahead.
Qed.

Lemma eval_pulses_layout (root : attrs) origin step u' n specs : forall pulses c done,
  _start_time root == 0 -> ~ step == 0 ->
  Forall2 (on_grid origin step) specs pulses ->
  length done = c -> (c <= n)%nat ->
  ahead c n specs ->
  eval_children'' [root] pulses Round
    (mkTSeries (done ++ zeros (n - c)) (Some origin) (Some step) None None u') =
  Ok (mkTSeries (done ++ layout c n specs) (Some origin) (Some step) None None u').
Proof.
  induction specs as [|[[first count] a] rest IH];
    intros pulses c done Hroot Hdt Hg Hd Hc H.
  { inversion Hg. reflexivity. }
  destruct pulses as [|p ps]; [inversion Hg|].
  apply Forall2_cons_iff in Hg as [Hp Hps]. subst c.
  cbn [eval_children layout].
  destruct H as (H1 & H2 & H3 & H4 & H5).
  rewrite (eval_grid_pulse root
             (mkTSeries (done ++ zeros (n - length done)) (Some origin) (Some step) None None u')
             origin step first count a p Hroot eq_refl Hdt Hp).
  2:{ cbn [data]. rewrite length_app, length_zeros. lia. }
  cbn [bind data set_data t0 dt sample_rate time_values ts_units].
  rewrite add_region_skip by lia.
  rewrite add_region_zeros by lia.
  replace (first + count - length done - (first - length done))%nat with count by lia.
  replace (n - length done - (first + count - length done))%nat
    with (n - (first + count))%nat by lia.
  rewrite !app_assoc. unfold set_data. cbn [t0 dt sample_rate time_values ts_units].
  rewrite (IH ps (first + count)%nat); auto.
  - rewrite !length_app, length_zeros, repeat_length. lia.
  - apply ahead_weaken with (S (first + count)); [lia|]. now apply separated_ahead.
Qed.

(** *** The boundaries of the buffer *)

Lemma boundaries_cons (x : Q) (l : list Q) : boundaries (x :: l) = changes_from x 1 l.
Proof.
  unfold boundaries. generalize 0%nat. revert x.
  induction l as [|y l IH]; intros x i; [reflexivity|].
  change (np_diff (x :: y :: l)) with ((y - x) :: np_diff (y :: l)).
  cbn [argwhere changes_from]. destruct (negb (Qeq_bool (y - x) 0)); cbn [map].
  - f_equal. apply IH.
  - apply IH.
Qed.

Lemma nonzero_test (x : Q) : negb (Qeq_bool x 0) = true <-> ~ x == 0.
Proof.
  rewrite negb_true_iff. split.
  - intros H E. apply Qeq_bool_iff in E. congruence.
  - intros H. destruct (Qeq_bool x 0) eqn:E; [|reflexivity].
    exfalso. apply H. now apply Qeq_bool_iff.
Qed.

Lemma zero_test (x : Q) : negb (Qeq_bool x 0) = false <-> x == 0.
Proof.
  rewrite negb_false_iff. apply Qeq_bool_iff.
Qed.

Lemma changes_from_proper (p p' : Q) i l :
  p == p' -> changes_from p i l = changes_from p' i l.
Proof.
  intros Hp. destruct l as [|x l]; [reflexivity|]. cbn.
  replace (Qeq_bool (x - p') 0) with (Qeq_bool (x - p) 0); [reflexivity|].
  destruct (Qeq_bool (x - p) 0) eqn:E1, (Qeq_bool (x - p') 0) eqn:E2; try reflexivity.
  - apply Qeq_bool_iff in E1. rewrite Hp in E1. apply Qeq_bool_iff in E1. congruence.
  - apply Qeq_bool_iff in E2. rewrite <- Hp in E2. apply Qeq_bool_iff in E2. congruence.
Qed.

Lemma changes_from_same (p v : Q) i m rest :
  p == v -> changes_from p i (repeat v m ++ rest) = changes_from v (i + m) rest.
Proof.
  revert p i. induction m as [|m IH]; intros p i Hp; cbn [repeat app].
  - rewrite Nat.add_0_r. now apply changes_from_proper.
  - cbn [changes_from].
    assert (E : negb (Qeq_bool (v - p) 0) = false) by (apply zero_test; rewrite Hp; ring).
    rewrite E, IH by reflexivity. f_equal. lia.
Qed.

Lemma changes_from_jump (p v : Q) i m rest :
  ~ v == p -> (1 <= m)%nat ->
  changes_from p i (repeat v m ++ rest) = i :: changes_from v (i + m) rest.
Proof.
  intros Hp Hm. destruct m as [|m]; [lia|]. cbn [repeat app changes_from].
  assert (E : negb (Qeq_bool (v - p) 0) = true).
  { apply nonzero_test. intros H. apply Hp.
    assert (Hv : v == (v - p) + p) by ring. rewrite Hv, H. ring. }
  rewrite E, changes_from_same by reflexivity. do 2 f_equal. lia.
Qed.

Lemma layout_step c n specs :
  (c < n)%nat -> ahead (S c) n specs -> layout c n specs = 0 :: layout (S c) n specs.
Proof.
  intros Hc H. destruct specs as [|[[first count] a] rest]; cbn [layout].
  - replace (n - c)%nat with (S (n - S c)) by lia. reflexivity.
  - destruct H as (H1 & _). replace (first - c)%nat with (S (first - S c)) by lia.
    reflexivity.
Qed.

Lemma separated_end n specs : separated n n specs -> specs = [].
Proof.
  destruct specs as [|[[first count] a] rest]; [reflexivity|].
  cbn. intros (? & ? & ? & _). lia.
Qed.

Lemma changes_layout n specs : forall c p,
  p == 0 -> ahead c n specs ->
  changes_from p c (layout c n specs) = edges n specs.
Proof.
  induction specs as [|[[first count] a] rest IH]; intros c p Hp H; cbn [layout edges].
  - rewrite <- (app_nil_r (zeros _)). unfold zeros. now rewrite changes_from_same.
  - destruct H as (H1 & H2 & H3 & H4 & H5).
    unfold zeros. rewrite changes_from_same by exact Hp.
    rewrite changes_from_jump; [| |exact H2].
    2:{ intros E. apply H4. rewrite <- E. ring. }
    replace (c + (first - c))%nat with first by lia. f_equal.
    destruct (Nat.ltb_spec (first + count) n) as [Hlt|Hge].
    + rewrite layout_step by (auto using separated_ahead).
      cbn [changes_from app].
      assert (E : negb (Qeq_bool (0 - (0 + a)) 0) = true).
      { apply nonzero_test. intros E. apply H4.
        assert (Ha : a == - (0 - (0 + a))) by ring. rewrite Ha, E. reflexivity. }
      rewrite E. f_equal. apply IH; [reflexivity|]. now apply separated_ahead.
    + assert (first + count = n)%nat as Hn by lia. rewrite Hn in *.
      rewrite (separated_end _ _ H5). cbn. rewrite Nat.sub_diag. reflexivity.
Qed.

(** *** The samples at the boundaries *)

Lemma nth_zeros k i : nth i (zeros k) 0 = 0.
Proof.
  unfold zeros. revert i. induction k as [|k IH]; intros [|i]; cbn; auto.
Qed.

Lemma nth_layout_first c n first count a rest :
  (c <= first)%nat -> (1 <= count)%nat ->
  nth (first - c) (layout c n ((first, count, a) :: rest)) 0 = 0 + a.
Proof.
  intros H1 H2. cbn [layout].
  rewrite app_nth2; rewrite length_zeros; [|lia].
  replace (first - c - (first - c))%nat with 0%nat by lia.
  destruct count; [lia|]. reflexivity.
Qed.

Lemma nth_layout_later c n first count a rest x :
  (c <= first)%nat -> (first + count <= x)%nat ->
  nth (x - c) (layout c n ((first, count, a) :: rest)) 0 =
  nth (x - (first + count)) (layout (first + count) n rest) 0.
Proof.
  intros H1 H2. cbn [layout].
  rewrite app_nth2; rewrite length_zeros; [|lia].
  rewrite app_nth2; rewrite repeat_length; [|lia].
  f_equal. lia.
Qed.

Lemma nth_layout_gap c n specs : ahead (S c) n specs -> nth 0 (layout c n specs) 0 = 0.
Proof.
  intros H. destruct specs as [|[[first count] a] rest]; cbn [layout].
  - apply nth_zeros.
  - destruct H as (H1 & _). replace (first - c)%nat with (S (first - S c)) by lia.
    reflexivity.
Qed.


(** *** The loop over the boundaries *)

Lemma detect_layout trace origin step baseline n changes rest : forall pulses pre c,
  Forall2 (on_grid origin step) rest pulses ->
  timing_of trace = Ok (Regular origin step) ->
  length (data trace) = n ->
  baseline == 0 ->
  changes = pre ++ edges n rest ->
  ahead c n rest ->
  (forall x, (c <= x)%nat -> nth x (data trace) 0 = nth (x - c) (layout c n rest) 0) ->
  Forall2 pulse_matches pulses
    (flat_map (fun '(i, start) =>
                 detected_at trace (Regular origin step) baseline changes i start)
       (combine (seq (length pre) (length (edges n rest))) (edges n rest))).
Proof.
  induction rest as [|[[first count] a] rest IH];
    intros pulses pre c Hg Ht Hn Hb Hch Hah Hag.
  { inversion Hg. constructor. }
  destruct pulses as [|p ps]; [inversion Hg|].
  apply Forall2_cons_iff in Hg as [Hp Hps].
  destruct Hah as (H1 & H2 & H3 & H4 & H5).
  destruct Hp as (st & dur & desc & u & -> & Hst & Hdur).
  assert (Hfirst : nth first (data trace) 0 = 0 + a).
  { rewrite (Hag first) by lia. now apply nth_layout_first. }
  assert (Hlater : forall x, (first + count <= x)%nat ->
                     nth x (data trace) 0 =
                     nth (x - (first + count)) (layout (first + count) n rest) 0).
  { intros x Hx. rewrite (Hag x) by lia. now apply nth_layout_later. }
  assert (Hstop : (if Nat.ltb (length pre + 1) (length changes)
                   then nth (length pre + 1) changes 0%nat
                   else length (data trace)) = (first + count)%nat).
  { rewrite Hch. cbn [edges]. rewrite length_app. cbn [length].
    destruct (Nat.ltb_spec (first + count) n) as [Hlt|Hge].
    - cbn [app length].
      destruct (Nat.ltb_spec (length pre + 1) (length pre + S (S (length (edges n rest)))));
        [|lia].
      rewrite app_nth2 by lia.
      replace (length pre + 1 - length pre)%nat with 1%nat by lia. reflexivity.
    - assert (first + count = n)%nat as Hn' by lia. rewrite Hn' in H5.
      rewrite (separated_end _ _ H5). cbn [edges app length].
      destruct (Nat.ltb_spec (length pre + 1) (length pre + 1)); lia. }
  cbn [edges]. cbn [length seq combine flat_map].
  assert (Hdet : detected_at trace (Regular origin step) baseline changes (length pre) first =
                 [set_pulse_number (length pre)
                    (SquarePulse__init__ (origin + inject_Z (Z.of_nat first) * step)
                       (inject_Z (Z.of_nat (first + count) - Z.of_nat first) * step)
                       (0 + a - baseline) "square pulse" (ts_units trace))]).
  { unfold detected_at. rewrite Hfirst, Hstop.
    assert (E : negb (Qeq_bool (0 + a - baseline) 0) = true).
    { apply nonzero_test. rewrite Hb. intros E. apply H4. rewrite <- E. ring. }
    rewrite E. reflexivity. }
  rewrite Hdet. cbn [app]. constructor.
  - (* the pulse found at the first boundary matches *)
    unfold pulse_matches. cbn. split; [reflexivity|].
    split; [rewrite Hst; reflexivity|]. split.
    + replace (Z.of_nat (first + count) - Z.of_nat first)%Z with (Z.of_nat count) by lia.
      rewrite Hdur. reflexivity.
    + exists a, (0 + a - baseline). repeat split. rewrite Hb. ring.
  - (* the boundary after the pulse gives nothing; go on with the rest *)
    destruct (Nat.ltb_spec (first + count) n) as [Hlt|Hge].
    + cbn [app length seq combine flat_map].
      assert (Hnone : detected_at trace (Regular origin step) baseline changes
                        (S (length pre)) (first + count) = []).
      { unfold detected_at. rewrite (Hlater (first + count)%nat) by lia.
        rewrite Nat.sub_diag, nth_layout_gap by (now apply separated_ahead).
        assert (E : negb (Qeq_bool (0 - baseline) 0) = false).
        { apply zero_test. rewrite Hb. ring. }
        rewrite E. reflexivity. }
      rewrite Hnone. cbn [app].
      replace (S (S (length pre))) with (length (pre ++ [first; (first + count)%nat]))
        by (rewrite length_app; cbn; lia).
      apply (IH ps (pre ++ [first; (first + count)%nat]) (first + count)%nat); auto.
      * rewrite Hch. cbn [edges].
        destruct (Nat.ltb_spec (first + count) n); [|lia].
        rewrite <- app_assoc. reflexivity.
      * apply ahead_weaken with (S (first + count)); [lia|]. now apply separated_ahead.
    + assert (first + count = n)%nat as Hn' by lia. rewrite Hn' in H5.
      rewrite (separated_end _ _ H5) in Hps |- *. inversion Hps. constructor.
Qed.


(** C3 (as amended).  Square pulses that sit on the sample grid of the
    trace, in increasing order, each at least one sample long and of
    non-zero amplitude, the first one after sample 0, the last one within
    the trace, and apart from one another by at least one sample, are
    recovered by exact detection from their evaluation: one detected pulse
    per evaluated pulse, with the same start time, duration and
    amplitude. *)
Theorem detection_recovers_separated_pulses (n : nat) (step : Q) (origin : option Q)
    (u : option string) (specs : list (nat * nat * Q)) (pulses : list stim) :
  (1 <= n)%nat -> ~ step == 0 ->
  separated 0 n specs ->
  Forall2 (on_grid (default 0 origin) step) specs pulses ->
  detection_inverts np_sin np_log np_power np_pi psp_func search_index u pulses
    (Kwds None (Some n) (Some step) None origin None None).
Proof.
  intros Hn Hstep Hsep Hgrid. unfold detection_inverts.
  set (o := default 0 origin).
  assert (Hah : ahead 1 n specs) by now apply separated_ahead.
  assert (Heval : eval'' [] (Stimulus__init__ "stimulus" 0 u pulses)
                    (Kwds None (Some n) (Some step) None origin None None) =
                  Ok (mkTSeries (layout 0 n specs) (Some o) (Some step) None None u)).
  { unfold Stimulus__init__. rewrite eval_unfold. cbv zeta.
    cbn [kw_index_mode kw_time_values kw_t0 kw_trace kw_n_pts kw_dt kw_sample_rate
         _make_eval_trace bind units].
    change (default Round None) with Round.
    replace (match origin with Some q => Some q | None => Some 0 end) with (Some o)
      by (subst o; destruct origin; reflexivity).
    pose proof (eval_pulses_layout (Attrs "stimulus" 0 u 0 F_Stimulus) o step u n
                  specs pulses 0%nat [] (Qeq_refl 0) Hstep Hgrid eq_refl (Nat.le_0_l n)
                  (ahead_weaken 1 0 n specs (Nat.le_0_l 1) Hah)) as He.
    cbn [app] in He. rewrite Nat.sub_0_r in He. rewrite He. reflexivity. }
  eexists. eexists. split; [exact Heval|].
  assert (Hdata : layout 0 n specs = 0 :: layout 1 n specs) by (apply layout_step; [lia|exact Hah]).
  rewrite (find_square_pulses_timed
             (mkTSeries (layout 0 n specs) (Some o) (Some step) None None u)
             (Regular o step) None 0 eq_refl).
  2:{ right. split; [reflexivity|]. cbn [data]. rewrite Hdata. reflexivity. }
  split; [reflexivity|]. unfold recovers. cbn [data].
  assert (Hb : boundaries (layout 0 n specs) = edges n specs).
  { rewrite Hdata, boundaries_cons. apply changes_layout; [reflexivity|exact Hah]. }
  rewrite Hb. unfold enumerate.
  apply (detect_layout
           (mkTSeries (layout 0 n specs) (Some o) (Some step) None None u)
           o step 0 n (edges n specs) specs pulses [] 0%nat).
  - exact Hgrid.
  - reflexivity.
  - cbn [data]. rewrite length_layout; [lia| |lia]. eapply ahead_weaken; [|exact Hah]. lia.
  - reflexivity.
  - reflexivity.
  - eapply ahead_weaken; [|exact Hah]. lia.
  - intros x _. cbn [data]. now rewrite Nat.sub_0_r.
Qed.

End Recovery.

Lemma detection_recovers_separated_pulses_witness :
  let pulse := SquarePulse__init__ (1 # 100) (1 # 100) (-50 # 1000000000000) "square pulse" None in
  separated 0 1000 [(10%nat, 10%nat, -50 # 1000000000000)] /\
  Forall2 (on_grid 0 (1 # 1000)) [(10%nat, 10%nat, -50 # 1000000000000)] [pulse] /\
  detection_inverts (fun x => x) (fun x => x) Qmult 3 (fun x _ _ _ _ _ _ => x)
    (fun _ _ _ => 0%Z) (Some "A") [pulse]
    (Kwds None (Some 1000%nat) (Some (1 # 1000)) None None None None).
Proof.
  cbv zeta.
  assert (Hsep : separated 0 1000 [(10%nat, 10%nat, -50 # 1000000000000)]).
  { cbn. repeat split; try lia. intros H. discriminate H. }
  assert (Hgrid : Forall2 (on_grid 0 (1 # 1000)) [(10%nat, 10%nat, -50 # 1000000000000)]
                    [SquarePulse__init__ (1 # 100) (1 # 100) (-50 # 1000000000000)
                       "square pulse" None]).
  { constructor; [|constructor].
    exists (1 # 100), (1 # 100), "square pulse", None.
    split; [reflexivity|]. split; reflexivity. }
  split; [exact Hsep|]. split; [exact Hgrid|].
  apply (detection_recovers_separated_pulses (fun x => x) (fun x => x) Qmult 3
           (fun x _ _ _ _ _ _ => x) (fun _ _ _ => 0%Z) 1000 (1 # 1000) None (Some "A")
           [(10%nat, 10%nat, -50 # 1000000000000)] _ ltac:(lia) ltac:(discriminate)
           Hsep Hgrid).
Defined.

(** Two pulses that overlap: the buffer holds three runs that differ from
    the baseline, and three pulses are detected. *)
Lemma overlapping_pulses_not_recovered :
  ~ detection_inverts (fun x => x) (fun x => x) Qmult 3 (fun x _ _ _ _ _ _ => x)
      (fun _ _ _ => 0%Z) None
      [SquarePulse__init__ 2 4 1 "square pulse" None;
       SquarePulse__init__ 4 4 1 "square pulse" None]
      (Kwds None (Some 10%nat) (Some 1) None None None None).
Proof.
  intros (trace & found & He & Hf & Hr).
  vm_compute in He. inversion He; subst trace; clear He.
  vm_compute in Hf. inversion Hf; subst found; clear Hf.
  apply Forall2_length in Hr. discriminate Hr.
Qed.

(** ** Timing arguments of [eval] and [mask] *)

Section TimingArguments.

Variable np_sin : Q -> Q.
Variable np_log : Q -> Q.
Variable np_power : Q -> Q -> Q.
Variable np_pi : Q.
Variable psp_func : Q -> Q -> Q -> Q -> Q -> Q -> Q -> Q.
Variable search_index : list Q -> Q -> index_mode -> Z.

#[local] Abbreviation eval_ := (eval np_sin np_log np_power np_pi psp_func search_index).
#[local] Abbreviation mask_ := (mask search_index).










(** That a sample count comes with a step or a rate is not checked by
    [eval] or [mask]: a plain stimulus without children, called with a
    sample count alone, returns a series of zeros that has no step. *)
Lemma sample_count_alone (n : nat) (desc : string) (st : Q)
    (u : option string) (mode : option index_mode) :
  let s := Stimulus__init__ desc st u [] in
  let kw := Kwds None (Some n) None None None None mode in
  eval_ [] s kw = Ok (mkTSeries (zeros n) (Some 0%Q) None None None u) /\
  mask_ [] s kw = Ok (mkTSeries (zeros n) None None None None u).
Proof. cbv zeta. split; reflexivity. Qed.

End TimingArguments.


(** ** Detection in noise *)

Section NoisyProps.
Local Open Scope Q_scope.

Variable np_std : list Q -> Q.

Lemma Qlt_bool_iff (a b : Q) : Qlt_bool a b = true <-> a < b.
Proof.
  unfold Qlt_bool. rewrite negb_true_iff. split.
  - intros H. apply Qnot_le_lt. intros Hle. apply Qle_bool_iff in Hle. congruence.
  - intros H. destruct (Qle_bool b a) eqn:E; [|reflexivity].
    apply Qle_bool_iff in E. exfalso. exact (Qlt_not_le _ _ H E).
Qed.

Lemma noisy_step_kept trace bm md ma changes pulses stop i start pulses' stop' :
  Forall (kept md ma) pulses ->
  noisy_step trace bm md ma changes (pulses, stop) i start = Ok (pulses', stop') ->
  Forall (kept md ma) pulses'.
Proof.
  intros Hk. unfold noisy_step.
  destruct (Nat.ltb 0 (length pulses) && Nat.leb start stop).
  { intros H. inversion H; subst. exact Hk. }
  destruct (time_at trace start) as [t|]; cbn [bind]; [|discriminate].
  destruct (ts_dt trace) as [d|]; cbn [bind]; [|discriminate].
  destruct (Qlt_bool md _) eqn:E1; cbn [andb].
  - destruct (Qlt_bool ma _) eqn:E2; intros H; inversion H; subst; [|exact Hk].
    apply Forall_app. split; [exact Hk|]. constructor; [|constructor].
    split.
    + apply Qlt_bool_iff in E1. exact E1.
    + eexists. split; [reflexivity|]. apply Qlt_bool_iff in E2. exact E2.
  - intros H; inversion H; subst. exact Hk.
Qed.

Lemma noisy_loop_kept trace bm md ma changes todo : forall pulses stop pulses' stop',
  Forall (kept md ma) pulses ->
  noisy_loop trace bm md ma changes (pulses, stop) todo = Ok (pulses', stop') ->
  Forall (kept md ma) pulses'.
Proof.
  induction todo as [|[i start] todo IH]; intros pulses stop pulses' stop' Hk;
    cbn [noisy_loop].
  - intros H. inversion H; subst. exact Hk.
  - destruct (noisy_step trace bm md ma changes (pulses, stop) i start)
      as [[ps st]|] eqn:E; cbn [bind]; [|discriminate].
    apply IH. eapply noisy_step_kept; eauto.
Qed.

Lemma find_noisy_square_pulses_kept trace baseline k md ma pulses :
  find_noisy_square_pulses np_std trace baseline k md ma = Ok pulses ->
  Forall (kept md ma) pulses.
Proof.
  unfold find_noisy_square_pulses. cbv zeta.
  destruct (noisy_loop _ _ _ _ _ _ _) as [[ps st]|] eqn:E; cbn [bind]; [|discriminate].
  intros H. inversion H; subst.
  eapply noisy_loop_kept; [|exact E]. constructor.
Qed.

(** C7.  Seven samples 0, 0, 10, 10, 10, 0, 0 at step 1, with the baseline
    array (1, -1) (mean 0, standard deviation 1) and the default
    [std_threshold] 5: one segment is detected, from sample 2 to sample
    5, of duration 3 and amplitude 10.  It is returned when
    [min_duration] is 2, and discarded when [min_duration] is 3, its own
    duration, or when [min_amplitude] is 10, its own amplitude: the
    comparisons are strict. *)
Theorem noisy_detection_drops_boundary_pulse :
  np_std [1; -1] = 1 ->
  let trace := mkTSeries [0; 0; 10; 10; 10; 0; 0] (Some 0) (Some 1) None None None in
  (exists p,
     find_noisy_square_pulses np_std trace (Some [1; -1]) 5 2 0 = Ok [p] /\
     start_time p == 2 /\ duration p == 3 /\
     exists a, amplitude_of p = Some a /\ a == 10) /\
  find_noisy_square_pulses np_std trace (Some [1; -1]) 5 3 0 = Ok [] /\
  find_noisy_square_pulses np_std trace (Some [1; -1]) 5 0 10 = Ok [].
Proof.
  intros Hstd. cbv zeta. unfold find_noisy_square_pulses. cbv zeta. rewrite Hstd.
  split; [|split].
  - eexists. split; [vm_compute; reflexivity|]. cbn.
    split; [reflexivity|]. split; [reflexivity|].
    eexists. split; reflexivity.
  - vm_compute. reflexivity.
  - vm_compute. reflexivity.
Qed.

End NoisyProps.

Lemma noisy_detection_drops_boundary_pulse_witness :
  find_noisy_square_pulses (fun _ => 1%Q)
    (mkTSeries [0; 0; 10; 10; 10; 0; 0]%Q (Some 0%Q) (Some 1%Q) None None None)
    (Some [1; -1]%Q) 5 3 0 = Ok [].
Proof.
  apply (noisy_detection_drops_boundary_pulse (fun _ => 1%Q) eq_refl).
Defined.

(** ** The ends of a chirp *)

Section ChirpEnds.
Import RChirp.
Local Open Scope R_scope.

Lemma fl_log_positive (r : R) : 0 < r -> fl_log r = Fin (ln r).
Proof. intros H. unfold fl_log. destruct (Rlt_dec 0 r); [reflexivity|contradiction]. Qed.

Lemma fl_div_finite (x y : R) : y <> 0 -> fl_div (Fin x) (Fin y) = Fin (x / y).
Proof. intros H. cbn. destruct (Req_dec_T y 0); [contradiction|reflexivity]. Qed.

Lemma fl_pow_positive (r y : R) : 0 < r -> fl_pow r (Fin y) = Fin (Rpower r y).
Proof. intros H. cbn. destruct (Rlt_dec 0 r); [reflexivity|contradiction]. Qed.

Lemma ln_nonzero (r : R) : 0 < r -> r <> 1 -> ln r <> 0.
Proof.
  intros Hr Hne H. apply Hne. apply ln_inv; [exact Hr|lra|]. now rewrite ln_1.
Qed.

Lemma frequency_at_regular (d f0 f1 t : R) :
  f0 <> 0 -> 0 < f1 / f0 -> f1 <> f0 -> d <> 0 ->
  frequency_at d f0 f1 t = Fin (f0 * Rpower (f1 / f0) (t / d)).
Proof.
  intros Hf0 Hr Hne Hd. unfold frequency_at, _kr.
  destruct (Req_dec_T f0 0) as [E|_]; [contradiction|].
  assert (Hr1 : f1 / f0 <> 1).
  { intros E. apply Hne. apply (f_equal (fun x => x * f0)) in E.
    unfold Rdiv in E. rewrite Rmult_assoc, Rinv_l, Rmult_1_r, Rmult_1_l in E by exact Hf0.
    exact E. }
  pose proof (ln_nonzero _ Hr Hr1) as Hln.
  rewrite fl_log_positive by exact Hr.
  rewrite fl_div_finite by exact Hln.
  cbn [fl_mul].
  rewrite fl_div_finite by exact Hd.
  rewrite fl_pow_positive by exact Hr.
  cbn [fl_mul].
  assert (Hpi : 2 * PI * d <> 0).
  { pose proof PI_RGT_0. intros E. apply Rmult_integral in E as [E|E]; [lra|contradiction]. }
  rewrite fl_div_finite by exact Hpi.
  f_equal. field. repeat split; auto. pose proof PI_RGT_0. lra.
Qed.

(** C9 (as amended).  For a chirp whose frequencies are non-zero, of the
    same sign and different from each other, and whose duration is not
    zero, [frequency_at(0)] is [start_frequency] and
    [frequency_at(duration)] is [end_frequency]. *)
Theorem frequency_at_ends (d f0 f1 : R) :
  f0 <> 0 -> 0 < f1 / f0 -> f1 <> f0 -> d <> 0 ->
  frequency_at d f0 f1 0 = Fin f0 /\ frequency_at d f0 f1 d = Fin f1.
Proof.
  intros Hf0 Hr Hne Hd. rewrite !frequency_at_regular by assumption. split; f_equal.
  - unfold Rdiv at 2. rewrite Rmult_0_l, Rpower_O by exact Hr. ring.
  - unfold Rdiv at 2. rewrite Rinv_r, Rpower_1 by assumption. field. exact Hf0.
Qed.

Lemma frequency_at_ends_witness :
  frequency_at 1 1 2 0 = Fin 1 /\ frequency_at 1 1 2 1 = Fin 2.
Proof.
  apply (frequency_at_ends 1 1 2); lra.
Defined.

(** A chirp from 1 Hz to 1 Hz: [r] is 1, its logarithm 0, [k] infinite,
    and the frequency at 0 is infinity times zero. *)
Lemma constant_chirp_has_no_frequency :
  (1 <> 0 /\ 1 <> 0) /\ frequency_at 1 1 1 0 = NaN /\ frequency_at 1 1 1 0 <> Fin 1.
Proof.
  assert (H : frequency_at 1 1 1 0 = NaN).
  { unfold frequency_at, _kr.
    destruct (Req_dec_T 1 0) as [E|_]; [lra|].
    replace (1 / 1) with 1 by field.
    rewrite fl_log_positive by lra. rewrite ln_1.
    cbn [fl_div]. destruct (Req_dec_T 0 0) as [_|E]; [|contradiction].
    unfold signed_inf. pose proof PI_RGT_0.
    destruct (Rlt_dec 0 (2 * PI * 1 * 1)) as [_|E]; [|lra].
    cbn [fl_mul]. unfold signed_inf.
    destruct (Rlt_dec 0 0) as [E|_]; [lra|]. reflexivity. }
  split; [split; lra|]. split; [exact H|]. rewrite H. discriminate.
Qed.

End ChirpEnds.
(** ** Parents and children in the object store *)

Section StoreFuel.
Import Store.
Local Open Scope nat_scope.

Lemma eq_unfold fuel s self other :
  eq (S fuel) s self other =
  match s !! self, s !! other with
  | Some a, Some b =>
      let c := fields_cls (extra (o_attrs a)) in
      if negb (cls_eqb c (fields_cls (extra (o_attrs b)))) then Some (Ok false)
      else if negb (Nat.eqb (length (_items a)) (length (_items b))) then Some (Ok false)
      else
        match attrs_loop (o_attrs a) (o_attrs b) (_attributes c) with
        | Raise e => Some (Raise e)
        | Ok false => Some (Ok false)
        | Ok true =>
            (fix items_loop (xs ys : list ref) : option (res bool) :=
               match xs, ys with
               | x :: xs', y :: ys' =>
                   match eq fuel s x y with
                   | Some (Ok true) => items_loop xs' ys'
                   | r => r
                   end
               | _, _ => Some (Ok true)
               end) (_items a) (_items b)
        end
  | _, _ => Some (Raise AttributeError)
  end.
Proof. reflexivity. Qed.

Lemma eq_more_fuel fuel : forall s a b r,
  eq fuel s a b = Some r -> eq (S fuel) s a b = Some r.
Proof.
  induction fuel as [|fuel IH]; intros s a b r H; [discriminate|].
  rewrite eq_unfold in H. rewrite eq_unfold. cbv zeta in *.
  destruct (s !! a) as [oa|]; [|exact H].
  destruct (s !! b) as [ob|]; [|exact H].
  destruct (negb (cls_eqb _ _)); [exact H|].
  destruct (negb (Nat.eqb _ _)); [exact H|].
  destruct (attrs_loop _ _ _) as [[|]|]; try exact H.
  revert H. generalize (_items ob). generalize (_items oa).
  induction l as [|x xs IHxs]; intros [|y ys] H; try exact H.
  destruct (eq fuel s x y) as [[[|]|]|] eqn:E.
  - rewrite (IH _ _ _ _ E). now apply IHxs.
  - rewrite (IH _ _ _ _ E). exact H.
  - rewrite (IH _ _ _ _ E). exact H.
  - discriminate.
Qed.

Lemma contains_more_fuel fuel s item l r :
  contains fuel s item l = Some r -> contains (S fuel) s item l = Some r.
Proof.
  induction l as [|e l IH]; intros H; [exact H|].
  cbn [contains] in *. destruct (Nat.eqb e item); [exact H|].
  destruct (eq fuel s e item) as [[[|]|]|] eqn:E; try discriminate;
    rewrite (eq_more_fuel _ _ _ _ _ E); auto.
Qed.

Lemma list_remove_more_fuel fuel s item l r :
  list_remove fuel s item l = Some r -> list_remove (S fuel) s item l = Some r.
Proof.
  revert r. induction l as [|e l IH]; intros r H; [exact H|].
  cbn [list_remove] in *. destruct (Nat.eqb e item); [exact H|].
  destruct (eq fuel s e item) as [[[|]|]|] eqn:E; try discriminate;
    rewrite (eq_more_fuel _ _ _ _ _ E); auto.
  destruct (list_remove fuel s item l) as [[l''|e']|] eqn:El; try discriminate;
    rewrite (IH _ eq_refl); exact H.
Qed.

(** A call that ends with some fuel ends the same way with more. *)
Lemma calls_more_fuel fuel :
  (forall self np s o, set_parent fuel self np s = o -> o <> OutOfFuel ->
                       set_parent (S fuel) self np s = o) /\
  (forall self item s o, append_item fuel self item s = o -> o <> OutOfFuel ->
                         append_item (S fuel) self item s = o) /\
  (forall self item s o, remove_item fuel self item s = o -> o <> OutOfFuel ->
                         remove_item (S fuel) self item s = o).
Proof.
  induction fuel as [|fuel (IHs & IHa & IHr)].
  { repeat split; intros; subst; cbn in *; congruence. }
  split; [|split].
  - intros self np s o H Ho. cbn [set_parent] in H. cbn [set_parent].
    destruct (decide (parent s self = np)); [exact H|].
    destruct (parent s self) as [op|].
    + destruct (remove_item fuel op self (set__parent s self np)) as [s'|e s'|] eqn:Er.
      * rewrite (IHr _ _ _ _ Er) by discriminate.
        destruct np as [p|]; [|exact H].
        destruct (contains fuel s' self (items s' p)) as [[[|]|]|] eqn:Ec;
          try (rewrite (contains_more_fuel _ _ _ _ _ Ec); exact H).
        -- rewrite (contains_more_fuel _ _ _ _ _ Ec). now apply IHa.
        -- congruence.
      * rewrite (IHr _ _ _ _ Er) by discriminate.
        destruct e; try exact H.
        destruct np as [p|]; [|exact H].
        destruct (contains fuel s' self (items s' p)) as [[[|]|]|] eqn:Ec;
          try (rewrite (contains_more_fuel _ _ _ _ _ Ec); exact H).
        -- rewrite (contains_more_fuel _ _ _ _ _ Ec). now apply IHa.
        -- congruence.
      * congruence.
    + destruct np as [p|]; [|exact H].
      destruct (contains fuel _ self _) as [[[|]|]|] eqn:Ec;
        try (rewrite (contains_more_fuel _ _ _ _ _ Ec); exact H).
      * rewrite (contains_more_fuel _ _ _ _ _ Ec). now apply IHa.
      * congruence.
  - intros self item s o H Ho. cbn [append_item] in *. now apply IHs.
  - intros self item s o H Ho. cbn [remove_item] in *.
    destruct (list_remove fuel s item (items s self)) as [[l|e]|] eqn:El.
    + rewrite (list_remove_more_fuel _ _ _ _ _ El). now apply IHs.
    + rewrite (list_remove_more_fuel _ _ _ _ _ El). exact H.
    + congruence.
Qed.


Lemma set_parent_enough_fuel n fuel self np s :
  set_parent fuel self np s <> OutOfFuel ->
  set_parent (fuel + n) self np s = set_parent fuel self np s.
Proof.
  intros H. induction n as [|n IH]; [now rewrite Nat.add_0_r|].
  rewrite Nat.add_succ_r.
  apply (proj1 (calls_more_fuel (fuel + n))); [exact IH|exact H].
Qed.

Lemma append_item_enough_fuel n fuel self item s :
  append_item fuel self item s <> OutOfFuel ->
  append_item (fuel + n) self item s = append_item fuel self item s.
Proof.
  intros H. induction n as [|n IH]; [now rewrite Nat.add_0_r|].
  rewrite Nat.add_succ_r.
  apply (proj1 (proj2 (calls_more_fuel (fuel + n)))); [exact IH|exact H].
Qed.

Lemma remove_item_enough_fuel n fuel self item s :
  remove_item fuel self item s <> OutOfFuel ->
  remove_item (fuel + n) self item s = remove_item fuel self item s.
Proof.
  intros H. induction n as [|n IH]; [now rewrite Nat.add_0_r|].
  rewrite Nat.add_succ_r.
  apply (proj2 (proj2 (calls_more_fuel (fuel + n)))); [exact IH|exact H].
Qed.

Lemma insert_item_enough_fuel n fuel self index item s :
  insert_item fuel self index item s <> OutOfFuel ->
  insert_item (fuel + n) self index item s = insert_item fuel self index item s.
Proof. apply set_parent_enough_fuel. Qed.

Lemma create_enough_fuel n fuel self a np s :
  create fuel self a np s <> OutOfFuel ->
  create (fuel + n) self a np s = create fuel self a np s.
Proof. apply set_parent_enough_fuel. Qed.

End StoreFuel.

Section StoreExamples.
Import Store.
Local Open Scope nat_scope.

Ltac run_calls :=
  repeat
    (cbn [andthen];
     match goal with
     | |- context [append_item (20 + ?n) ?a ?b ?s] =>
         let v := eval vm_compute in (append_item 20 a b s) in
         replace (append_item (20 + n) a b s) with v
           by (rewrite append_item_enough_fuel;
               [vm_compute; reflexivity | vm_compute; discriminate])
     | |- context [remove_item (20 + ?n) ?a ?b ?s] =>
         let v := eval vm_compute in (remove_item 20 a b s) in
         replace (remove_item (20 + n) a b s) with v
           by (rewrite remove_item_enough_fuel;
               [vm_compute; reflexivity | vm_compute; discriminate])
     | |- context [set_parent (20 + ?n) ?a ?b ?s] =>
         let v := eval vm_compute in (set_parent 20 a b s) in
         replace (set_parent (20 + n) a b s) with v
           by (rewrite set_parent_enough_fuel;
               [vm_compute; reflexivity | vm_compute; discriminate])
     | |- context [insert_item (20 + ?n) ?a ?i ?b ?s] =>
         let v := eval vm_compute in (insert_item 20 a i b s) in
         replace (insert_item (20 + n) a i b s) with v
           by (rewrite insert_item_enough_fuel;
               [vm_compute; reflexivity | vm_compute; discriminate])
     | |- context [create (20 + ?n) ?a ?att ?p ?s] =>
         let v := eval vm_compute in (create 20 a att p s) in
         replace (create (20 + n) a att p s) with v
           by (rewrite create_enough_fuel;
               [vm_compute; reflexivity | vm_compute; discriminate])
     end).

Ltac run_example :=
  eexists; split; [run_calls; reflexivity|]; repeat split; vm_compute; reflexivity.

(** Moving a child to another parent, by assignment, [append_item] or
    [insert_item], works when no sibling compares equal: the old parent
    loses it and the new parent lists it once. *)
Lemma reassigning_a_parent (n : nat) :
  let fuel := 20 + n in
  (exists s, andthen (append_item fuel 0 1 four_objects) (set_parent fuel 1 (Some 3)) = Done s /\
             items s 0 = [] /\ items s 3 = [1] /\ parent s 1 = Some 3 /\
             consistent s = true) /\
  (exists s, andthen (append_item fuel 0 1 four_objects) (append_item fuel 3 1) = Done s /\
             items s 0 = [] /\ items s 3 = [1] /\ parent s 1 = Some 3 /\
             consistent s = true) /\
  (exists s, andthen (append_item fuel 0 1 four_objects) (insert_item fuel 3 0 1) = Done s /\
             items s 0 = [] /\ items s 3 = [1] /\ parent s 1 = Some 3 /\
             consistent s = true).
Proof.
  cbv zeta. unfold four_objects. split; [|split]; run_example.
Qed.

(** C2.  The relation between parents and children does not survive every
    sequence of calls (with any fuel from 20 on the calls below return).
    Appending the same item twice lists it twice.  With two children that
    compare equal (same class and attributes), removing the second one
    removes both from the list, since [list.remove] and the [in] test of
    the parent setter go by [==], and leaves the first one with a parent
    that no longer lists it.  A pulse created with [parent=] is not listed
    by a parent that already holds an equal one. *)
Theorem parent_relation_breaks (n : nat) :
  let fuel := 20 + n in
  consistent four_objects = true /\
  (exists s, andthen (append_item fuel 0 1 four_objects) (append_item fuel 0 1) = Done s /\
             items s 0 = [1; 1] /\ parent s 1 = Some 0 /\
             consistent s = false) /\
  (exists s, andthen (andthen (append_item fuel 0 1 four_objects) (append_item fuel 0 2))
               (remove_item fuel 0 2) = Done s /\
             items s 0 = [] /\ parent s 1 = Some 0 /\ parent s 2 = None /\
             consistent s = false) /\
  (exists s, andthen (append_item fuel 0 1 four_objects)
               (create fuel 4 four_objects_pulse (Some 0)) = Done s /\
             items s 0 = [1] /\ parent s 4 = Some 0 /\
             consistent s = false).
Proof.
  cbv zeta. split; [vm_compute; reflexivity|].
  unfold four_objects. split; [|split]; run_example.
Qed.

End StoreExamples.

(* ===================================================================== *)
(** * Part III: further properties of the code                            *)
(* ===================================================================== *)

(** ** The class registry and what [save] needs *)

Lemma get_stimulus_class_found (name : string) (c : cls) :
  get_stimulus_class name = Ok c -> name = cls_name c.
Proof.
  unfold get_stimulus_class, _subclasses.
  destruct (_ !! name) as [c'|] eqn:E; [|discriminate].
  intros H. inversion H; subst c'. clear H.
  apply lookup_insert_Some in E as [[<- <-]|[_ E]]; [reflexivity|].
  apply elem_of_list_to_map_2 in E.
  cbn in E.
  repeat (apply elem_of_cons in E as [E|E]; [inversion E; reflexivity|]).
  inversion E.
Qed.

(** X1.  The class registry finds each of the ten classes by its name, and
    knows no other name: a name that is found is the name of the class
    returned, and a name that is not found raises [KeyError]. *)
Theorem get_stimulus_class_by_name :
  (forall c, get_stimulus_class (cls_name c) = Ok c) /\
  (forall name,
     (exists c, get_stimulus_class name = Ok c /\ name = cls_name c) \/
     get_stimulus_class name = Raise KeyError).
Proof.
  split.
  - intros []; vm_compute; reflexivity.
  - intros name. destruct (get_stimulus_class name) as [c|e] eqn:E.
    + left. exists c. split; [reflexivity|]. now apply get_stimulus_class_found.
    + right. unfold get_stimulus_class in E.
      destruct (_subclasses !! name); [discriminate|]. now inversion E.
Qed.

(** *** What [save] needs *)

Lemma getattr_extra_raises (f : fields) (name : string) (e : exn) :
  getattr_extra f name = Raise e -> e = AttributeError.
Proof.
  destruct f as [| | |amplitude [i|]| | | | | |]; cbn;
    repeat match goal with
           | |- context [String.eqb name ?s] =>
               destruct (String.eqb name s); cbv iota; [congruence|]
           end; congruence.
Qed.

Lemma getattr_raises (a : attrs) (name : string) (e : exn) :
  getattr a name = Raise e -> e = AttributeError.
Proof.
  unfold getattr.
  repeat match goal with
         | |- context [String.eqb name ?s] =>
             destruct (String.eqb name s); cbv iota; [congruence|]
         end.
  apply getattr_extra_raises.
Qed.

Lemma save_args_raises a names : forall m e,
  save_args a names m = Raise e -> e = AttributeError.
Proof.
  induction names as [|n names IH]; intros m e; cbn; [discriminate|].
  destruct (getattr a n) as [v|e'] eqn:E; cbn.
  - apply IH.
  - intros H. inversion H; subst. eapply getattr_raises; eauto.
Qed.

Lemma save_args_total a names : forall m,
  Forall (fun n => exists v, getattr a n = Ok v) names ->
  exists args, save_args a names m = Ok args.
Proof.
  induction names as [|n names IH]; intros m H; cbn; [eauto|].
  inversion H as [|? ? (v & Hv) H']; subst. rewrite Hv. cbn. now apply IH.
Qed.

Lemma declared_attributes_exist (a : attrs) :
  match extra a with F_Ramp _ _ => False | _ => True end ->
  Forall (fun n => exists v, getattr a n = Ok v) (_attributes (fields_cls (extra a))).
Proof.
  destruct a as [desc st u d f]. cbn [extra].
  destruct f; intros H; try contradiction; cbn;
    repeat constructor; eexists; reflexivity.
Qed.

Lemma mapM_raises {A B} (f : A -> res B) (l : list A) (e : exn) :
  mapM f l = Raise e -> exists x, In x l /\ f x = Raise e.
Proof.
  induction l as [|x l IH]; cbn; [discriminate|].
  destruct (f x) as [y|e'] eqn:E; cbn.
  - destruct (mapM f l) as [ys|e'']; cbn; [discriminate|].
    intros H. inversion H; subst. destruct (IH eq_refl) as (x' & ? & ?). eauto.
  - intros H. inversion H; subst. eauto.
Qed.

Lemma mapM_total {A B} (f : A -> res B) (l : list A) :
  Forall (fun x => exists y, f x = Ok y) l -> exists ys, mapM f l = Ok ys.
Proof.
  induction 1 as [|x l (y & Hy) _ (ys & IH)]; cbn; [eauto|].
  rewrite Hy, IH. cbn. eauto.
Qed.

Lemma mapM_first_raise {A B} (f : A -> res B) (l : list A) (e : exn) :
  Forall (fun x => (exists y, f x = Ok y) \/ f x = Raise e) l ->
  Exists (fun x => f x = Raise e) l ->
  mapM f l = Raise e.
Proof.
  induction 1 as [|x l Hx _ IH]; intros Hex; [inversion Hex|].
  cbn. destruct Hx as [(y & Hy)|Hx].
  - rewrite Hy. cbn. inversion Hex as [? ? H|? ? H]; subst; [congruence|].
    now rewrite (IH H).
  - now rewrite Hx.
Qed.

(** X2.  [save] fails on a tree exactly when the tree holds a [Ramp], and
    then with [AttributeError]: every other class has all the attributes
    that its [_attributes] names. *)
Theorem save_fails_only_on_ramp (s : stim) :
  if has_ramp s then save s = Raise AttributeError else exists st, save s = Ok st.
Proof.
  induction s as [a its IH] using stim_ind.
  cbn [has_ramp]. rewrite save_unfold. cbv zeta.
  destruct (extra a) eqn:E;
    try (destruct (save_args_total a (_attributes (fields_cls (extra a)))
                     {["start_time" := VNum (_start_time a)]}) as (args & Hargs);
         [apply declared_attributes_exist; rewrite E; exact I|];
         rewrite E in Hargs; cbn [fields_cls] in Hargs |- *; rewrite Hargs; cbn [bind];
         destruct (existsb has_ramp its) eqn:Hex;
         [ rewrite (mapM_first_raise save its AttributeError); [reflexivity| |];
           [ apply Forall_forall; intros x Hx; rewrite Forall_forall in IH;
             specialize (IH x Hx); destruct (has_ramp x); [right; exact IH|left; exact IH]
           | apply existsb_exists in Hex as (x & Hin & Hx);
             apply Exists_exists; exists x; split; [now apply list_elem_of_In|];
             rewrite Forall_forall in IH; specialize (IH x (proj2 (list_elem_of_In _ _) Hin));
             now rewrite Hx in IH ]
         | destruct (mapM_total save its) as (sts & Hsts);
           [ apply Forall_forall; intros x Hx; rewrite Forall_forall in IH;
             specialize (IH x Hx);
             assert (Hf : has_ramp x = false)
               by (destruct (has_ramp x) eqn:Hr; [|reflexivity];
                   assert (existsb has_ramp its = true)
                     by (apply existsb_exists; exists x; split;
                         [now apply list_elem_of_In|exact Hr]); congruence);
             now rewrite Hf in IH
           | rewrite Hsts; cbn [bind cls_name]; eauto ] ]).
  (* Ramp *)
  destruct a as [desc st u d f]. cbn in E. subst f.
  destruct u; vm_compute; reflexivity.
Qed.

(** *** The saved record *)

Lemma save_args_lookup a names : forall m args,
  save_args a names m = Ok args ->
  forall k,
    (In k names -> exists v, getattr a k = Ok v /\ args !! k = Some v) /\
    (~ In k names -> args !! k = m !! k).
Proof.
  induction names as [|n names IH]; intros m args H k; cbn in H.
  - inversion H; subst. split; [intros []|reflexivity].
  - destruct (getattr a n) as [v|] eqn:Hv; cbn in H; [|discriminate].
    destruct (IH _ _ H k) as [IH1 IH2]. split.
    + intros Hin. destruct (in_dec String.string_dec k names) as [Hk|Hk]; [now apply IH1|].
      destruct Hin as [->|Hin]; [|contradiction].
      exists v. split; [exact Hv|]. rewrite (IH2 Hk). apply lookup_insert_eq.
    + intros Hnot. rewrite IH2 by (intros Hk; apply Hnot; now right).
      apply lookup_insert_ne. intros ->. apply Hnot. now left.
Qed.

Lemma start_time_declared (c : cls) : In "start_time" (_attributes c).
Proof. destruct c; cbn; auto. Qed.

Lemma saved_record_shape (a : attrs) (its : list stim) (st : state) :
  save (Node a its) = Ok st ->
  let c := fields_cls (extra a) in
  exists args sts,
    save_args a (_attributes c) {["start_time" := VNum (_start_time a)]} = Ok args /\
    mapM save its = Ok sts /\
    st = State (cls_name c) args (if derived_children c then [] else sts).
Proof.
  intros H c. rewrite save_unfold in H. cbv zeta in H. fold c in H.
  destruct (save_args a (_attributes c) _) as [args|] eqn:Hargs; cbn [bind] in H;
    [|discriminate].
  destruct (mapM save its) as [sts|] eqn:Hsts; cbn [bind] in H; [|discriminate].
  exists args, sts. split; [reflexivity|]. split; [reflexivity|].
  destruct c; inversion H; reflexivity.
Qed.

(** X3.  A saved record holds the class name as its type, under [args]
    exactly the attributes that the class declares in [_attributes], each
    with the value the instance has for it, and under [items] the records
    of the children in order, or nothing for a train or a series. *)
Theorem saved_record_contents (a : attrs) (its : list stim) (st : state) :
  save (Node a its) = Ok st ->
  let c := fields_cls (extra a) in
  st_type st = cls_name c /\
  (forall name v,
     st_args st !! name = Some v <-> In name (_attributes c) /\ getattr a name = Ok v) /\
  exists sts, mapM save its = Ok sts /\
              st_items st = if derived_children c then [] else sts.
Proof.
  intros H c. destruct (saved_record_shape a its st H) as (args & sts & Hargs & Hsts & Hst).
  fold c in Hargs, Hst.
  subst st. cbn [st_type st_args st_items]. split; [reflexivity|]. split.
  - intros name v. pose proof (save_args_lookup _ _ _ _ Hargs name) as [H1 H2].
    split.
    + intros Hl. destruct (in_dec String.string_dec name (_attributes c)) as [Hin|Hnot].
      * split; [exact Hin|]. destruct (H1 Hin) as (w & Hw & Hl'). congruence.
      * rewrite (H2 Hnot) in Hl.
        apply lookup_singleton_Some in Hl as [<- _].
        exfalso. apply Hnot, start_time_declared.
    + intros [Hin Hv]. destruct (H1 Hin) as (w & Hw & Hl'). congruence.
  - exists sts. split; [exact Hsts|reflexivity].
Qed.

Lemma saved_record_contents_witness :
  exists st,
    save (SquarePulse__init__ 1 2 5 "square pulse" None) = Ok st /\
    st_type st = "SquarePulse" /\
    (st_args st !! "amplitude" = Some (VNum 5) <->
     In "amplitude" (_attributes SquarePulse) /\
     getattr (Attrs "square pulse" 1 None 2 (F_SquarePulse 5 None)) "amplitude" = Ok (VNum 5)).
Proof.
  eexists. split; [reflexivity|].
  destruct (saved_record_contents (Attrs "square pulse" 1 None 2 (F_SquarePulse 5 None)) [] _
              eq_refl) as (H1 & H2 & _).
  split; [exact H1|]. apply H2.
Defined.

(** X4.  What [_attributes] does not name is not saved, so that the loaded
    node has the constructor's default for it: a sine loses its [offset],
    a square pulse its [pulse_number], and a plain stimulus a [duration]
    that was assigned to it. *)
Theorem reload_forgets_undeclared_state
    (desc : string) (st : Q) (u : option string) (d : Q) :
  (forall frequency amplitude phase offset,
     reload (Node (Attrs desc st u d (F_Sine frequency amplitude phase offset)) []) =
     Ok (Sine__init__ st d frequency amplitude phase 0 desc u)) /\
  (forall amplitude pulse_number,
     reload (Node (Attrs desc st u d (F_SquarePulse amplitude pulse_number)) []) =
     Ok (SquarePulse__init__ st d amplitude desc u)) /\
  reload (Node (Attrs desc st u d F_Stimulus) []) = Ok (Stimulus__init__ desc st u []).
Proof.
  split; [|split]; intros; destruct u; vm_compute; reflexivity.
Qed.

(** *** Saving what was loaded *)

Lemma mapM_length {A B} (f : A -> res B) (l : list A) (ys : list B) :
  mapM f l = Ok ys -> length ys = length l.
Proof.
  revert ys. induction l as [|x l IH]; intros ys; cbn.
  - intros H. inversion H. reflexivity.
  - destruct (f x); cbn; [|discriminate].
    destruct (mapM f l) as [ys'|]; cbn; [|discriminate].
    intros H. inversion H. cbn. f_equal. now apply IH.
Qed.

Lemma get_stimulus_class_name (c : cls) : get_stimulus_class (cls_name c) = Ok c.
Proof. destruct c; vm_compute; reflexivity. Qed.

(** A record with children loads only for the two classes whose
    constructor takes [items]. *)
Lemma load_with_children t args st sts y :
  load (State t args (st :: sts)) = Ok y ->
  exists c, get_stimulus_class t = Ok c /\ takes_items c = true.
Proof.
  rewrite load_unfold.
  destruct (get_stimulus_class t) as [c|]; cbn [bind]; [|discriminate].
  destruct (mapM load (st :: sts)) as [ys|] eqn:Hl; cbn [bind]; [|discriminate].
  apply mapM_length in Hl. destruct ys as [|y0 ys]; [discriminate|].
  cbn [length Nat.ltb Nat.leb].
  intros H. exists c. split; [reflexivity|].
  destruct c; try reflexivity; cbn in H; discriminate.
Qed.

Lemma reload_children its : forall sts ys,
  Forall (fun x => forall y, reload x = Ok y -> save y = save x) its ->
  mapM save its = Ok sts -> mapM load sts = Ok ys -> mapM save ys = Ok sts.
Proof.
  induction its as [|x its IH]; intros sts ys HF Hs Hl.
  - cbn in Hs. inversion Hs; subst. cbn in Hl. inversion Hl. reflexivity.
  - inversion HF as [|? ? Hx HF']; subst.
    cbn in Hs. destruct (save x) as [st|] eqn:Hsx; cbn in Hs; [|discriminate].
    destruct (mapM save its) as [sts'|] eqn:Hs'; cbn in Hs; [|discriminate].
    inversion Hs; subst sts. cbn in Hl.
    destruct (load st) as [y|] eqn:Hly; cbn in Hl; [|discriminate].
    destruct (mapM load sts') as [ys'|] eqn:Hl'; cbn in Hl; [|discriminate].
    inversion Hl; subst ys. cbn.
    rewrite (Hx y) by (unfold reload; rewrite Hsx; exact Hly).
    cbn. rewrite (IH sts' ys' HF' eq_refl Hl'). reflexivity.
Qed.

(** A node of a class that takes no [items] and that holds children does
    not load from its record, unless the class saves no children. *)
Lemma leaf_with_children_does_not_reload a x its y :
  takes_items (fields_cls (extra a)) = false ->
  derived_children (fields_cls (extra a)) = false ->
  reload (Node a (x :: its)) <> Ok y.
Proof.
  intros Ht Hd H. unfold reload in H.
  destruct (save (Node a (x :: its))) as [st|] eqn:Hs; cbn [bind] in H; [|discriminate].
  destruct (saved_record_shape a (x :: its) st Hs) as (args & sts & _ & Hsts & ->).
  rewrite Hd in H.
  apply mapM_length in Hsts. destruct sts as [|s0 sts]; [discriminate|].
  apply load_with_children in H as (c & Hc & Hc').
  rewrite get_stimulus_class_name in Hc. inversion Hc; subst c. congruence.
Qed.

Ltac reload_leaf H :=
  match type of H with
  | reload (Node _ ?its) = Ok _ =>
      destruct its as [|x0 its0];
      [ match type of H with
        | reload (Node (Attrs _ _ ?u _ _) _) = _ =>
            destruct u; vm_compute in H; inversion H; subst; vm_compute; reflexivity
        end
      | exfalso; revert H; now apply leaf_with_children_does_not_reload ]
  end.

(** X5.  Saving is stable under a round trip: whenever [load(save(x))]
    succeeds, the node it gives saves to the very record that [x] saved
    to. *)
Theorem save_of_reloaded (x y : stim) :
  reload x = Ok y -> save y = save x.
Proof.
  revert y. induction x as [a its IH] using stim_ind. intros y H.
  destruct a as [desc st u d f]. destruct f.
  - (* Stimulus *)
    rewrite reload_Stimulus in H.
    destruct (mapM save its) as [sts|] eqn:Hs; cbn [bind] in H; [|discriminate].
    destruct (mapM load sts) as [ys|] eqn:Hl; cbn [bind] in H; [|discriminate].
    inversion H; subst y. rewrite !save_unfold. cbv zeta.
    rewrite Hs, (reload_children its sts ys IH Hs Hl). reflexivity.
  - (* LazyLoadStimulus *)
    destruct (lazy_load_does_not_reload desc st u d loader source its) as (e & He).
    congruence.
  - reload_leaf H.
  - reload_leaf H.
  - (* SquarePulseTrain *)
    destruct (mapM save its) as [sts|e] eqn:Hs.
    + rewrite (reload_SquarePulseTrain _ _ _ _ _ _ _ _ _ _ Hs) in H.
      unfold SquarePulseTrain__init__ in H.
      destruct (train_items_leaves n_pulses pulse_duration amplitude interval u)
        as (its' & Hits & Hl).
      rewrite Hits in H. cbn [bind] in H. inversion H; subst y.
      destruct (leaves_save its' Hl) as (sts' & Hs').
      rewrite !save_unfold. cbv zeta. rewrite Hs, Hs'. reflexivity.
    + unfold reload in H. rewrite save_unfold in H. cbv zeta in H. rewrite Hs in H.
      destruct u; vm_compute in H; discriminate.
  - (* SquarePulseSeries *)
    destruct (mapM save its) as [sts|e] eqn:Hs.
    + rewrite (reload_SquarePulseSeries _ _ _ _ _ _ _ _ _ Hs) in H.
      unfold SquarePulseSeries__init__ in H.
      destruct (negb _); [discriminate|].
      destruct (series_items_leaves pulse_times pulse_durations amplitudes u)
        as (its' & Hits & Hl).
      rewrite Hits in H. cbn [bind] in H. inversion H; subst y.
      destruct (leaves_save its' Hl) as (sts' & Hs').
      rewrite !save_unfold. cbv zeta. rewrite Hs, Hs'. reflexivity.
    + unfold reload in H. rewrite save_unfold in H. cbv zeta in H. rewrite Hs in H.
      destruct u; vm_compute in H; discriminate.
  - (* Ramp *)
    unfold reload in H. rewrite ramp_save_raises in H. discriminate.
  - reload_leaf H.
  - reload_leaf H.
  - reload_leaf H.
Qed.

Lemma save_of_reloaded_witness :
  exists y,
    reload (Node (Attrs "sine wave" 0 None 1 (F_Sine 10 1 0 3)) []) = Ok y /\
    save y = save (Node (Attrs "sine wave" 0 None 1 (F_Sine 10 1 0 3)) []).
Proof.
  eexists. split; [vm_compute; reflexivity|].
  apply (save_of_reloaded (Node (Attrs "sine wave" 0 None 1 (F_Sine 10 1 0 3)) [])).
  vm_compute. reflexivity.
Defined.

(** ** Laws of [__eq__] *)

Lemma Qeq_bool_comm (p q : Q) : Qeq_bool p q = Qeq_bool q p.
Proof.
  destruct (Qeq_bool p q) eqn:E1, (Qeq_bool q p) eqn:E2; try reflexivity.
  - apply Qeq_bool_iff in E1. symmetry in E1. apply Qeq_bool_iff in E1. congruence.
  - apply Qeq_bool_iff in E2. symmetry in E2. apply Qeq_bool_iff in E2. congruence.
Qed.

Lemma arr_eqb_comm (l1 l2 : list Q) : arr_eqb l1 l2 = arr_eqb l2 l1.
Proof.
  revert l2. induction l1 as [|x l1 IH]; intros [|y l2]; cbn; try reflexivity.
  now rewrite Qeq_bool_comm, IH.
Qed.

Lemma value_eqb_comm (v w : value) : value_eqb v w = value_eqb w v.
Proof.
  destruct v, w; cbn; try reflexivity;
    auto using String.eqb_sym, Z.eqb_sym, Qeq_bool_comm, arr_eqb_comm, Nat.eqb_sym.
Qed.

Lemma arr_eqb_trans (l1 l2 l3 : list Q) :
  arr_eqb l1 l2 = true -> arr_eqb l2 l3 = true -> arr_eqb l1 l3 = true.
Proof.
  revert l2 l3. induction l1 as [|x l1 IH]; intros [|y l2] [|z l3]; cbn; try congruence.
  rewrite !andb_true_iff. intros [H1 H2] [H3 H4]. split.
  - eapply Qeq_bool_trans; eauto.
  - eapply IH; eauto.
Qed.

Lemma value_eqb_trans (v w x : value) :
  value_eqb v w = true -> value_eqb w x = true -> value_eqb v x = true.
Proof.
  destruct v, w, x; cbn; try congruence; try apply arr_eqb_trans; intros H1 H2;
    repeat match goal with
           | H : String.eqb _ _ = true |- _ => apply String.eqb_eq in H
           | H : Z.eqb _ _ = true |- _ => apply Z.eqb_eq in H
           | H : Nat.eqb _ _ = true |- _ => apply Nat.eqb_eq in H
           | H : Qeq_bool _ _ = true |- _ => apply Qeq_bool_iff in H
           end; subst;
    auto using String.eqb_refl, Z.eqb_refl, Nat.eqb_refl;
    try (apply Z.eqb_eq, inject_Z_injective; now rewrite H1);
    apply Qeq_bool_iff; first [assumption | now rewrite H1].
Qed.

Lemma value_ne_comm (v w : value) : value_ne v w = value_ne w v.
Proof.
  destruct v as [| | | |[|x [|x' l]]|], w as [| | | |[|y [|y' k]]|]; cbn;
    try reflexivity; f_equal; f_equal;
    auto using String.eqb_sym, Z.eqb_sym, Qeq_bool_comm, Nat.eqb_sym.
Qed.

Lemma ne_false (b : bool) : Ok (negb b) = Ok false <-> b = true.
Proof. destruct b; cbn; split; congruence. Qed.

Lemma value_ne_false (v w : value) :
  value_ne v w = Ok false <->
  single v /\ single w /\ value_eqb (element v) (element w) = true.
Proof.
  destruct v as [| | | |[|x [|x' l]]|], w as [| | | |[|y [|y' k]]|];
    cbn [value_ne single element]; rewrite ?ne_false;
    first [ tauto
          | split; [discriminate|intros (? & ? & ?); contradiction] ].
Qed.

Lemma value_ne_trans (v w x : value) :
  value_ne v w = Ok false -> value_ne w x = Ok false -> value_ne v x = Ok false.
Proof.
  rewrite !value_ne_false. intros (Hv & Hw & E1) (_ & Hx & E2).
  repeat split; try assumption. exact (value_eqb_trans _ _ _ E1 E2).
Qed.

Lemma cls_eqb_eq (c d : cls) : cls_eqb c d = true <-> c = d.
Proof. destruct c, d; cbn; split; congruence. Qed.

Lemma cls_eqb_comm (c d : cls) : cls_eqb c d = cls_eqb d c.
Proof. destruct c, d; reflexivity. Qed.

Lemma attrs_loop_comm (a b : attrs) (names : list string) :
  attrs_loop a b names = attrs_loop b a names.
Proof.
  induction names as [|n names IH]; cbn; [reflexivity|].
  destruct (getattr a n) as [v|e] eqn:Ha, (getattr b n) as [w|e'] eqn:Hb; cbn;
    try reflexivity.
  - rewrite (value_ne_comm v w).
    destruct (value_ne w v) as [[|]|]; cbn; [reflexivity|exact IH|reflexivity].
  - apply getattr_raises in Ha, Hb. congruence.
Qed.

Lemma attrs_loop_trans (a b c : attrs) (names : list string) :
  attrs_loop a b names = Ok true -> attrs_loop b c names = Ok true ->
  attrs_loop a c names = Ok true.
Proof.
  induction names as [|n names IH]; cbn; [reflexivity|].
  destruct (getattr a n) as [v|], (getattr b n) as [w|], (getattr c n) as [x|]; cbn;
    try discriminate.
  destruct (value_ne v w) as [[|]|] eqn:E1; cbn; try discriminate.
  destruct (value_ne w x) as [[|]|] eqn:E2; cbn; try discriminate.
  rewrite (value_ne_trans v w x E1 E2). cbn. exact IH.
Qed.



Lemma items_eq_comm (xs : list stim) : forall ys,
  Forall (fun x => forall y, py_eq x y = py_eq y x) xs ->
  length xs = length ys ->
  items_eq xs ys = items_eq ys xs.
Proof.
  induction xs as [|x xs IH]; intros [|y ys] HF Hlen; try discriminate; [reflexivity|].
  inversion HF as [|? ? Hx HF']; subst. cbn.
  rewrite (Hx y). destruct (py_eq y x) as [[|]|]; cbn; try reflexivity.
  apply IH; [exact HF'|]. cbn in Hlen. lia.
Qed.

(** X6.  [==] is symmetric on stimulus trees, in its outcome as well: the
    two orders give the same answer or raise the same exception; and so is
    [!=], its negation. *)
Theorem eq_symmetric (x y : stim) :
  py_eq x y = py_eq y x /\ py_ne x y = py_ne y x.
Proof.
  assert (H : forall x y, py_eq x y = py_eq y x).
  { clear. induction x as [a si IH] using stim_ind. intros [b oi].
    rewrite !py_eq_unfold.
    rewrite (cls_eqb_comm (fields_cls (extra b))).
    destruct (cls_eqb (fields_cls (extra a)) (fields_cls (extra b))) eqn:Hc;
      cbn [negb]; [|reflexivity].
    apply cls_eqb_eq in Hc. rewrite <- Hc.
    rewrite (Nat.eqb_sym (length oi)).
    destruct (Nat.eqb (length si) (length oi)) eqn:Hl; cbn [negb]; [|reflexivity].
    apply Nat.eqb_eq in Hl.
    rewrite (attrs_loop_comm b a).
    destruct (attrs_loop a b _) as [[|]|]; cbn; try reflexivity.
    now apply items_eq_comm. }
  split; [apply H|]. unfold py_ne. now rewrite H.
Qed.





Lemma py_eq_true_inv a si b oi :
  py_eq (Node a si) (Node b oi) = Ok true ->
  fields_cls (extra a) = fields_cls (extra b) /\ length si = length oi /\
  attrs_loop a b (_attributes (fields_cls (extra a))) = Ok true /\
  items_eq si oi = Ok true.
Proof.
  rewrite py_eq_unfold.
  destruct (cls_eqb _ _) eqn:Hc; cbn [negb]; [|discriminate].
  destruct (Nat.eqb _ _) eqn:Hl; cbn [negb]; [|discriminate].
  destruct (attrs_loop _ _ _) as [[|]|]; cbn; try discriminate.
  intros H. apply cls_eqb_eq in Hc. apply Nat.eqb_eq in Hl. auto.
Qed.

Lemma items_eq_trans (xs : list stim) : forall ys zs,
  Forall (fun x => forall y z, py_eq x y = Ok true -> py_eq y z = Ok true ->
                               py_eq x z = Ok true) xs ->
  length xs = length ys -> length ys = length zs ->
  items_eq xs ys = Ok true -> items_eq ys zs = Ok true -> items_eq xs zs = Ok true.
Proof.
  induction xs as [|x xs IH]; intros [|y ys] [|z zs] HF H1 H2; try discriminate;
    [reflexivity|].
  inversion HF as [|? ? Hx HF']; subst. cbn.
  destruct (py_eq x y) as [[|]|] eqn:E1; cbn; try discriminate.
  destruct (py_eq y z) as [[|]|] eqn:E2; cbn; try discriminate.
  rewrite (Hx y z E1 E2). cbn. apply IH; auto.
Qed.

(** X8.  [==] is transitive: if [x == y] and [y == z] both answer [True],
    so does [x == z]. *)
Theorem eq_transitive (x y z : stim) :
  py_eq x y = Ok true -> py_eq y z = Ok true -> py_eq x z = Ok true.
Proof.
  revert y z. induction x as [a si IH] using stim_ind. intros [b oi] [c ti] H1 H2.
  apply py_eq_true_inv in H1 as (Hc1 & Hl1 & Ha1 & Hi1).
  apply py_eq_true_inv in H2 as (Hc2 & Hl2 & Ha2 & Hi2).
  rewrite py_eq_unfold.
  replace (cls_eqb _ _) with true by (symmetry; apply cls_eqb_eq; congruence).
  replace (Nat.eqb _ _) with true by (symmetry; apply Nat.eqb_eq; congruence).
  cbn [negb]. rewrite <- Hc1 in Ha2.
  rewrite (attrs_loop_trans a b c _ Ha1 Ha2). cbn.
  eapply items_eq_trans; eauto.
Qed.

Lemma eq_transitive_witness :
  py_eq (SquarePulse__init__ 1 2 5 "square pulse" None)
        (Node (Attrs "square pulse" (2#2) None (4#2) (F_SquarePulse 5 (Some 3%nat))) []) = Ok true.
Proof.
  apply (eq_transitive _ (SquarePulse__init__ (3#3) 2 (10#2) "square pulse" None));
    vm_compute; reflexivity.
Defined.

(** ** Start times add up along the ancestry *)

Lemma fold_start_times (l : list attrs) : forall t s,
  fold_left (fun t item => t + _start_time item)%Q l (t + s)%Q =
  (fold_left (fun t item => t + _start_time item)%Q l t + s)%Q.
Proof.
  induction l as [|a l IH]; intros t s; cbn; [reflexivity|].
  rewrite Qplus_swap. apply IH.
Qed.

Lemma global_start_time_child (anc : list attrs) (a : attrs) (its : list stim) (c : stim) :
  global_start_time (a :: anc) c =
  (global_start_time anc (Node a its) + start_time c)%Q.
Proof.
  unfold global_start_time, ancestry, start_time. cbn [fold_left attrs_of].
  rewrite <- fold_start_times. f_equal. apply Qplus_swap.
Qed.

(** X9.  The global start time of a node without parent is its own start
    time; that of a child is the global start time of its parent plus the
    child's own start time; and [global_pulse_times] lists the global
    start times of the children. *)
Theorem global_start_times_add_up (anc : list attrs) (a : attrs) (its : list stim) :
  (global_start_time [] (Node a its) == start_time (Node a its))%Q /\
  Forall (fun c => global_start_time (a :: anc) c ==
                   global_start_time anc (Node a its) + start_time c)%Q its /\
  Forall2 Qeq (Train.global_pulse_times anc (Node a its)) (map (global_start_time (a :: anc)) its).
Proof.
  split; [|split].
  - unfold global_start_time, ancestry, start_time. cbn. ring.
  - apply Forall_forall. intros c _. rewrite (global_start_time_child anc a its c).
    reflexivity.
  - unfold Train.global_pulse_times, Train.pulse_times. cbn [items]. rewrite map_map.
    generalize (global_start_time_child anc a its). generalize (global_start_time anc (Node a its)).
    intros g Hg. induction its as [|c its IH]; cbn [map]; constructor; [|exact IH].
    rewrite Hg. apply Qplus_comm.
Qed.

(** ** The pulses of a train and of a series *)

Lemma pulse_leaf_differ e p :
  pulse_leaf e -> pulse_leaf p -> ~ (start_time e == start_time p)%Q ->
  py_eq e p = Ok false.
Proof.
  intros (d1 & s1 & u1 & o1 & a1 & n1 & ->) (d2 & s2 & u2 & o2 & a2 & n2 & ->) Hne.
  unfold start_time in Hne. cbn in Hne.
  rewrite py_eq_unfold. cbn.
  destruct (String.eqb d1 d2); cbn; [|reflexivity].
  destruct (Qeq_bool s1 s2) eqn:E; cbn; [|reflexivity].
  exfalso. apply Hne. now apply Qeq_bool_iff.
Qed.

Lemma start_time_numbered i p : start_time (set_pulse_number i p) = start_time p.
Proof. destruct p as [[desc st u d f] its]. destruct f; reflexivity. Qed.

Lemma py_in_distinct p its :
  pulse_leaf p -> Forall pulse_leaf its ->
  Forall (fun e => ~ (start_time e == start_time p)%Q) its ->
  py_in p its = Ok false.
Proof.
  intros Hp Hl Hd. induction Hl as [|e its He _ IH]; cbn; [reflexivity|].
  inversion Hd; subst. rewrite (pulse_leaf_differ e p) by assumption. cbn. now apply IH.
Qed.

Lemma adopt_pulses_distinct pulses : forall its i,
  Forall pulse_leaf its -> Forall pulse_leaf pulses ->
  Forall (fun e => Forall (fun p => ~ (start_time e == start_time p)%Q) pulses) its ->
  distinct_starts pulses ->
  adopt_pulses its i pulses =
  Ok (its ++ imap (fun k p => set_pulse_number (i + k) p) pulses).
Proof.
  induction pulses as [|p pulses IH]; intros its i Hits Hps Hsep Hd; cbn [adopt_pulses imap].
  - now rewrite app_nil_r.
  - inversion Hps as [|? ? Hp Hps']; subst. destruct Hd as [Hd1 Hd2].
    unfold adopt_pulse. rewrite py_in_distinct; [|exact Hp|exact Hits|].
    2:{ eapply Forall_impl; [exact Hsep|]. cbn. intros e He. now inversion He. }
    cbn [bind]. rewrite IH; [| | exact Hps' | | exact Hd2].
    + rewrite <- app_assoc. cbn [app]. rewrite Nat.add_0_r. do 3 f_equal.
      apply imap_ext. intros k q _. cbn. f_equal. lia.
    + apply Forall_app. split; [exact Hits|]. repeat constructor.
      now apply pulse_leaf_numbered.
    + apply Forall_app. split.
      * eapply Forall_impl; [exact Hsep|]. cbn. intros e He. now inversion He.
      * repeat constructor. rewrite start_time_numbered. exact Hd1.
Qed.

Lemma arange_times_distinct (interval : Q) (f : Q -> stim) (k m : nat) :
  ~ (interval == 0)%Q ->
  (forall t, start_time (f t) = t) ->
  distinct_starts
    (map f (map (fun i => i * interval)%Q
              (map (fun i => inject_Z (Z.of_nat i)) (seq k m)))).
Proof.
  intros Hi Hf. revert k. induction m as [|m IH]; intros k; cbn; [exact I|].
  split; [|apply IH].
  apply Forall_forall. intros q Hq.
  apply list_elem_of_In, in_map_iff in Hq as (t & <- & Ht).
  apply in_map_iff in Ht as (x & <- & Hx).
  apply in_map_iff in Hx as (j & <- & Hj). apply in_seq in Hj.
  rewrite !Hf. intros E. apply Qmult_inj_r in E; [|exact Hi].
  apply (proj1 (inject_Z_injective _ _)) in E. lia.
Qed.

(** X10.  A train built with a non-zero interval holds one pulse per
    entry of [arange(n_pulses) * interval]: [pulse_times] is that list,
    the pulses are numbered 0, 1, 2, ... in order, and each has the
    train's pulse duration, amplitude and units. *)
Theorem train_pulses (st : Q) (n : Z) (pd amp interval : Q) (desc : string)
    (u : option string) :
  ~ (interval == 0)%Q ->
  exists train,
    SquarePulseTrain__init__ st n pd amp interval desc u = Ok train /\
    Train.pulse_times train = map (fun i => i * interval)%Q (arange n) /\
    map pulse_number_of (items train) = map Some (seq 0 (Z.to_nat n)) /\
    Forall (fun p => type p = SquarePulse /\ items p = [] /\ duration p = pd /\
                     amplitude_of p = Some amp /\ units (attrs_of p) = u)
      (items train).
Proof.
  intros Hi. unfold SquarePulseTrain__init__, train_items.
  rewrite adopt_pulses_distinct.
  - cbn [bind app]. eexists. split; [reflexivity|].
    unfold Train.pulse_times. cbn [items]. unfold arange.
    generalize (Z.to_nat n). intros m.
    assert (G : forall k,
      map start_time
        (imap (fun j p => set_pulse_number (k + j) p)
           (map (fun t => SquarePulse__init__ t pd amp "square pulse" u)
              (map (fun i => i * interval)%Q
                 (map (fun i => inject_Z (Z.of_nat i)) (seq k m))))) =
      map (fun i => i * interval)%Q (map (fun i => inject_Z (Z.of_nat i)) (seq k m)) /\
      map pulse_number_of
        (imap (fun j p => set_pulse_number (k + j) p)
           (map (fun t => SquarePulse__init__ t pd amp "square pulse" u)
              (map (fun i => i * interval)%Q
                 (map (fun i => inject_Z (Z.of_nat i)) (seq k m))))) =
      map Some (seq k m) /\
      Forall (fun p => type p = SquarePulse /\ items p = [] /\ duration p = pd /\
                       amplitude_of p = Some amp /\ units (attrs_of p) = u)
        (imap (fun j p => set_pulse_number (k + j) p)
           (map (fun t => SquarePulse__init__ t pd amp "square pulse" u)
              (map (fun i => i * interval)%Q
                 (map (fun i => inject_Z (Z.of_nat i)) (seq k m)))))).
    { induction m as [|m IH]; intros k; cbn [seq map imap].
      - repeat split; constructor.
      - destruct (IH (S k)) as (H1 & H2 & H3).
        assert (E : forall l : list stim,
                  imap ((fun j p => set_pulse_number (k + j) p) ∘ S) l =
                  imap (fun j p => set_pulse_number (S k + j) p) l).
        { intros l. apply imap_ext. intros j p _. cbn. f_equal. lia. }
        rewrite E, Nat.add_0_r. cbn [map]. rewrite H1, H2.
        repeat split; try reflexivity. constructor; [|exact H3].
        repeat split; reflexivity. }
    exact (G 0%nat).
  - constructor.
  - apply Forall_forall. intros x Hx.
    apply list_elem_of_In, in_map_iff in Hx as (t & <- & _). apply pulse_leaf_init.
  - constructor.
  - unfold arange. apply arange_times_distinct; [exact Hi|reflexivity].
Qed.

Lemma train_pulses_witness :
  exists train,
    SquarePulseTrain__init__ (1#5) 8 (1#500) 2 (1#50) "square pulse train" None = Ok train /\
    length (Train.pulse_times train) = 8%nat.
Proof.
  destruct (train_pulses (1#5) 8 (1#500) 2 (1#50) "square pulse train" None)
    as (train & H1 & H2 & _); [discriminate|].
  exists train. split; [exact H1|]. rewrite H2. reflexivity.
Defined.

Lemma adopt_pulses_same (p0 : stim) (pulses : list stim) : forall i,
  Forall (fun q => py_eq p0 q = Ok true) pulses ->
  adopt_pulses [p0] i pulses = Ok [p0].
Proof.
  induction pulses as [|q pulses IH]; intros i H; cbn [adopt_pulses]; [reflexivity|].
  inversion H as [|? ? Hq H']; subst.
  unfold adopt_pulse. cbn [py_in]. rewrite Hq. cbn [bind]. now apply IH.
Qed.

(** X11.  A train built with interval 0 holds a single pulse, however many
    were asked for: every further pulse compares equal to the first one,
    and the parent setter does not append an item that the parent already
    holds an equal of. *)
Theorem train_without_interval (st : Q) (n : Z) (pd amp interval : Q) (desc : string)
    (u : option string) :
  (interval == 0)%Q -> (1 <= n)%Z ->
  exists train p,
    SquarePulseTrain__init__ st n pd amp interval desc u = Ok train /\
    items train = [p] /\ pulse_number_of p = Some 0%nat /\
    getattr (attrs_of train) "n_pulses" = Ok (VInt n).
Proof.
  intros Hi Hn. unfold SquarePulseTrain__init__, train_items, arange.
  destruct (Z.to_nat n) as [|m] eqn:Hm; [lia|].
  cbn [seq map adopt_pulses]. unfold adopt_pulse at 1. cbn [py_in bind app].
  rewrite adopt_pulses_same.
  - cbn [bind]. eexists. eexists. split; [reflexivity|]. repeat split.
  - apply Forall_forall. intros q Hq.
    apply list_elem_of_In, in_map_iff in Hq as (t & <- & Ht).
    apply in_map_iff in Ht as (x & <- & _).
    unfold SquarePulse__init__. cbn [set_pulse_number extra description _start_time units
                                      own_duration].
    rewrite py_eq_unfold. cbn [extra fields_cls cls_eqb negb length Nat.eqb _attributes].
    cbn. rewrite (proj2 (Qeq_bool_iff _ _)) by (rewrite Hi; ring).
    cbn. rewrite value_ne_refl by apply scalar_opt_str. cbn.
    rewrite !Qeq_bool_refl'. reflexivity.
Qed.

Lemma train_without_interval_witness :
  exists train p,
    SquarePulseTrain__init__ 0 8 (1#500) 2 0 "square pulse train" None = Ok train /\
    items train = [p].
Proof.
  destruct (train_without_interval 0 8 (1#500) 2 0 "square pulse train" None)
    as (train & p & H1 & H2 & _); [reflexivity|lia|].
  exists train, p. split; assumption.
Defined.

(** X12.  A series whose pulse times are pairwise different holds one pulse
    per entry, in order and numbered 0, 1, 2, ...: the pulses start at
    [pulse_times], last [pulse_durations] and have the [amplitudes]. *)
Theorem series_pulses_listed (st : Q) (ts ds amps : list Q) (desc : string)
    (u : option string) :
  length ts = length ds -> length ds = length amps ->
  ForallOrdPairs (fun t t' => ~ (t == t')%Q) ts ->
  exists series,
    SquarePulseSeries__init__ st ts ds amps desc u = Ok series /\
    map start_time (items series) = ts /\
    map duration (items series) = ds /\
    map amplitude_of (items series) = map Some amps /\
    map pulse_number_of (items series) = map Some (seq 0 (length ts)).
Proof.
  intros H1 H2 Hd. unfold SquarePulseSeries__init__, series_items.
  rewrite H1, H2, !Nat.eqb_refl. cbn [andb negb].
  rewrite adopt_pulses_distinct.
  - cbn [bind app]. eexists. split; [reflexivity|]. cbn [items].
    rewrite <- H1 in H2. clear Hd. generalize 0%nat.
    revert ds amps H1 H2.
    induction ts as [|t ts IH]; intros [|d ds] [|a amps] H1 H2 k; try discriminate;
      cbn [series_pulses imap map length seq].
    + repeat split.
    + assert (E : forall l : list stim,
                imap ((fun j p => set_pulse_number (k + j) p) ∘ S) l =
                imap (fun j p => set_pulse_number (S k + j) p) l).
      { intros l. apply imap_ext. intros j p _. cbn. f_equal. lia. }
      rewrite E, Nat.add_0_r.
      destruct (IH ds amps ltac:(cbn in H1; lia) ltac:(cbn in H2; lia) (S k))
        as (E1 & E2 & E3 & E4).
      rewrite E1, E2, E3, E4. repeat split.
  - constructor.
  - apply series_pulses_leaves.
  - constructor.
  - clear H1 H2. revert ds amps.
    induction Hd as [|t ts Ht Hd IH]; intros ds amps; [exact I|].
    destruct ds as [|d ds]; [exact I|]. destruct amps as [|a amps]; [exact I|].
    cbn [series_pulses distinct_starts]. split; [|apply IH].
    clear IH Hd. revert ds amps.
    induction Ht as [|t' ts Ht' _ IH]; intros ds amps; [constructor|].
    destruct ds as [|d' ds]; [constructor|]. destruct amps as [|a' amps]; [constructor|].
    cbn [series_pulses]. constructor; [exact Ht'|apply IH].
Qed.

Lemma series_pulses_listed_witness :
  exists series,
    SquarePulseSeries__init__ 0 [0; 1] [1#2; 1#4] [5; 7] "square pulse train" None
      = Ok series /\
    map start_time (items series) = [0; 1]%Q.
Proof.
  destruct (series_pulses_listed 0 [0; 1] [1#2; 1#4] [5; 7] "square pulse train" None)
    as (series & H1 & H2 & _); [reflexivity|reflexivity| |].
  - repeat constructor. discriminate.
  - exists series. split; assumption.
Defined.

(** ** The frame of a trace *)

Section EvalMask.

Variable np_sin : Q -> Q.
Variable np_log : Q -> Q.
Variable np_power : Q -> Q -> Q.
Variable np_pi : Q.
Variable psp_func : Q -> Q -> Q -> Q -> Q -> Q -> Q -> Q.
Variable search_index : list Q -> Q -> index_mode -> Z.

#[local] Abbreviation eval' := (eval np_sin np_log np_power np_pi psp_func search_index).
#[local] Abbreviation eval_own' := (eval_own np_sin np_log np_power np_pi psp_func search_index).
#[local] Abbreviation eval_children' :=
  (eval_children np_sin np_log np_power np_pi psp_func search_index).
#[local] Abbreviation mask' := (mask search_index).
#[local] Abbreviation mask_own' := (mask_own search_index).
#[local] Abbreviation mask_children' := (mask_children search_index).
#[local] Abbreviation index_at' := (index_at search_index).
#[local] Abbreviation time_slice' := (time_slice search_index).

(** No [index_mode] is the mode [Round]. *)
Lemma eval_own_default_mode anc self tr :
  eval_own' anc self tr None = eval_own' anc self tr (Some Round).
Proof. unfold eval_own. destruct (extra self); reflexivity. Qed.

Lemma mask_own_default_mode anc self tr :
  mask_own' anc self tr None = mask_own' anc self tr (Some Round).
Proof. unfold mask_own. destruct (extra self); reflexivity. Qed.

(** A call that is given a trace ignores the other timing arguments. *)
Lemma eval_with_trace anc s kw tr :
  kw_trace kw = Some tr ->
  eval' anc s kw = eval' anc s (child_kwds tr (default Round (kw_index_mode kw))).
Proof.
  intros H. destruct s as [self its]. rewrite eval_unfold, eval_child_unfold. cbv zeta.
  rewrite H. cbn [_make_eval_trace bind].
  destruct (kw_index_mode kw); [reflexivity|]. cbn [default].
  destruct (eval_children' _ _ _ _); cbn [bind]; [|reflexivity].
  apply eval_own_default_mode.
Qed.

Lemma mask_with_trace anc s kw tr :
  kw_trace kw = Some tr ->
  mask' anc s kw = mask' anc s (child_kwds tr (default Round (kw_index_mode kw))).
Proof.
  intros H. destruct s as [self its]. rewrite mask_unfold, mask_child_unfold. cbv zeta.
  rewrite H. cbn [_make_eval_trace bind].
  destruct (kw_index_mode kw); [reflexivity|]. cbn [default].
  destruct (mask_children' _ _ _ _); cbn [bind]; [|reflexivity].
  apply mask_own_default_mode.
Qed.

(** A call that is given no trace builds one and goes on as if it had been
    given it. *)
Lemma eval_without_trace anc self its kw :
  eval' anc (Node self its) kw =
  do trace <- _make_eval_trace self (kw_trace kw)
                (match kw_time_values kw, kw_t0 kw with
                 | None, None => Some 0%Q
                 | _, t => t
                 end)
                (kw_n_pts kw) (kw_dt kw) (kw_sample_rate kw) (kw_time_values kw);
  eval' anc (Node self its) (trace_kwds trace (kw_index_mode kw)).
Proof.
  rewrite eval_unfold. cbv zeta.
  destruct (_make_eval_trace _ _ _ _ _ _ _) as [trace|]; cbn [bind]; [|reflexivity].
  rewrite eval_unfold. reflexivity.
Qed.

Lemma mask_without_trace anc self its kw :
  mask' anc (Node self its) kw =
  do trace <- _make_eval_trace self (kw_trace kw) (kw_t0 kw)
                (kw_n_pts kw) (kw_dt kw) (kw_sample_rate kw) (kw_time_values kw);
  mask' anc (Node self its) (trace_kwds trace (kw_index_mode kw)).
Proof.
  rewrite mask_unfold. cbv zeta.
  destruct (_make_eval_trace _ _ _ _ _ _ _) as [trace|]; cbn [bind]; [|reflexivity].
  rewrite mask_unfold. reflexivity.
Qed.

Lemma eval_frame anc s kw tr tr' :
  kw_trace kw = Some tr -> eval' anc s kw = Ok tr' ->
  length (data tr') = length (data tr) /\ set_data tr' (data tr) = tr.
Proof.
  intros Hk. rewrite (eval_with_trace anc s kw tr Hk).
  destruct (eval_uniform np_sin np_log np_power np_pi psp_func search_index s anc
              (default Round (kw_index_mode kw)) tr) as [(e & He)|(u & _ & Hu)].
  - specialize (He (data tr) eq_refl). rewrite set_data_id in He. congruence.
  - specialize (Hu (data tr) eq_refl). rewrite set_data_id in Hu. rewrite Hu.
    intros H. inversion H; subst tr'. cbn [data set_data]. rewrite length_imap.
    split; [reflexivity|]. exact (set_data_id tr).
Qed.

Lemma mask_frame anc s kw tr tr' :
  kw_trace kw = Some tr -> mask' anc s kw = Ok tr' ->
  length (data tr') = length (data tr) /\ set_data tr' (data tr) = tr.
Proof.
  intros Hk. rewrite (mask_with_trace anc s kw tr Hk).
  destruct (mask_uniform search_index s anc
              (default Round (kw_index_mode kw)) tr) as [(e & He)|(u & _ & Hu)].
  - specialize (He (data tr) eq_refl). rewrite set_data_id in He. congruence.
  - specialize (Hu (data tr) eq_refl). rewrite set_data_id in Hu. rewrite Hu.
    intros H. inversion H; subst tr'. cbn [data set_data]. rewrite length_imap.
    split; [reflexivity|]. exact (set_data_id tr).
Qed.

(** X13.  [eval] and [mask] called with a trace return that trace with
    nothing but its samples changed: the number of samples, the timing
    and the units stay. *)
Theorem eval_mask_keep_the_frame anc s kw tr tr' :
  kw_trace kw = Some tr ->
  eval' anc s kw = Ok tr' \/ mask' anc s kw = Ok tr' ->
  length (data tr') = length (data tr) /\ set_data tr' (data tr) = tr.
Proof.
  intros Hk [H|H]; [eapply eval_frame|eapply mask_frame]; eauto.
Qed.

(** X14.  [eval] and [mask] called without a trace return one with a
    sample per entry of [time_values] or else with [n_pts] samples, with
    the units of the stimulus that was called and the timing arguments as
    given, but for the start time of [eval], which is 0 when neither a
    start time nor time values are given. *)
Theorem eval_mask_build_the_trace anc s kw tr' :
  kw_trace kw = None ->
  let n := match kw_time_values kw with
           | Some tv => length tv
           | None => default 0%nat (kw_n_pts kw)
           end in
  (eval' anc s kw = Ok tr' ->
   length (data tr') = n /\
   t0 tr' = match kw_time_values kw, kw_t0 kw with
            | None, None => Some 0%Q
            | _, t => t
            end /\
   dt tr' = kw_dt kw /\ sample_rate tr' = kw_sample_rate kw /\
   time_values tr' = kw_time_values kw /\ ts_units tr' = units (attrs_of s)) /\
  (mask' anc s kw = Ok tr' ->
   length (data tr') = n /\ t0 tr' = kw_t0 kw /\
   dt tr' = kw_dt kw /\ sample_rate tr' = kw_sample_rate kw /\
   time_values tr' = kw_time_values kw /\ ts_units tr' = units (attrs_of s)).
Proof.
  intros Hk n. destruct s as [self its]. split.
  - rewrite eval_without_trace, Hk. unfold _make_eval_trace.
    destruct (kw_time_values kw) as [tv|] eqn:Htv; cbn [bind].
    + intros H. apply eval_frame with (tr := mkTSeries (zeros (length tv)) (kw_t0 kw) (kw_dt kw)
                                                (kw_sample_rate kw) (Some tv) (units self))
        in H as [Hl Hf]; [|reflexivity].
      cbn [data] in Hl, Hf. rewrite length_zeros in Hl.
      destruct tr'; cbn in *. inversion Hf; subst.
      repeat split; try reflexivity; exact Hl.
    + destruct (kw_n_pts kw) as [m|]; cbn [bind]; [|discriminate].
      intros H. apply eval_frame with (tr := mkTSeries (zeros m)
                                                (match kw_t0 kw with
                                                 | Some q => Some q | None => Some 0%Q end)
                                                (kw_dt kw) (kw_sample_rate kw) None (units self))
        in H as [Hl Hf]; [|reflexivity].
      cbn [data] in Hl, Hf. rewrite length_zeros in Hl.
      destruct tr'; cbn in *. inversion Hf; subst.
      repeat split; try reflexivity; exact Hl.
  - rewrite mask_without_trace, Hk. unfold _make_eval_trace.
    destruct (kw_time_values kw) as [tv|] eqn:Htv; cbn [bind].
    + intros H. apply mask_frame with (tr := mkTSeries (zeros (length tv)) (kw_t0 kw) (kw_dt kw)
                                                (kw_sample_rate kw) (Some tv) (units self))
        in H as [Hl Hf]; [|reflexivity].
      cbn [data] in Hl, Hf. rewrite length_zeros in Hl.
      destruct tr'; cbn in *. inversion Hf; subst.
      repeat split; try reflexivity; exact Hl.
    + destruct (kw_n_pts kw) as [m|]; cbn [bind]; [|discriminate].
      intros H. apply mask_frame with (tr := mkTSeries (zeros m) (kw_t0 kw)
                                                (kw_dt kw) (kw_sample_rate kw) None (units self))
        in H as [Hl Hf]; [|reflexivity].
      cbn [data] in Hl, Hf. rewrite length_zeros in Hl.
      destruct tr'; cbn in *. inversion Hf; subst.
      repeat split; try reflexivity; exact Hl.
Qed.

(** *** Evaluation adds to the trace *)

Lemma fold_plus_from_zero (l : list Q) (x : Q) :
  (fold_left Qplus l x == x + fold_left Qplus l 0)%Q.
Proof.
  revert x. induction l as [|a l IH]; intros x; cbn.
  - ring.
  - rewrite !fold_plus_swap. specialize (IH x).
    apply Qeq_trans with ((x + fold_left Qplus l 0) + a)%Q.
    + apply Qplus_comp; [exact IH|reflexivity].
    + ring.
Qed.

Lemma imap_additive (ds : nat -> list Q) (u : nat -> Q -> Q) (d : list Q) :
  (forall k x, u k x = fold_left Qplus (ds k) x) ->
  Forall2 Qeq (imap u d) (zip_with Qplus d (imap u (zeros (length d)))).
Proof.
  revert ds u. induction d as [|x d IH]; intros ds u Hu; cbn; constructor.
  - rewrite !Hu. apply fold_plus_from_zero.
  - apply (IH (fun k => ds (S k))). intros k y. apply Hu.
Qed.

(** X15.  [eval] called with a trace adds to the samples of the trace:
    the result is, sample by sample, what the trace held plus what the
    same call gives on a trace of zeros with the same timing; and the two
    calls fail together. *)
Theorem eval_adds_to_the_trace anc s tr mode :
  match eval' anc s (trace_kwds tr mode),
        eval' anc s (trace_kwds (set_data tr (zeros (length (data tr)))) mode) with
  | Ok out, Ok alone => Forall2 Qeq (data out) (zip_with Qplus (data tr) (data alone))
  | Raise e, Raise e' => e = e'
  | _, _ => False
  end.
Proof.
  rewrite (eval_with_trace anc s (trace_kwds tr mode) tr eq_refl).
  rewrite (eval_with_trace anc s (trace_kwds (set_data tr (zeros (length (data tr)))) mode)
             (set_data tr (zeros (length (data tr)))) eq_refl).
  cbn [kw_index_mode trace_kwds].
  destruct (eval_uniform np_sin np_log np_power np_pi psp_func search_index s anc
              (default Round mode) tr) as [(e & He)|(u & (ds & Hds) & Hu)].
  - pose proof (He (data tr) eq_refl) as H1. rewrite set_data_id in H1.
    pose proof (He (zeros (length (data tr))) (length_zeros _)) as H2.
    rewrite H1, H2. reflexivity.
  - pose proof (Hu (data tr) eq_refl) as H1. rewrite set_data_id in H1.
    pose proof (Hu (zeros (length (data tr))) (length_zeros _)) as H2.
    rewrite H1, H2. cbn [data set_data]. now apply imap_additive with (ds := ds).
Qed.

(** *** Masks *)

Lemma imap_marking (w : nat -> bool) (d : list Q) :
  Forall2 (fun x y => y = 1%Q \/ y = x) d (imap (fun k x => if w k then 1%Q else x) d).
Proof.
  revert w. induction d as [|x d IH]; intros w; cbn; constructor.
  - destruct (w 0%nat); auto.
  - apply (IH (fun k => w (S k))).
Qed.

(** X16.  [mask] called with a trace sets samples to 1 ([True]) and leaves
    the others as they were; masking the result again changes nothing. *)
Theorem mask_marks_once anc s tr mode tr' :
  mask' anc s (trace_kwds tr mode) = Ok tr' ->
  Forall2 (fun x y => y = 1%Q \/ y = x) (data tr) (data tr') /\
  mask' anc s (trace_kwds tr' mode) = Ok tr'.
Proof.
  rewrite (mask_with_trace anc s (trace_kwds tr mode) tr eq_refl).
  rewrite (mask_with_trace anc s (trace_kwds tr' mode) tr' eq_refl).
  cbn [kw_index_mode trace_kwds].
  destruct (mask_uniform search_index s anc (default Round mode) tr)
    as [(e & He)|(u & (w & Hw) & Hu)].
  - specialize (He (data tr) eq_refl). rewrite set_data_id in He. congruence.
  - pose proof (Hu (data tr) eq_refl) as H0. rewrite set_data_id in H0. rewrite H0.
    intros H. inversion H; subst tr'. clear H. cbn [data set_data]. split.
    + rewrite (imap_pointwise u (fun k x => if w k then 1%Q else x)) by exact Hw.
      apply imap_marking.
    + rewrite Hu by apply length_imap. f_equal. f_equal.
      rewrite imap_compose. apply imap_pointwise. intros k x. rewrite !Hw.
      destruct (w k); reflexivity.
Qed.

End EvalMask.

Lemma eval_mask_keep_the_frame_witness :
  exists tr',
    eval (fun x => x) (fun x => x) Qmult 3 (fun x _ _ _ _ _ _ => x) (fun _ _ _ => 0%Z) []
      (SquarePulse__init__ 1 2 5 "square pulse" None)
      (trace_kwds (mkTSeries [1; 1; 1; 1]%Q (Some 0%Q) (Some 1%Q) None None (Some "A")) None)
      = Ok tr' /\
    length (data tr') = 4%nat /\ ts_units tr' = Some "A".
Proof.
  eexists. split; [vm_compute; reflexivity|].
  destruct (eval_mask_keep_the_frame (fun x => x) (fun x => x) Qmult 3
              (fun x _ _ _ _ _ _ => x) (fun _ _ _ => 0%Z) []
              (SquarePulse__init__ 1 2 5 "square pulse" None)
              (trace_kwds (mkTSeries [1; 1; 1; 1]%Q (Some 0%Q) (Some 1%Q) None None (Some "A"))
                 None)
              (mkTSeries [1; 1; 1; 1]%Q (Some 0%Q) (Some 1%Q) None None (Some "A"))
              _ eq_refl (or_introl eq_refl)) as [H1 H2].
  split; [exact H1|]. reflexivity.
Defined.

Lemma eval_mask_build_the_trace_witness :
  let tr' := mkTSeries (zeros 5) None (Some 1%Q) None None (Some "A") in
  mask (fun _ _ _ => 0%Z) [] (Stimulus__init__ "stimulus" 0 (Some "A") [])
    (Kwds None (Some 5%nat) (Some 1%Q) None None None None) = Ok tr' /\
  length (data tr') = 5%nat /\ t0 tr' = None /\ ts_units tr' = Some "A".
Proof.
  cbv zeta. split; [vm_compute; reflexivity|].
  destruct (eval_mask_build_the_trace (fun x => x) (fun x => x) Qmult 3
              (fun x _ _ _ _ _ _ => x) (fun _ _ _ => 0%Z) []
              (Stimulus__init__ "stimulus" 0 (Some "A") [])
              (Kwds None (Some 5%nat) (Some 1%Q) None None None None)
              (mkTSeries (zeros 5) None (Some 1%Q) None None (Some "A")) eq_refl)
    as [_ H].
  destruct (H eq_refl) as (H1 & H2 & _ & _ & _ & H3). auto.
Defined.

Lemma mask_marks_once_witness :
  exists tr',
    mask (fun _ _ _ => 0%Z) [] (SquarePulse__init__ 1 2 5 "square pulse" None)
      (trace_kwds (mkTSeries [0; 0; 0; 0]%Q (Some 0%Q) (Some 1%Q) None None None) None) = Ok tr' /\
    mask (fun _ _ _ => 0%Z) [] (SquarePulse__init__ 1 2 5 "square pulse" None)
      (trace_kwds tr' None) = Ok tr'.
Proof.
  eexists. split; [vm_compute; reflexivity|].
  apply (mask_marks_once (fun _ _ _ => 0%Z) [] (SquarePulse__init__ 1 2 5 "square pulse" None)
           (mkTSeries [0; 0; 0; 0]%Q (Some 0%Q) (Some 1%Q) None None None) None).
  vm_compute. reflexivity.
Defined.

(** ** Evaluation stays within the mask *)

Section Within.

Variable np_sin : Q -> Q.
Variable np_log : Q -> Q.
Variable np_power : Q -> Q -> Q.
Variable np_pi : Q.
Variable psp_func : Q -> Q -> Q -> Q -> Q -> Q -> Q -> Q.
Variable search_index : list Q -> Q -> index_mode -> Z.

#[local] Abbreviation eval' := (eval np_sin np_log np_power np_pi psp_func search_index).
#[local] Abbreviation eval_own' := (eval_own np_sin np_log np_power np_pi psp_func search_index).
#[local] Abbreviation eval_children' :=
  (eval_children np_sin np_log np_power np_pi psp_func search_index).
#[local] Abbreviation mask' := (mask search_index).
#[local] Abbreviation mask_own' := (mask_own search_index).
#[local] Abbreviation mask_children' := (mask_children search_index).
#[local] Abbreviation index_at' := (index_at search_index).
#[local] Abbreviation time_slice' := (time_slice search_index).

Lemma together_ret : together (fun tr => Ok tr) (fun tr => Ok tr).
Proof.
  intros tr. right. exists (fun _ x => x), (fun _ => false).
  split; [reflexivity|]. intros d _.
  assert (E : imap (fun (_ : nat) (x : Q) => x) d = d).
  { clear. induction d as [|x d IH]; cbn; [reflexivity|]. f_equal. exact IH. }
  rewrite E. auto.
Qed.

Lemma together_bind F1 G1 F2 G2 :
  together F1 G1 -> together F2 G2 ->
  together (fun tr => do tr' <- F1 tr; F2 tr') (fun tr => do tr' <- G1 tr; G2 tr').
Proof.
  intros H1 H2 tr.
  destruct (H1 tr) as [(e & He)|(u & w & Hw & Hu)].
  - left. exists e. intros d Hd. destruct (He d Hd) as [-> ->]. auto.
  - destruct (H2 tr) as [(e & He)|(u' & w' & Hw' & Hu')].
    + left. exists e. intros d Hd. destruct (Hu d Hd) as [-> ->]. cbn [bind].
      split; apply He; now rewrite length_imap.
    + right. exists (fun k x => u' k (u k x)), (fun k => w k || w' k). split.
      * intros k x Hk. apply orb_false_iff in Hk as [Hk Hk'].
        now rewrite (Hw k x Hk), (Hw' k x Hk').
      * intros d Hd. destruct (Hu d Hd) as [-> ->]. cbn [bind].
        destruct (Hu' (imap u d)) as [-> _]; [now rewrite length_imap|].
        destruct (Hu' (imap (fun k x => if w k then 1%Q else x) d)) as [_ ->];
          [now rewrite length_imap|].
        rewrite !imap_compose. split; [reflexivity|].
        f_equal. f_equal. apply imap_pointwise. intros k x.
        destruct (w k), (w' k); reflexivity.
Qed.

Lemma together_ext F G F' G' :
  (forall tr, F tr = F' tr) -> (forall tr, G tr = G' tr) -> together F G -> together F' G'.
Proof.
  intros HF HG H tr. destruct (H tr) as [(e & He)|(u & w & Hw & Hu)].
  - left. exists e. intros d Hd. rewrite <- HF, <- HG. now apply He.
  - right. exists u, w. split; [exact Hw|]. intros d Hd. rewrite <- HF, <- HG. now apply Hu.
Qed.

Lemma time_slice_timing tr start stop mode r :
  time_slice' tr start stop mode = Ok r -> exists tm, timing_of tr = Ok tm.
Proof.
  unfold time_slice, index_at. destruct (timing_of tr) as [tm|]; [eauto|discriminate].
Qed.

Lemma within_region lo hi (f : nat -> Q) (k : nat) (x : Q) :
  Nat.leb lo k && Nat.ltb k hi = false ->
  (if Nat.leb lo k && Nat.ltb k hi then (x + f (k - lo)%nat)%Q else x) = x.
Proof. intros ->. reflexivity. Qed.

Ltac region_case anc self mode tr :=
  let lo := fresh "lo" in let hi := fresh "hi" in
  let e := fresh "e" in let Hs := fresh "Hs" in
  destruct (time_slice' tr (global_start_time anc (Node self []))
              (global_start_time anc (Node self []) + duration_of self) mode)
    as [[lo hi]|e] eqn:Hs;
  [ destruct (time_slice_timing _ _ _ _ _ Hs) as (tm & Ht)
  | left; exists e; intros d Hd; rewrite time_slice_set_data, Hs by exact Hd;
    split; reflexivity ].

Lemma together_own anc self mode :
  together (fun tr => eval_own' anc self tr mode) (fun tr => mask_own' anc self tr mode).
Proof.
  intros tr. unfold eval_own, mask_own.
  destruct (extra self) eqn:E; try apply together_ret.
  - (* Offset *)
    destruct (index_at' tr (global_start_time anc (Node self [])) mode) as [i|e] eqn:Hi.
    + right.
      exists (fun k x => if Nat.leb (py_bound (length (data tr)) i) k
                            && Nat.ltb k (length (data tr))
                         then (x + amplitude)%Q else x),
             (fun k => Nat.leb (py_bound (length (data tr)) i) k
                       && Nat.ltb k (length (data tr))).
      split; [intros k x ->; reflexivity|].
      intros d Hd. rewrite index_at_set_data, Hi. cbn [bind data set_data].
      rewrite Hd. split; reflexivity.
    + left. exists e. intros d Hd. rewrite index_at_set_data, Hi. split; reflexivity.
  - (* SquarePulse *)
    region_case anc self mode tr. right.
    exists (fun k x => if Nat.leb lo k && Nat.ltb k hi then (x + amplitude)%Q else x),
           (fun k => Nat.leb lo k && Nat.ltb k hi).
    split; [intros k x ->; reflexivity|].
    intros d Hd. rewrite time_slice_set_data, Hs by exact Hd. split; reflexivity.
  - (* Ramp *)
    region_case anc self mode tr. right.
    exists (fun k x => if Nat.leb lo k && Nat.ltb k hi
                       then (x + (inject_Z (Z.of_nat (k - lo)) * slope + offset))%Q else x),
           (fun k => Nat.leb lo k && Nat.ltb k hi).
    split; [intros k x ->; reflexivity|].
    intros d Hd. rewrite time_slice_set_data, Hs by exact Hd. split; reflexivity.
  - (* Sine *)
    region_case anc self mode tr. right.
    exists (fun k x =>
              if Nat.leb lo k && Nat.ltb k hi
              then (x + offset +
                    amplitude * np_sin (Sine_phase_at np_pi phase frequency
                                          (sample_time tm (lo + (k - lo)) -
                                           global_start_time anc (Node self []))))%Q
              else x),
           (fun k => Nat.leb lo k && Nat.ltb k hi).
    split; [intros k x ->; reflexivity|].
    intros d Hd. rewrite time_slice_set_data, Hs by exact Hd. cbn [bind].
    rewrite timing_of_set_data, Ht. cbn [bind data set_data].
    split; [|reflexivity]. unfold add_region. rewrite imap_compose.
    f_equal. f_equal. apply imap_pointwise. intros k x.
    destruct (Nat.leb lo k && Nat.ltb k hi); reflexivity.
  - (* Chirp *)
    region_case anc self mode tr. right.
    exists (fun k x =>
              if Nat.leb lo k && Nat.ltb k hi
              then (x + offset +
                    amplitude * np_sin (Chirp_phase_at np_log np_power np_pi (duration_of self)
                                          start_frequency end_frequency phase
                                          (sample_time tm (lo + (k - lo)) -
                                           global_start_time anc (Node self []))))%Q
              else x),
           (fun k => Nat.leb lo k && Nat.ltb k hi).
    split; [intros k x ->; reflexivity|].
    intros d Hd. rewrite time_slice_set_data, Hs by exact Hd. cbn [bind].
    rewrite timing_of_set_data, Ht. cbn [bind data set_data].
    split; [|reflexivity]. unfold add_region. rewrite imap_compose.
    f_equal. f_equal. apply imap_pointwise. intros k x.
    destruct (Nat.leb lo k && Nat.ltb k hi); reflexivity.
  - (* Psp *)
    region_case anc self mode tr. right.
    exists (fun k x =>
              if Nat.leb lo k && Nat.ltb k hi
              then (x + psp_func (sample_time tm (lo + (k - lo)))
                          (global_start_time anc (Node self []))
                          0 rise_time decay_tau amplitude rise_power)%Q
              else x),
           (fun k => Nat.leb lo k && Nat.ltb k hi).
    split; [intros k x ->; reflexivity|].
    intros d Hd. rewrite time_slice_set_data, Hs by exact Hd. cbn [bind].
    rewrite timing_of_set_data, Ht. split; reflexivity.
Qed.

Lemma together_eval_mask s : forall anc mode,
  together (fun tr => eval' anc s (child_kwds tr mode))
           (fun tr => mask' anc s (child_kwds tr mode)).
Proof.
  induction s as [self its IH] using stim_ind. intros anc mode.
  eapply together_ext;
    [intros tr; symmetry; apply eval_child_unfold
    |intros tr; symmetry; apply mask_child_unfold|].
  apply together_bind; [|apply together_own].
  induction IH as [|x its Hx _ IHits]; cbn [eval_children mask_children].
  - apply together_ret.
  - apply together_bind; [apply Hx | exact IHits].
Qed.

(** X17.  [eval] changes no sample that [mask] does not mark: with the
    same trace timing and index mode, a sample that the mask of the
    stimulus leaves at 0 keeps in the evaluation the value the trace had;
    and the two calls fail together, with the same exception. *)
Theorem eval_stays_within_mask anc s tr mode :
  match eval' anc s (trace_kwds tr mode),
        mask' anc s (trace_kwds (set_data tr (zeros (length (data tr)))) mode) with
  | Ok out, Ok marked =>
      forall k, data marked !! k = Some 0%Q -> data out !! k = data tr !! k
  | Raise e, Raise e' => e = e'
  | _, _ => False
  end.
Proof.
  rewrite (eval_with_trace _ _ _ _ _ _ anc s (trace_kwds tr mode) tr eq_refl).
  rewrite (mask_with_trace _ anc s (trace_kwds (set_data tr (zeros (length (data tr)))) mode)
             (set_data tr (zeros (length (data tr)))) eq_refl).
  cbn [kw_index_mode trace_kwds].
  destruct (together_eval_mask s anc (default Round mode) tr)
    as [(e & He)|(u & w & Hw & Hu)].
  - destruct (He (data tr) eq_refl) as [H1 _]. rewrite set_data_id in H1.
    destruct (He (zeros (length (data tr))) (length_zeros _)) as [_ H2].
    rewrite H1, H2. reflexivity.
  - destruct (Hu (data tr) eq_refl) as [H1 _]. rewrite set_data_id in H1.
    destruct (Hu (zeros (length (data tr))) (length_zeros _)) as [_ H2].
    rewrite H1, H2. cbn [data set_data]. intros k Hk.
    rewrite list_lookup_imap in Hk |- *.
    destruct (zeros (length (data tr)) !! k) as [z|] eqn:Hz; [|discriminate].
    cbn in Hk. destruct (w k) eqn:Hwk; [discriminate|].
    destruct (data tr !! k) as [x|]; [|reflexivity]. cbn. f_equal. now apply Hw.
Qed.

(** *** An offset that starts before the trace *)

Lemma imap_map {A B} (f : A -> B) (l : list A) : imap (fun _ => f) l = map f l.
Proof. induction l as [|x l IH]; cbn; [reflexivity|]. f_equal. exact IH. Qed.

Lemma add_region_tail lo (f : nat -> Q) (d : list Q) :
  (lo <= length d)%nat ->
  add_region lo (length d) f d =
  firstn lo d ++ imap (fun k x => (x + f k)%Q) (skipn lo d).
Proof.
  intros Hlo. rewrite <- (firstn_skipn lo d) at 2.
  rewrite add_region_skip by (rewrite length_firstn; lia).
  f_equal. rewrite length_firstn. unfold add_region. apply imap_ext.
  intros k x Hk. apply lookup_lt_Some in Hk. rewrite length_skipn in Hk.
  replace (Nat.min lo (length d)) with lo by lia.
  rewrite Nat.sub_diag.
  destruct (Nat.ltb_spec k (length d - lo)); [|lia]. cbn. now rewrite Nat.sub_0_r.
Qed.

Lemma mark_region_tail lo (d : list Q) :
  (lo <= length d)%nat ->
  mark_region lo (length d) d = firstn lo d ++ map (fun _ => 1%Q) (skipn lo d).
Proof.
  intros Hlo. rewrite <- (firstn_skipn lo d) at 2.
  unfold mark_region. rewrite imap_app. f_equal.
  - transitivity (imap (fun (_ : nat) (x : Q) => x) (firstn lo d)).
    + apply imap_ext. intros k x Hk. apply lookup_lt_Some in Hk.
      rewrite length_firstn in Hk.
      destruct (Nat.leb_spec lo k); [lia|reflexivity].
    + rewrite (imap_map (fun x : Q => x)). apply map_id.
  - rewrite length_firstn. replace (Nat.min lo (length d)) with lo by lia.
    transitivity (imap (fun (_ : nat) (_ : Q) => 1%Q) (skipn lo d)).
    + apply imap_ext. intros k x Hk. apply lookup_lt_Some in Hk.
      rewrite length_skipn in Hk. unfold compose.
      destruct (Nat.leb_spec lo (lo + k)); [|lia].
      destruct (Nat.ltb_spec (lo + k) (length d)); [|lia]. reflexivity.
    + apply (imap_map (fun _ : Q => 1%Q)).
Qed.

(** X18.  The start index of an [Offset] is used as it comes from
    [index_at], in the slice [data[start_ind:]].  When the offset starts
    before the trace, by [m] samples with [m] no more than the length of
    the trace, the index is [-m], and the slice is the last [m] samples:
    they alone get the amplitude (or the mark), although every sample of
    the trace comes after the start of the offset. *)
Theorem offset_before_the_trace anc desc st u d amplitude tr mode (m : nat) :
  let self := Attrs desc st u d (F_Offset amplitude) in
  let n := length (data tr) in
  index_at' tr (global_start_time anc (Node self [])) mode = Ok (- Z.of_nat m)%Z ->
  (1 <= m <= n)%nat ->
  eval' anc (Node self []) (trace_kwds tr mode) =
    Ok (set_data tr (firstn (n - m) (data tr) ++
                     map (fun x => (x + amplitude)%Q) (skipn (n - m) (data tr)))) /\
  mask' anc (Node self []) (trace_kwds tr mode) =
    Ok (set_data tr (firstn (n - m) (data tr) ++
                     map (fun _ => 1%Q) (skipn (n - m) (data tr)))).
Proof.
  intros self n Hi Hm.
  assert (Hb : py_bound n (- Z.of_nat m) = (n - m)%nat).
  { unfold py_bound. destruct (Z.ltb_spec (- Z.of_nat m) 0); lia. }
  split.
  - rewrite eval_unfold. cbn [trace_kwds kw_trace kw_index_mode _make_eval_trace bind
                              eval_children kw_time_values kw_t0 kw_n_pts kw_dt kw_sample_rate].
    cbv zeta. cbn [bind _make_eval_trace eval_children].
    unfold eval_own. cbn [extra self]. fold self. rewrite Hi. cbn [bind]. fold n.
    rewrite Hb. unfold n. rewrite add_region_tail by lia.
    do 3 f_equal. apply (imap_map (fun x : Q => (x + amplitude)%Q)).
  - rewrite mask_unfold. cbn [trace_kwds kw_trace kw_index_mode _make_eval_trace bind
                              mask_children kw_time_values kw_t0 kw_n_pts kw_dt kw_sample_rate].
    cbv zeta. cbn [bind _make_eval_trace mask_children].
    unfold mask_own. cbn [extra self]. fold self. rewrite Hi. cbn [bind]. fold n.
    rewrite Hb. unfold n. rewrite mark_region_tail by lia. reflexivity.
Qed.

(** *** Trains and series as containers *)

Lemma global_start_time_anc anc anc' s :
  map _start_time anc = map _start_time anc' ->
  global_start_time anc s = global_start_time anc' s.
Proof.
  unfold global_start_time, ancestry. cbn [fold_left].
  generalize (0 + _start_time (attrs_of s))%Q.
  revert anc'. induction anc as [|a anc IH]; intros [|a' anc'] q H; try discriminate;
    [reflexivity|].
  cbn in H. inversion H as [[H1 H2]]. cbn [fold_left]. rewrite H1. now apply IH.
Qed.

Lemma eval_own_anc anc anc' self tr mode :
  map _start_time anc = map _start_time anc' ->
  eval_own' anc self tr mode = eval_own' anc' self tr mode.
Proof.
  intros H. unfold eval_own. now rewrite (global_start_time_anc anc anc' (Node self []) H).
Qed.

Lemma mask_own_anc anc anc' self tr mode :
  map _start_time anc = map _start_time anc' ->
  mask_own' anc self tr mode = mask_own' anc' self tr mode.
Proof.
  intros H. unfold mask_own. now rewrite (global_start_time_anc anc anc' (Node self []) H).
Qed.

Lemma eval_mask_anc s : forall anc anc' kw,
  map _start_time anc = map _start_time anc' ->
  eval' anc s kw = eval' anc' s kw /\ mask' anc s kw = mask' anc' s kw.
Proof.
  induction s as [self its IH] using stim_ind. intros anc anc' kw H.
  assert (H' : map _start_time (self :: anc) = map _start_time (self :: anc'))
    by (cbn; now rewrite H).
  assert (Hch : forall mode tr,
             eval_children' (self :: anc) its mode tr = eval_children' (self :: anc') its mode tr /\
             mask_children' (self :: anc) its mode tr = mask_children' (self :: anc') its mode tr).
  { intros mode. induction IH as [|x its Hx _ IHits]; intros tr; cbn [eval_children mask_children].
    - auto.
    - destruct (Hx (self :: anc) (self :: anc') (child_kwds tr mode) H') as [-> ->].
      split.
      + destruct (eval' _ x _); cbn [bind]; [apply IHits|reflexivity].
      + destruct (mask' _ x _); cbn [bind]; [apply IHits|reflexivity]. }
  rewrite !eval_unfold, !mask_unfold. cbv zeta. split.
  - destruct (_make_eval_trace _ _ _ _ _ _ _) as [tr|]; cbn [bind]; [|reflexivity].
    destruct (Hch (default Round (kw_index_mode kw)) tr) as [-> _].
    destruct (eval_children' _ _ _ _); cbn [bind]; [|reflexivity]. now apply eval_own_anc.
  - destruct (_make_eval_trace _ _ _ _ _ _ _) as [tr|]; cbn [bind]; [|reflexivity].
    destruct (Hch (default Round (kw_index_mode kw)) tr) as [_ ->].
    destruct (mask_children' _ _ _ _); cbn [bind]; [|reflexivity]. now apply mask_own_anc.
Qed.

(** X19.  A train, a series and a lazily loaded stimulus evaluate and mask
    as a plain [Stimulus] with the same start time, units and children
    does: what they give is what their children give. *)
Theorem containers_evaluate_as_their_children anc desc st u d f its kw :
  container f = true ->
  eval' anc (Node (Attrs desc st u d f) its) kw =
    eval' anc (Stimulus__init__ "stimulus" st u its) kw /\
  mask' anc (Node (Attrs desc st u d f) its) kw =
    mask' anc (Stimulus__init__ "stimulus" st u its) kw.
Proof.
  intros Hc. unfold Stimulus__init__.
  set (a := Attrs desc st u d f). set (b := Attrs "stimulus" st u 0 F_Stimulus).
  assert (Hch : forall mode tr,
             eval_children' (a :: anc) its mode tr = eval_children' (b :: anc) its mode tr /\
             mask_children' (a :: anc) its mode tr = mask_children' (b :: anc) its mode tr).
  { intros mode. induction its as [|x its IHits]; intros tr; cbn [eval_children mask_children].
    - auto.
    - destruct (eval_mask_anc x (a :: anc) (b :: anc) (child_kwds tr mode) eq_refl)
        as [-> ->].
      split.
      + destruct (eval' _ x _); cbn [bind]; [apply IHits|reflexivity].
      + destruct (mask' _ x _); cbn [bind]; [apply IHits|reflexivity]. }
  rewrite !eval_unfold, !mask_unfold. cbv zeta.
  change (units a) with u. change (units b) with u. split.
  - destruct (_make_eval_trace _ _ _ _ _ _ _) as [tr|]; cbn [bind]; [|reflexivity].
    destruct (Hch (default Round (kw_index_mode kw)) tr) as [-> _].
    destruct (eval_children' _ _ _ _); cbn [bind]; [|reflexivity].
    unfold eval_own. subst a b. cbn [extra]. destruct f; try discriminate; reflexivity.
  - destruct (_make_eval_trace _ _ _ _ _ _ _) as [tr|]; cbn [bind]; [|reflexivity].
    destruct (Hch (default Round (kw_index_mode kw)) tr) as [_ ->].
    destruct (mask_children' _ _ _ _); cbn [bind]; [|reflexivity].
    unfold mask_own. subst a b. cbn [extra]. destruct f; try discriminate; reflexivity.
Qed.

End Within.

Lemma offset_before_the_trace_witness :
  eval (fun x => x) (fun x => x) Qmult 3 (fun x _ _ _ _ _ _ => x) (fun _ _ _ => 0%Z) []
    (Offset__init__ 7 (-2) "offset" None)
    (trace_kwds (mkTSeries [0; 0; 0; 0; 0]%Q (Some 0%Q) (Some 1%Q) None None None) None) =
  Ok (mkTSeries [0; 0; 0; 0 + 7; 0 + 7]%Q (Some 0%Q) (Some 1%Q) None None None).
Proof.
  apply (offset_before_the_trace (fun x => x) (fun x => x) Qmult 3 (fun x _ _ _ _ _ _ => x)
           (fun _ _ _ => 0%Z) [] "offset" (-2) None 0 7
           (mkTSeries [0; 0; 0; 0; 0]%Q (Some 0%Q) (Some 1%Q) None None None) None 2).
  - vm_compute. reflexivity.
  - cbn. lia.
Defined.

Lemma containers_evaluate_as_their_children_witness :
  eval (fun x => x) (fun x => x) Qmult 3 (fun x _ _ _ _ _ _ => x) (fun _ _ _ => 0%Z) []
    (Node (Attrs "square pulse train" 1 None 0 (F_SquarePulseTrain 1 1 5 1))
       [SquarePulse__init__ 0 1 5 "square pulse" None])
    (Kwds None (Some 4%nat) (Some 1%Q) None None None None) =
  eval (fun x => x) (fun x => x) Qmult 3 (fun x _ _ _ _ _ _ => x) (fun _ _ _ => 0%Z) []
    (Stimulus__init__ "stimulus" 1 None [SquarePulse__init__ 0 1 5 "square pulse" None])
    (Kwds None (Some 4%nat) (Some 1%Q) None None None None).
Proof.
  apply (containers_evaluate_as_their_children (fun x => x) (fun x => x) Qmult 3
           (fun x _ _ _ _ _ _ => x) (fun _ _ _ => 0%Z) [] "square pulse train" 1 None 0
           (F_SquarePulseTrain 1 1 5 1) [SquarePulse__init__ 0 1 5 "square pulse" None]
           (Kwds None (Some 4%nat) (Some 1%Q) None None None None) eq_refl).
Defined.

(** ** Traces without pulses *)

Lemma argwhere_none (cond : Q -> bool) (l : list Q) : forall i,
  Forall (fun x => cond x = false) l -> argwhere cond i l = [].
Proof.
  induction l as [|x l IH]; intros i H; cbn; [reflexivity|].
  inversion H as [|? ? Hx H']; subst. rewrite Hx. now apply IH.
Qed.

Lemma np_diff_flat (v : Q) (d : list Q) :
  Forall (fun x => x == v)%Q d -> Forall (fun x => x == 0)%Q (np_diff d).
Proof.
  induction 1 as [|x d Hx Hd IH]; [constructor|].
  destruct d as [|y d]; [constructor|].
  change (np_diff (x :: y :: d)) with ((y - x)%Q :: np_diff (y :: d)).
  constructor; [|exact IH]. inversion Hd; subst.
  apply Qeq_trans with (v - v)%Q; [|ring].
  apply Qplus_comp; [assumption|]. now apply Qopp_comp.
Qed.

Lemma boundaries_flat (v : Q) (d : list Q) :
  Forall (fun x => x == v)%Q d -> boundaries d = [].
Proof.
  intros H. unfold boundaries. rewrite argwhere_none; [reflexivity|].
  eapply Forall_impl; [apply (np_diff_flat v d H)|].
  cbn. intros x Hx. now apply zero_test.
Qed.

(** X20.  A trace whose samples are all equal has no pulse, whatever the
    baseline: the run that starts at the first sample is never reported,
    even at a level other than the baseline.  Without a baseline the first
    sample is read, which raises [IndexError] on a trace without
    samples. *)
Theorem flat_trace_has_no_pulses (trace : TSeries) (v : Q) :
  Forall (fun x => x == v)%Q (data trace) ->
  (forall baseline, find_square_pulses trace (Some baseline) = Ok []) /\
  find_square_pulses trace None =
    match data trace with
    | [] => Raise IndexError
    | _ :: _ => Ok []
    end.
Proof.
  intros H. unfold find_square_pulses. rewrite (boundaries_flat v _ H).
  split; [reflexivity|]. destruct (data trace); reflexivity.
Qed.

Lemma flat_trace_has_no_pulses_witness :
  find_square_pulses (mkTSeries [5; 5; 5]%Q None None None None None) (Some 0%Q) = Ok [].
Proof.
  apply (flat_trace_has_no_pulses (mkTSeries [5; 5; 5]%Q None None None None None) 5).
  repeat constructor.
Defined.

Section Quiet.
Local Open Scope Q_scope.

Variable np_std : list Q -> Q.

Lemma np_diff_shift (m : Q) (d : list Q) :
  Forall2 Qeq (np_diff (map (fun x => x - m) d)) (np_diff d).
Proof.
  induction d as [|x d IH]; [constructor|].
  destruct d as [|y d]; [constructor|].
  change (np_diff (map (fun x => x - m) (x :: y :: d)))
    with ((((y - m) - (x - m)))%Q :: np_diff (map (fun x => x - m) (y :: d))).
  change (np_diff (x :: y :: d)) with ((y - x)%Q :: np_diff (y :: d)).
  constructor; [ring|exact IH].
Qed.

(** X21.  Detection in noise finds nothing in a trace whose samples never
    move by more than the threshold from one to the next (the threshold
    being the standard deviation of the baseline times [std_threshold]):
    no timing is read and no pulse returned. *)
Theorem quiet_trace_has_no_pulses (trace : TSeries) (baseline : option (list Q))
    (std_threshold min_duration min_amplitude : Q) :
  let b := default (firstn 200 (data trace)) baseline in
  Forall (fun x => Qabs x <= np_std b * std_threshold) (np_diff (data trace)) ->
  find_noisy_square_pulses np_std trace baseline std_threshold min_duration min_amplitude
    = Ok [].
Proof.
  intros b H. unfold find_noisy_square_pulses. cbv zeta.
  replace (match baseline with Some b0 => b0 | None => firstn 200 (data trace) end)
    with b by (subst b; destruct baseline; reflexivity).
  rewrite argwhere_none; [reflexivity|].
  pose proof (np_diff_shift (np_mean b) (data trace)) as Hs.
  revert H. induction Hs as [|x y l l' Hxy _ IH]; intros H; constructor.
  - inversion H; subst. unfold Qlt_bool. apply negb_false_iff, Qle_bool_iff.
    now rewrite Hxy.
  - apply IH. now inversion H.
Qed.

End Quiet.

Lemma quiet_trace_has_no_pulses_witness :
  find_noisy_square_pulses (fun _ => 1%Q)
    (mkTSeries [0; 1; 0; 2; 1]%Q (Some 0%Q) (Some 1%Q) None None None) None 5 0 0 = Ok [].
Proof.
  apply (quiet_trace_has_no_pulses (fun _ => 1%Q)
           (mkTSeries [0; 1; 0; 2; 1]%Q (Some 0%Q) (Some 1%Q) None None None) None 5 0 0).
  repeat constructor; discriminate.
Defined.

(** ** Evaluating what detection found *)

Section Redraw.
Local Open Scope Q_scope.

Variable np_sin : Q -> Q.
Variable np_log : Q -> Q.
Variable np_power : Q -> Q -> Q.
Variable np_pi : Q.
Variable psp_func : Q -> Q -> Q -> Q -> Q -> Q -> Q -> Q.
Variable search_index : list Q -> Q -> index_mode -> Z.

#[local] Abbreviation eval' := (eval np_sin np_log np_power np_pi psp_func search_index).
#[local] Abbreviation eval_children' :=
  (eval_children np_sin np_log np_power np_pi psp_func search_index).

Lemma sorted_app (l1 l2 : list nat) :
  StronglySorted lt (l1 ++ l2) ->
  StronglySorted lt l2 /\ forall x y, In x l1 -> In y l2 -> (x < y)%nat.
Proof.
  induction l1 as [|a l1 IH]; cbn; intros H.
  - split; [exact H|]. intros x y [].
  - inversion H as [|? ? H1 H2]; subst. destruct (IH H1) as [IH1 IH2].
    split; [exact IH1|]. intros x y [<-|Hx] Hy.
    + rewrite Forall_forall in H2. apply H2, list_elem_of_In, in_or_app. now right.
    + now apply IH2.
Qed.

Lemma argwhere_sorted (cond : Q -> bool) (l : list Q) : forall i,
  StronglySorted lt (argwhere cond i l) /\ Forall (fun j => (i <= j)%nat) (argwhere cond i l).
Proof.
  induction l as [|x l IH]; intros i; cbn; [split; constructor|].
  destruct (IH (S i)) as [H1 H2]. destruct (cond x).
  - split.
    + constructor; [exact H1|]. eapply Forall_impl; [exact H2|]. cbn. intros; lia.
    + constructor; [lia|]. eapply Forall_impl; [exact H2|]. cbn. intros; lia.
  - split; [exact H1|]. eapply Forall_impl; [exact H2|]. cbn. intros; lia.
Qed.

Lemma boundaries_sorted (d : list Q) : StronglySorted lt (boundaries d).
Proof.
  unfold boundaries.
  destruct (argwhere_sorted (fun x => negb (Qeq_bool x 0)) (np_diff d) 0) as [H _].
  induction H as [|j l _ IH Hj]; cbn; constructor; [exact IH|].
  apply Forall_forall. intros y Hy. apply list_elem_of_In, in_map_iff in Hy as (z & <- & Hz).
  rewrite Forall_forall in Hj. specialize (Hj z (proj2 (list_elem_of_In _ _) Hz)). lia.
Qed.

(** The samples between two indices are equal when no boundary lies after
    the first and up to the second. *)
Lemma level_run (d : list Q) (a k : nat) :
  (a <= k < length d)%nat ->
  (forall j, (a < j <= k)%nat -> ~ In j (boundaries d)) ->
  nth k d 0 == nth a d 0.
Proof.
  intros [Ha Hk] Hno. induction k as [|k IH].
  - replace a with 0%nat by lia. reflexivity.
  - destruct (decide (a = S k)) as [->|Hne]; [reflexivity|].
    rewrite <- IH; [|lia|lia|intros j Hj; apply Hno; lia].
    destruct (Qeq_dec (nth (S k) d 0) (nth k d 0)) as [E|E]; [exact E|].
    exfalso. apply (Hno (S k)); [lia|]. apply in_boundaries. split; [lia|].
    now replace (S k - 1)%nat with k by lia.
Qed.

Lemma nth_add_region lo hi (f : nat -> Q) (buf : list Q) (k : nat) :
  nth k (add_region lo hi f buf) 0%Q =
  if Nat.leb lo k && Nat.ltb k hi && Nat.ltb k (length buf)
  then (nth k buf 0 + f (k - lo)%nat)%Q else nth k buf 0%Q.
Proof.
  unfold add_region. rewrite !nth_lookup, list_lookup_imap.
  destruct (buf !! k) as [x|] eqn:E.
  - apply lookup_lt_Some in E.
    rewrite (proj2 (Nat.ltb_lt k (length buf)) E), andb_true_r. reflexivity.
  - apply lookup_ge_None in E.
    rewrite (proj2 (Nat.ltb_ge k (length buf)) E), andb_false_r. reflexivity.
Qed.

Lemma length_add_region lo hi f (buf : list Q) :
  length (add_region lo hi f buf) = length buf.
Proof. unfold add_region. apply length_imap. Qed.

(** Evaluating a square pulse that sits on the grid of the trace. *)
Lemma eval_pulse_on_grid (root : attrs) tr origin step (first last : nat)
    desc st u dur amplitude number :
  _start_time root == 0 ->
  timing_of tr = Ok (Regular origin step) -> ~ step == 0 ->
  st == origin + inject_Z (Z.of_nat first) * step ->
  dur == inject_Z (Z.of_nat last - Z.of_nat first) * step ->
  (first <= last <= length (data tr))%nat ->
  eval' [root] (Node (Attrs desc st u dur (F_SquarePulse amplitude number)) [])
    (child_kwds tr Round) =
  Ok (set_data tr (add_region first last (fun _ => amplitude) (data tr))).
Proof.
  intros Hroot Ht Hdt Hst Hdur Hlen.
  rewrite eval_child_unfold. cbn [eval_children bind].
  unfold eval_own. cbn [extra duration_of own_duration].
  rewrite (time_slice_grid search_index tr origin step _ _ first last (Some Round) Ht Hdt);
    [reflexivity| | |lia|lia].
  - unfold global_start_time, ancestry. cbn. rewrite Hroot, Hst. ring.
  - unfold global_start_time, ancestry. cbn. rewrite Hroot, Hst, Hdur.
    rewrite <- Z.add_opp_r, inject_Z_plus, inject_Z_opp. ring.
Qed.

(** The loop over the boundaries, with the pulses evaluated as they are
    found. *)
Lemma redraw_loop (root : attrs) (d : list Q) origin step u b rest :
  forall pre buf,
  _start_time root == 0 -> ~ step == 0 ->
  boundaries d = pre ++ rest ->
  length buf = length d ->
  filled_to d b (hd (length d) rest) buf ->
  exists buf',
    eval_children' [root]
      (flat_map (fun '(i, start) =>
                   detected_at (mkTSeries d (Some origin) (Some step) None None u)
                     (Regular origin step) b (boundaries d) i start)
         (combine (seq (length pre) (length rest)) rest))
      Round (mkTSeries buf (Some origin) (Some step) None None u) =
    Ok (mkTSeries buf' (Some origin) (Some step) None None u) /\
    filled_to d b (length d) buf'.
Proof.
  induction rest as [|c rest IH]; intros pre buf Hroot Hstep Hch Hlen Hfill.
  { exists buf. split; [reflexivity|exact Hfill]. }
  cbn [hd] in Hfill. cbn [length seq combine flat_map].
  set (n := length d) in *.
  pose proof (boundaries_sorted d) as Hsorted. rewrite Hch in Hsorted.
  destruct (sorted_app _ _ Hsorted) as [Hrest Hpre].
  inversion Hrest as [|? ? Hrest' Hc]; subst.
  assert (Hcin : In c (boundaries d)) by (rewrite Hch; apply in_or_app; right; now left).
  apply in_boundaries in Hcin as [[Hc1 Hc2] _]. fold n in Hc2.
  set (s := hd n rest).
  assert (Hs : (c < s <= n)%nat).
  { subst s. destruct rest as [|c' rest']; cbn [hd]; [lia|].
    inversion Hc; subst. split; [assumption|].
    assert (Hin : In c' (boundaries d))
      by (rewrite Hch; apply in_or_app; right; right; now left).
    apply in_boundaries in Hin as [[_ Hlt2] _]. fold n in Hlt2. lia. }
  assert (Hstop : (if Nat.ltb (length pre + 1) (length (boundaries d))
                   then nth (length pre + 1) (boundaries d) 0%nat
                   else length d) = s).
  { rewrite Hch, length_app. cbn [length]. subst s.
    destruct rest as [|c' rest']; cbn [hd length].
    - destruct (Nat.ltb_spec (length pre + 1) (length pre + 1)); [lia|reflexivity].
    - destruct (Nat.ltb_spec (length pre + 1) (length pre + S (S (length rest')))); [|lia].
      rewrite app_nth2 by lia.
      replace (length pre + 1 - length pre)%nat with 1%nat by lia. reflexivity. }
  assert (Hrun : forall k, (c <= k < s)%nat -> nth k d 0 == nth c d 0).
  { intros k Hk. apply level_run; [fold n; lia|].
    intros j Hj Hin. rewrite Hch in Hin. apply in_app_or in Hin as [Hin|[Hin|Hin]].
    - specialize (Hpre j c Hin (or_introl eq_refl)). lia.
    - lia.
    - subst s. destruct rest as [|c' rest']; [destruct Hin|]. cbn [hd] in Hk, Hs.
      inversion Hrest' as [|? ? _ Hc']; subst.
      destruct Hin as [<-|Hin]; [lia|].
      rewrite Forall_forall in Hc'.
      specialize (Hc' j (proj2 (list_elem_of_In _ _) Hin)). lia. }
  destruct Hfill as (_ & Hlow & Hhigh).
  assert (Hnext : forall buf1,
            length buf1 = n -> filled_to d b s buf1 ->
            exists buf',
              eval_children' [root]
                (flat_map (fun '(i, start) =>
                             detected_at (mkTSeries d (Some origin) (Some step) None None u)
                               (Regular origin step) b (boundaries d) i start)
                   (combine (seq (S (length pre)) (length rest)) rest))
                Round (mkTSeries buf1 (Some origin) (Some step) None None u) =
              Ok (mkTSeries buf' (Some origin) (Some step) None None u) /\
              filled_to d b n buf').
  { intros buf1 Hl1 Hf1.
    replace (S (length pre)) with (length (pre ++ [c])) by (rewrite length_app; cbn; lia).
    apply IH; auto. rewrite Hch, <- app_assoc. reflexivity. }
  unfold detected_at at 1. cbn [data ts_units]. rewrite Hstop.
  destruct (Qeq_bool (nth c d 0 - b) 0) eqn:Eamp; cbn [negb app].
  - (* the run is at the baseline: no pulse *)
    apply Qeq_bool_iff in Eamp.
    apply Hnext; [exact Hlen|]. split; [exact Hlen|]. split.
    + intros k Hk. destruct (Nat.lt_ge_cases k c) as [Hkc|Hkc]; [now apply Hlow|].
      rewrite (Hhigh k Hkc), (Hrun k) by lia. now rewrite Eamp.
    + intros k Hk. apply Hhigh. lia.
  - (* the run gives a pulse, which is evaluated *)
    cbn [eval_children]. unfold set_pulse_number, SquarePulse__init__.
    cbn [extra description _start_time units own_duration].
    rewrite (eval_pulse_on_grid root (mkTSeries buf (Some origin) (Some step) None None u)
               origin step c s); try reflexivity; auto.
    2:{ cbn [data]. fold n in Hlen. lia. }
    cbn [bind set_data data t0 dt sample_rate time_values ts_units].
    apply Hnext; [now rewrite length_add_region|].
    split; [now rewrite length_add_region|]. split.
    + intros k Hk. rewrite nth_add_region.
      destruct (Nat.leb_spec c k) as [Hck|Hck]; cbn [andb].
      * destruct (Nat.ltb_spec k s); [|lia].
        destruct (Nat.ltb_spec k (length buf)); [|fold n in Hlen; lia]. cbn [andb].
        rewrite (Hhigh k Hck), (Hrun k) by lia. ring.
      * now apply Hlow.
    + intros k Hk. rewrite nth_add_region.
      destruct (Nat.ltb_spec k s); [lia|]. rewrite andb_false_r. cbn [andb].
      apply Hhigh. lia.
Qed.

Lemma pointwise_Qeq (l1 l2 : list Q) :
  length l1 = length l2 ->
  (forall k, (k < length l1)%nat -> nth k l1 0 == nth k l2 0) ->
  Forall2 Qeq l1 l2.
Proof.
  revert l2. induction l1 as [|x l1 IH]; intros [|y l2] Hlen H; try discriminate;
    constructor.
  - apply (H 0%nat). cbn. lia.
  - apply IH; [cbn in Hlen; lia|]. intros k Hk. apply (H (S k)). cbn. lia.
Qed.

(** X22.  Detection followed by evaluation draws the trace again: on a
    regularly sampled trace, the pulses that [find_square_pulses] returns
    (no baseline given), evaluated as the children of a plain stimulus on
    the timing of the trace, give sample by sample the trace less its
    first sample. *)
Theorem detected_pulses_redraw_the_trace (d : list Q) (origin step : Q)
    (u : option string) (b : Q) :
  ~ step == 0 -> head d = Some b ->
  exists found out,
    find_square_pulses (mkTSeries d (Some origin) (Some step) None None u) None = Ok found /\
    eval' [] (Stimulus__init__ "stimulus" 0 u found)
      (Kwds None (Some (length d)) (Some step) None (Some origin) None None) = Ok out /\
    Forall2 Qeq (data out) (map (fun x => x - b) d).
Proof.
  intros Hstep Hb.
  pose proof (find_square_pulses_timed (mkTSeries d (Some origin) (Some step) None None u)
                (Regular origin step) None b eq_refl (or_intror (conj eq_refl Hb))) as Hfind.
  cbn [data] in Hfind.
  assert (Hstart : filled_to d b (hd (length d) (boundaries d)) (zeros (length d))).
  { split; [apply length_zeros|]. split; [|intros k _; apply nth_zeros].
    intros k Hk. rewrite nth_zeros.
    assert (Hk' : (k < length d)%nat).
    { destruct (boundaries d) as [|c cs] eqn:E; cbn [hd] in Hk; [exact Hk|].
      assert (Hin : In c (boundaries d)) by (rewrite E; now left).
      apply in_boundaries in Hin. lia. }
    rewrite (level_run d 0 k); [| lia |].
    - destruct d as [|x d']; [discriminate|]. cbn in Hb. inversion Hb; subst.
      cbn [nth]. ring.
    - intros j Hj Hin.
      destruct (boundaries d) as [|c cs] eqn:E; [destruct Hin|].
      cbn [hd] in Hk. pose proof (boundaries_sorted d) as Hs. rewrite E in Hs.
      inversion Hs as [|? ? _ Hc]; subst. destruct Hin as [<-|Hin]; [lia|].
      rewrite Forall_forall in Hc.
      specialize (Hc j (proj2 (list_elem_of_In _ _) Hin)). lia. }
  destruct (redraw_loop (Attrs "stimulus" 0 u 0 F_Stimulus) d origin step u b
              (boundaries d) [] (zeros (length d)) (Qeq_refl 0) Hstep eq_refl
              (length_zeros _) Hstart) as (buf' & Heval & Hfill).
  cbn [length seq] in Heval.
  eexists. exists (mkTSeries buf' (Some origin) (Some step) None None u).
  split; [exact Hfind|]. split.
  - unfold Stimulus__init__. rewrite eval_unfold. cbv zeta.
    cbn [kw_index_mode kw_time_values kw_t0 kw_trace kw_n_pts kw_dt kw_sample_rate
         _make_eval_trace bind units].
    change (default Round None) with Round.
    unfold enumerate. rewrite Heval. reflexivity.
  - cbn [data]. destruct Hfill as (Hl & Hlow & _).
    apply pointwise_Qeq; [now rewrite length_map|].
    intros k Hk. rewrite Hlow by lia.
    rewrite (nth_indep (map (fun x => x - b) d) 0 ((fun x => x - b) 0))
      by (rewrite length_map; lia).
    rewrite (map_nth (fun x => x - b)). reflexivity.
Qed.

End Redraw.

Lemma detected_pulses_redraw_the_trace_witness :
  exists found out,
    find_square_pulses (mkTSeries [1; 1; 3; 3; 1; 4]%Q (Some 0%Q) (Some (1#10)) None None None)
      None = Ok found /\
    eval (fun x => x) (fun x => x) Qmult 3 (fun x _ _ _ _ _ _ => x) (fun _ _ _ => 0%Z) []
      (Stimulus__init__ "stimulus" 0 None found)
      (Kwds None (Some 6%nat) (Some (1#10)) None (Some 0%Q) None None) = Ok out /\
    Forall2 Qeq (data out) (map (fun x => x - 1)%Q [1; 1; 3; 3; 1; 4]%Q).
Proof.
  apply (detected_pulses_redraw_the_trace (fun x => x) (fun x => x) Qmult 3
           (fun x _ _ _ _ _ _ => x) (fun _ _ _ => 0%Z) [1; 1; 3; 3; 1; 4]%Q 0 (1#10) None 1).
  - discriminate.
  - reflexivity.
Defined.

(** ** The sweep of a chirp *)

Section ChirpSweep.
Import RChirp.
Local Open Scope R_scope.

Lemma signed_inf_zero (x : R) : x = 0 -> signed_inf x = NaN.
Proof.
  intros ->. unfold signed_inf.
  destruct (Rlt_dec 0 0) as [H|_]; [lra|]. destruct (Rlt_dec 0 0) as [H|_]; [lra|].
  reflexivity.
Qed.

Lemma fl_mul_NaN_l (b : fl) : fl_mul NaN b = NaN.
Proof. destruct b; reflexivity. Qed.

Lemma fl_div_NaN_l (b : fl) : fl_div NaN b = NaN.
Proof. destruct b; reflexivity. Qed.

(** Zero times a logarithm that is infinite, and an infinite [k] times a
    logarithm that is zero, are NaN. *)
Lemma fl_mul_zero_inf (x : R) (b : fl) : x = 0 -> b = PInf \/ b = NInf -> fl_mul (Fin x) b = NaN.
Proof.
  intros Hx [-> | ->]; cbn; rewrite (signed_inf_zero x Hx); reflexivity.
Qed.

Lemma fl_mul_signed_inf_zero (x y : R) : y = 0 -> fl_mul (signed_inf x) (Fin y) = NaN.
Proof.
  intros Hy. unfold signed_inf.
  destruct (Rlt_dec 0 x); [|destruct (Rlt_dec x 0)]; cbn;
    try rewrite (signed_inf_zero y Hy); reflexivity.
Qed.

Lemma fl_zero_over_zero (x y : R) (p : fl) :
  x = 0 -> y = 0 -> fl_div (fl_mul (Fin x) p) (Fin y) = NaN.
Proof.
  intros Hx Hy. destruct p as [z| | |]; cbn.
  - destruct (Req_dec_T y 0) as [_|H]; [|contradiction].
    apply signed_inf_zero. rewrite Hx. ring.
  - rewrite (signed_inf_zero x Hx). reflexivity.
  - rewrite (signed_inf_zero x Hx). reflexivity.
  - reflexivity.
Qed.

(** X23.  [frequency_at] is the geometric sweep
    [start_frequency * (end_frequency / start_frequency) ** (t / duration)]
    when the two frequencies are non-zero, of the same sign and different
    and the duration is not zero; in every other case (a zero start
    frequency, frequencies of opposite sign or a zero end frequency, equal
    frequencies, a zero duration) it is NaN at every time. *)
Theorem frequency_at_is_a_sweep_or_nan (d f0 f1 t : R) :
  (f0 <> 0 /\ 0 < f1 / f0 /\ f1 <> f0 /\ d <> 0 /\
   frequency_at d f0 f1 t = Fin (f0 * Rpower (f1 / f0) (t / d))) \/
  ((f0 = 0 \/ f1 / f0 <= 0 \/ f1 = f0 \/ d = 0) /\ frequency_at d f0 f1 t = NaN).
Proof.
  destruct (Req_dec_T f0 0) as [Hf0|Hf0].
  { right. split; [auto|]. unfold frequency_at, _kr.
    destruct (Req_dec_T f0 0) as [_|H]; [|contradiction].
    set (p := fl_pow _ _).
    assert (E : fl_log 0 = NInf).
    { unfold fl_log. destruct (Rlt_dec 0 0) as [H|_]; [lra|].
      destruct (Rlt_dec 0 0) as [H|_]; [lra|]. reflexivity. }
    rewrite E. change (fl_div (Fin (2 * PI * d * f0)) NInf) with (Fin 0).
    rewrite fl_mul_zero_inf by auto. rewrite fl_mul_NaN_l. apply fl_div_NaN_l. }
  destruct (Rlt_dec 0 (f1 / f0)) as [Hr|Hr].
  2:{ right. split; [right; left; lra|]. unfold frequency_at, _kr.
      destruct (Req_dec_T f0 0) as [H|_]; [contradiction|].
      set (p := fl_pow _ _). unfold fl_log.
      destruct (Rlt_dec 0 (f1 / f0)) as [H|_]; [contradiction|].
      destruct (Rlt_dec (f1 / f0) 0) as [Hneg|Hzero].
      - change (fl_div (Fin (2 * PI * d * f0)) NaN) with NaN.
        rewrite !fl_mul_NaN_l. apply fl_div_NaN_l.
      - change (fl_div (Fin (2 * PI * d * f0)) NInf) with (Fin 0).
        rewrite fl_mul_zero_inf by auto. rewrite fl_mul_NaN_l. apply fl_div_NaN_l. }
  destruct (Req_dec_T f1 f0) as [He|He].
  { right. split; [auto|]. unfold frequency_at, _kr.
    destruct (Req_dec_T f0 0) as [H|_]; [contradiction|].
    assert (E : f1 / f0 = 1) by (subst f1; field; exact Hf0).
    rewrite E. set (p := fl_pow _ _).
    rewrite fl_log_positive by lra. rewrite ln_1.
    assert (Ek : fl_div (Fin (2 * PI * d * f0)) (Fin 0) = signed_inf (2 * PI * d * f0)).
    { cbn. destruct (Req_dec_T 0 0) as [_|H]; [reflexivity|contradiction]. }
    rewrite Ek, fl_mul_signed_inf_zero by reflexivity.
    rewrite fl_mul_NaN_l. apply fl_div_NaN_l. }
  destruct (Req_dec_T d 0) as [Hd|Hd].
  { right. split; [auto|]. unfold frequency_at, _kr.
    destruct (Req_dec_T f0 0) as [H|_]; [contradiction|].
    assert (Hr1 : f1 / f0 <> 1).
    { intros E. apply He. apply (f_equal (fun x => x * f0)) in E.
      unfold Rdiv in E. rewrite Rmult_assoc, Rinv_l, Rmult_1_r, Rmult_1_l in E by exact Hf0.
      exact E. }
    pose proof (ln_nonzero _ Hr Hr1) as Hln.
    set (p := fl_pow _ _).
    rewrite fl_log_positive by exact Hr. rewrite fl_div_finite by exact Hln.
    change (fl_mul (Fin (2 * PI * d * f0 / ln (f1 / f0))) (Fin (ln (f1 / f0))))
      with (Fin (2 * PI * d * f0 / ln (f1 / f0) * ln (f1 / f0))).
    apply fl_zero_over_zero; subst d; [field; exact Hln|ring]. }
  left. repeat split; try assumption. now apply frequency_at_regular.
Qed.

(** *** The frequency is the rate of the phase *)

Lemma derivable_pt_lim_ext (f g : R -> R) (x l l' : R) :
  (forall y, f y = g y) -> l = l' -> derivable_pt_lim f x l -> derivable_pt_lim g x l'.
Proof.
  intros Hext <- H eps Heps. destruct (H eps Heps) as [delta Hd].
  exists delta. intros h Hh1 Hh2. rewrite <- !Hext. now apply Hd.
Qed.

Lemma phase_at_regular (d f0 f1 phase t : R) :
  f0 <> 0 -> 0 < f1 / f0 -> f1 <> f0 -> d <> 0 ->
  phase_at d f0 f1 phase t =
  Fin (phase + - (2 * PI * d * f0 / ln (f1 / f0)) +
       2 * PI * d * f0 / ln (f1 / f0) * Rpower (f1 / f0) (t / d)).
Proof.
  intros Hf0 Hr Hne Hd. unfold phase_at, _kr.
  destruct (Req_dec_T f0 0) as [E|_]; [contradiction|].
  assert (Hr1 : f1 / f0 <> 1).
  { intros E. apply Hne. apply (f_equal (fun x => x * f0)) in E.
    unfold Rdiv in E. rewrite Rmult_assoc, Rinv_l, Rmult_1_r, Rmult_1_l in E by exact Hf0.
    exact E. }
  pose proof (ln_nonzero _ Hr Hr1) as Hln.
  rewrite fl_log_positive by exact Hr.
  rewrite fl_div_finite by exact Hln.
  rewrite fl_div_finite by exact Hd.
  rewrite fl_pow_positive by exact Hr.
  reflexivity.
Qed.

(** X24.  For a chirp whose frequencies are non-zero, of the same sign and
    different, and whose duration is not zero, [phase_at] and
    [frequency_at] are finite at every time, the phase at time 0 is the
    initial phase, and the frequency is the rate at which the phase
    advances: the derivative of [phase_at] is [2 * pi * frequency_at]. *)
Theorem frequency_is_the_rate_of_phase (d f0 f1 phase : R) :
  f0 <> 0 -> 0 < f1 / f0 -> f1 <> f0 -> d <> 0 ->
  exists P F : R -> R,
    (forall t, phase_at d f0 f1 phase t = Fin (P t)) /\
    (forall t, frequency_at d f0 f1 t = Fin (F t)) /\
    P 0 = phase /\
    forall t, derivable_pt_lim P t (2 * PI * F t).
Proof.
  intros Hf0 Hr Hne Hd.
  assert (Hr1 : f1 / f0 <> 1).
  { intros E. apply Hne. apply (f_equal (fun x => x * f0)) in E.
    unfold Rdiv in E. rewrite Rmult_assoc, Rinv_l, Rmult_1_r, Rmult_1_l in E by exact Hf0.
    exact E. }
  pose proof (ln_nonzero _ Hr Hr1) as Hln.
  set (K := 2 * PI * d * f0 / ln (f1 / f0)).
  exists (fun t => phase + - K + K * Rpower (f1 / f0) (t / d)),
         (fun t => f0 * Rpower (f1 / f0) (t / d)).
  split; [|split; [|split]].
  - intros t. now apply phase_at_regular.
  - intros t. now apply frequency_at_regular.
  - unfold Rdiv at 2. rewrite Rmult_0_l, Rpower_O by exact Hr. ring.
  - intros t.
    apply (derivable_pt_lim_ext
             (fct_cte (phase + - K) +
              mult_real_fct K (comp exp (mult_real_fct (ln (f1 / f0) / d) id)))%F
             _ t
             (0 + K * (exp (ln (f1 / f0) / d * t) * (ln (f1 / f0) / d * 1)))).
    + intros y. unfold plus_fct, fct_cte, mult_real_fct, comp, id, Rpower.
      f_equal. f_equal. f_equal. field. exact Hd.
    + unfold Rpower, K.
      replace (ln (f1 / f0) / d * t) with (t / d * ln (f1 / f0)) by (field; exact Hd).
      field. split; assumption.
    + apply derivable_pt_lim_plus; [apply derivable_pt_lim_const|].
      apply derivable_pt_lim_scal.
      apply (derivable_pt_lim_comp (mult_real_fct (ln (f1 / f0) / d) id) exp).
      * apply derivable_pt_lim_scal, derivable_pt_lim_id.
      * apply derivable_pt_lim_exp.
Qed.

Lemma frequency_is_the_rate_of_phase_witness :
  exists P F : R -> R,
    (forall t, phase_at 1 1 2 0 t = Fin (P t)) /\
    (forall t, frequency_at 1 1 2 t = Fin (F t)) /\
    P 0 = 0 /\
    forall t, derivable_pt_lim P t (2 * PI * F t).
Proof.
  apply (frequency_is_the_rate_of_phase 1 1 2 0); lra.
Defined.

End ChirpSweep.

(** ** Appending and removing a child *)

Section StoreRoundTrip.
Import Store.
Local Open Scope nat_scope.

Lemma lookup_set__items s self l r o :
  s !! r = Some o ->
  exists o', set__items s self l !! r = Some o' /\ o_attrs o' = o_attrs o.
Proof.
  intros H. unfold set__items. rewrite lookup_alter.
  destruct (decide (self = r)) as [->|]; rewrite H; cbn; eauto.
Qed.

Lemma lookup_set__parent s self p r o :
  s !! r = Some o ->
  exists o', set__parent s self p !! r = Some o' /\ o_attrs o' = o_attrs o.
Proof.
  intros H. unfold set__parent. rewrite lookup_alter.
  destruct (decide (self = r)) as [->|]; rewrite H; cbn; eauto.
Qed.

Lemma other_class_set__items s self l item e :
  other_class s item e -> other_class (set__items s self l) item e.
Proof.
  intros (Hne & a & b & Ha & Hb & Hc). split; [exact Hne|].
  destruct (lookup_set__items s self l e a Ha) as (a' & Ha' & Ea).
  destruct (lookup_set__items s self l item b Hb) as (b' & Hb' & Eb).
  exists a', b'. rewrite Ea, Eb. auto.
Qed.

Lemma other_class_set__parent s self p item e :
  other_class s item e -> other_class (set__parent s self p) item e.
Proof.
  intros (Hne & a & b & Ha & Hb & Hc). split; [exact Hne|].
  destruct (lookup_set__parent s self p e a Ha) as (a' & Ha' & Ea).
  destruct (lookup_set__parent s self p item b Hb) as (b' & Hb' & Eb).
  exists a', b'. rewrite Ea, Eb. auto.
Qed.

Lemma eq_other_class fuel s item e :
  other_class s item e -> eq (S fuel) s e item = Some (Ok false).
Proof.
  intros (_ & a & b & Ha & Hb & Hc). rewrite eq_unfold, Ha, Hb. cbv zeta.
  rewrite Hc. reflexivity.
Qed.

Lemma contains_among_others fuel s item l l' :
  Forall (other_class s item) l ->
  contains (S fuel) s item (l ++ item :: l') = Some (Ok true).
Proof.
  induction 1 as [|e l He _ IH]; cbn [app contains].
  - now rewrite Nat.eqb_refl.
  - rewrite (proj2 (Nat.eqb_neq e item) (proj1 He)).
    rewrite (eq_other_class fuel s item e He). exact IH.
Qed.

Lemma list_remove_among_others fuel s item l l' :
  Forall (other_class s item) l ->
  list_remove (S fuel) s item (l ++ item :: l') = Some (Ok (l ++ l')).
Proof.
  induction 1 as [|e l He _ IH]; cbn [app list_remove].
  - now rewrite Nat.eqb_refl.
  - rewrite (proj2 (Nat.eqb_neq e item) (proj1 He)).
    rewrite (eq_other_class fuel s item e He). now rewrite IH.
Qed.

Lemma list_remove_absent fuel s item l :
  Forall (other_class s item) l -> list_remove (S fuel) s item l = Some (Raise ValueError).
Proof.
  induction 1 as [|e l He _ IH]; cbn [list_remove]; [reflexivity|].
  rewrite (proj2 (Nat.eqb_neq e item) (proj1 He)).
  rewrite (eq_other_class fuel s item e He). now rewrite IH.
Qed.

Lemma items_set__items s self l : is_Some (s !! self) -> items (set__items s self l) self = l.
Proof.
  intros [o Ho]. unfold items, set__items. now rewrite lookup_alter_eq, Ho.
Qed.

Lemma items_set__parent s self p r : items (set__parent s self p) r = items s r.
Proof.
  unfold items, set__parent. rewrite lookup_alter.
  destruct (decide (self = r)) as [->|]; [|reflexivity]. now destruct (s !! r).
Qed.

Lemma parent_set__parent s self p : is_Some (s !! self) -> parent (set__parent s self p) self = p.
Proof.
  intros [o Ho]. unfold parent, set__parent. now rewrite lookup_alter_eq, Ho.
Qed.

Lemma parent_set__items s self l r : parent (set__items s self l) r = parent s r.
Proof.
  unfold parent, set__items. rewrite lookup_alter.
  destruct (decide (self = r)) as [->|]; [|reflexivity]. now destruct (s !! r).
Qed.

Lemma is_Some_set__items s self l r : is_Some (set__items s self l !! r) <-> is_Some (s !! r).
Proof. unfold set__items. apply lookup_alter_is_Some. Qed.

Lemma is_Some_set__parent s self p r : is_Some (set__parent s self p !! r) <-> is_Some (s !! r).
Proof. unfold set__parent. apply lookup_alter_is_Some. Qed.

(** Putting back the items and the parent that an object had gives back
    the store. *)
Ltac same_store s :=
  apply map_eq; intros r; unfold set__items, set__parent, items, parent;
  rewrite ?lookup_alter;
  repeat (case_decide; subst; try congruence);
  destruct (s !! r) as [[? ? ?]|]; reflexivity.

Lemma set__items_same s self : set__items s self (items s self) = s.
Proof. same_store s. Qed.

Lemma set__parent_same s self : set__parent s self (parent s self) = s.
Proof. same_store s. Qed.

Lemma set__items_twice s self l l' :
  set__items (set__items s self l) self l' = set__items s self l'.
Proof. same_store s. Qed.

Lemma set__parent_twice s self p p' :
  set__parent (set__parent s self p) self p' = set__parent s self p'.
Proof. same_store s. Qed.

Lemma set__items_set__parent s a l b p :
  set__items (set__parent s b p) a l = set__parent (set__items s a l) b p.
Proof. same_store s. Qed.

(** What [append_item] and [insert_item] come to once the list is
    changed: the parent setter finds the item in the list and leaves the
    list alone; [remove_item] then undoes both changes. *)
Lemma place_then_remove (n : nat) (s : store) (self item : ref) (l1 l2 : list ref) :
  is_Some (s !! self) -> is_Some (s !! item) ->
  parent s item = None ->
  items s self = l1 ++ l2 ->
  Forall (other_class s item) (l1 ++ l2) ->
  exists s1,
    set_parent (3 + n) item (Some self) (set__items s self (l1 ++ item :: l2)) = Done s1 /\
    items s1 self = l1 ++ item :: l2 /\
    parent s1 item = Some self /\
    (forall r, r <> self -> r <> item -> s1 !! r = s !! r) /\
    remove_item (4 + n) self item s1 = Done s.
Proof.
  intros Hself Hitem Hp Hi Hl.
  set (s1 := set__parent (set__items s self (l1 ++ item :: l2)) item (Some self)).
  assert (Hi1 : items s1 self = l1 ++ item :: l2).
  { unfold s1. rewrite items_set__parent. now apply items_set__items. }
  assert (Hp1 : parent s1 item = Some self).
  { unfold s1. apply parent_set__parent. now apply is_Some_set__items. }
  assert (Hl1 : Forall (other_class s1 item) (l1 ++ l2)).
  { eapply Forall_impl; [exact Hl|]. intros e He.
    now apply other_class_set__parent, other_class_set__items. }
  exists s1. split; [|split; [exact Hi1|split; [exact Hp1|split]]].
  - change (3 + n) with (S (S (S n))). cbn [set_parent].
    rewrite parent_set__items, Hp.
    destruct (decide (None = Some self)) as [E|_]; [discriminate|].
    fold s1. rewrite Hi1.
    rewrite contains_among_others; [reflexivity|].
    apply Forall_app in Hl1. tauto.
  - intros r Hr1 Hr2. unfold s1, set__parent, set__items.
    now rewrite !lookup_alter_ne by auto.
  - change (4 + n) with (S (S (S (S n)))). cbn [remove_item].
    rewrite Hi1, list_remove_among_others by (apply Forall_app in Hl1; tauto).
    cbn [set_parent]. rewrite parent_set__items, Hp1.
    destruct (decide (Some self = None)) as [E|_]; [discriminate|].
    set (s2 := set__parent (set__items s1 self (l1 ++ l2)) item None).
    assert (Hi2 : items s2 self = l1 ++ l2).
    { unfold s2. rewrite items_set__parent. apply items_set__items.
      unfold s1. now apply is_Some_set__parent, is_Some_set__items. }
    cbn [remove_item]. rewrite Hi2.
    rewrite list_remove_absent.
    2:{ eapply Forall_impl; [exact Hl1|]. intros e He.
        now apply other_class_set__parent, other_class_set__items. }
    f_equal. unfold s2, s1.
    rewrite set__items_set__parent, set__items_twice, set__parent_twice.
    rewrite <- Hi, set__items_same, <- Hp. apply set__parent_same.
Qed.

(** X25.  Appending an object that has no parent, to a parent none of
    whose children is this object or of its class (so that none compares
    equal to it), returns: the object comes last among the items of the
    parent, its parent is set, and no other object changes.  Removing it
    again returns as well and gives back the store as it was. *)
Theorem append_then_remove (n : nat) (s : store) (self item : ref) :
  is_Some (s !! self) -> is_Some (s !! item) ->
  parent s item = None ->
  Forall (other_class s item) (items s self) ->
  exists s1,
    append_item (4 + n) self item s = Done s1 /\
    items s1 self = items s self ++ [item] /\
    parent s1 item = Some self /\
    (forall r, r <> self -> r <> item -> s1 !! r = s !! r) /\
    remove_item (4 + n) self item s1 = Done s.
Proof.
  intros Hself Hitem Hp Hl.
  apply (place_then_remove n s self item (items s self) []); try assumption.
  - now rewrite app_nil_r.
  - now rewrite app_nil_r.
Qed.

(** X26.  [insert_item] under the same conditions: the object is put
    before the child at [index], counted from the end when [index] is
    negative and cut to the ends of the list, the other children keep
    their order, its parent is set, and removing it gives back the store
    as it was. *)
Theorem insert_then_remove (n : nat) (s : store) (self item : ref) (index : Z) :
  is_Some (s !! self) -> is_Some (s !! item) ->
  parent s item = None ->
  Forall (other_class s item) (items s self) ->
  let l := items s self in
  let len := Z.of_nat (length l) in
  let i := Z.to_nat (if (index <? 0)%Z then Z.max 0 (len + index) else Z.min index len) in
  exists s1,
    insert_item (3 + n) self index item s = Done s1 /\
    items s1 self = firstn i l ++ item :: skipn i l /\
    parent s1 item = Some self /\
    (forall r, r <> self -> r <> item -> s1 !! r = s !! r) /\
    remove_item (4 + n) self item s1 = Done s.
Proof.
  intros Hself Hitem Hp Hl l len i.
  apply (place_then_remove n s self item (firstn i l) (skipn i l)); try assumption.
  - symmetry. apply firstn_skipn.
  - now rewrite firstn_skipn.
Qed.

End StoreRoundTrip.

Lemma append_then_remove_witness :
  exists s1,
    Store.append_item 4 0%nat 3%nat parent_of_one = Store.Done s1 /\
    Store.items s1 0%nat = Store.items parent_of_one 0%nat ++ [3%nat] /\
    Store.parent s1 3%nat = Some 0%nat /\
    (forall r, r <> 0%nat -> r <> 3%nat -> s1 !! r = parent_of_one !! r) /\
    Store.remove_item 4 0%nat 3%nat s1 = Store.Done parent_of_one.
Proof.
  apply (append_then_remove 0 parent_of_one 0%nat 3%nat).
  - vm_compute. eauto.
  - vm_compute. eauto.
  - reflexivity.
  - constructor; [|constructor]. split; [discriminate|].
    eexists _, _. repeat split; vm_compute; reflexivity.
Defined.

Lemma insert_then_remove_witness :
  exists s1,
    Store.insert_item 3 0%nat (-5) 3%nat parent_of_one = Store.Done s1 /\
    Store.items s1 0%nat = [3%nat; 1%nat] /\
    Store.parent s1 3%nat = Some 0%nat /\
    (forall r, r <> 0%nat -> r <> 3%nat -> s1 !! r = parent_of_one !! r) /\
    Store.remove_item 4 0%nat 3%nat s1 = Store.Done parent_of_one.
Proof.
  apply (insert_then_remove 0 parent_of_one 0%nat 3%nat (-5)).
  - vm_compute. eauto.
  - vm_compute. eauto.
  - reflexivity.
  - constructor; [|constructor]. split; [discriminate|].
    eexists _, _. repeat split; vm_compute; reflexivity.
Defined.

(** ** The slope of a ramp *)

Section RampSlope.
Local Open Scope Q_scope.

Variable np_sin : Q -> Q.
Variable np_log : Q -> Q.
Variable np_power : Q -> Q -> Q.
Variable np_pi : Q.
Variable psp_func : Q -> Q -> Q -> Q -> Q -> Q -> Q -> Q.
Variable search_index : list Q -> Q -> index_mode -> Z.

#[local] Abbreviation eval' := (eval np_sin np_log np_power np_pi psp_func search_index).

(** X27.  A [Ramp] that starts at sample [first] of a regularly sampled
    trace and ends at sample [last] adds [offset] to sample [first] and
    [slope] more with every following sample, up to sample [last - 1], and
    leaves the other samples alone: the rise is [slope] per sample,
    whatever the sampling step of the trace. *)
Theorem ramp_rises_per_sample (anc : list attrs) (tr : TSeries) (origin step : Q)
    (first last : nat) (st dur slope offset : Q) (desc : string) (u : option string)
    (mode : option index_mode) :
  let ramp := Ramp__init__ st dur slope offset desc u in
  timing_of tr = Ok (Regular origin step) -> ~ step == 0 ->
  global_start_time anc ramp == origin + inject_Z (Z.of_nat first) * step ->
  dur == inject_Z (Z.of_nat last - Z.of_nat first) * step ->
  (first <= last <= length (data tr))%nat ->
  exists d,
    eval' anc ramp (trace_kwds tr mode) = Ok (set_data tr d) /\
    length d = length (data tr) /\
    forall k, nth k d 0 =
      if Nat.leb first k && Nat.ltb k last
      then nth k (data tr) 0 + (inject_Z (Z.of_nat (k - first)) * slope + offset)
      else nth k (data tr) 0.
Proof.
  intros ramp Ht Hstep Hst Hdur Hlen.
  exists (add_region first last (fun k => inject_Z (Z.of_nat k) * slope + offset) (data tr)).
  split; [|split].
  - rewrite (eval_with_trace _ _ _ _ _ _ anc ramp (trace_kwds tr mode) tr eq_refl).
    unfold ramp, Ramp__init__. rewrite eval_child_unfold. cbn [eval_children bind].
    unfold eval_own. cbn [extra duration_of own_duration].
    rewrite (time_slice_grid search_index tr origin step _ _ first last _ Ht Hstep);
      [reflexivity|exact Hst| |lia|lia].
    change (global_start_time anc ramp + dur ==
            origin + inject_Z (Z.of_nat last) * step).
    rewrite Hst, Hdur, <- Z.add_opp_r, inject_Z_plus, inject_Z_opp. ring.
  - apply length_add_region.
  - intros k. rewrite nth_add_region.
    destruct (Nat.leb_spec first k), (Nat.ltb_spec k last); cbn [andb]; try reflexivity.
    rewrite (proj2 (Nat.ltb_lt k (length (data tr)))) by lia. reflexivity.
Qed.

End RampSlope.

Lemma ramp_rises_per_sample_witness :
  exists d,
    eval (fun _ => 0%Q) (fun _ => 0%Q) (fun _ _ => 0%Q) 3%Q (fun _ _ _ _ _ _ _ => 0%Q)
      (fun _ _ _ => 0%Z) [] (Ramp__init__ (1 # 2) (3 # 2) 2 1 "linear ramp" None)
      (trace_kwds (mkTSeries (zeros 5) (Some 0%Q) (Some (1 # 2)%Q) None None None) None)
    = Ok (set_data (mkTSeries (zeros 5) (Some 0%Q) (Some (1 # 2)%Q) None None None) d) /\
    length d = 5%nat /\
    forall k, nth k d 0%Q =
      if Nat.leb 1 k && Nat.ltb k 4
      then (nth k (zeros 5) 0 + (inject_Z (Z.of_nat (k - 1)) * 2 + 1))%Q
      else nth k (zeros 5) 0%Q.
Proof.
  apply (ramp_rises_per_sample (fun _ => 0%Q) (fun _ => 0%Q) (fun _ _ => 0%Q) 3%Q
           (fun _ _ _ _ _ _ _ => 0%Q) (fun _ _ _ => 0%Z) []
           (mkTSeries (zeros 5) (Some 0%Q) (Some (1 # 2)%Q) None None None)
           0%Q (1 # 2)%Q 1 4 (1 # 2)%Q (3 # 2)%Q 2%Q 1%Q "linear ramp" None None).
  - reflexivity.
  - discriminate.
  - reflexivity.
  - reflexivity.
  - cbn. lia.
Defined.

(** ** The end of a tree *)

(** X28.  [total_global_end_time] is the latest [global_end_time] of the
    node and of all the nodes below it, at any depth: it is the end time of
    one of them and no end time among them is later. *)
Theorem total_end_time_is_the_latest (anc : list attrs) (s : stim) :
  In (total_global_end_time anc s) (subtree_end_times anc s) /\
  forall e, In e (subtree_end_times anc s) -> (e <= total_global_end_time anc s)%Q.
Proof. apply total_global_end_time_is_max. Qed.

(** ** What detection in noise returns *)

(** X29.  Every pulse that [find_noisy_square_pulses] returns is strictly
    longer than [min_duration] and its amplitude is strictly larger, in
    absolute value, than [min_amplitude]. *)
Theorem noisy_pulses_pass_both_limits (np_std : list Q -> Q) (trace : TSeries)
    (baseline : option (list Q)) (std_threshold min_duration min_amplitude : Q)
    (pulses : list stim) :
  find_noisy_square_pulses np_std trace baseline std_threshold min_duration min_amplitude
    = Ok pulses ->
  Forall (kept min_duration min_amplitude) pulses.
Proof. apply find_noisy_square_pulses_kept. Qed.

Lemma noisy_pulses_pass_both_limits_witness :
  Forall (kept 2 0) [SquarePulse__init__ 2 3 (60 # 6) "square pulse" None].
Proof.
  apply (noisy_pulses_pass_both_limits (fun _ => 1%Q)
           (mkTSeries [0; 0; 10; 10; 10; 0; 0]%Q (Some 0%Q) (Some 1%Q) None None None)
           (Some [1; -1]%Q) 5 2 0).
  vm_compute. reflexivity.
Defined.
